(** * Beam-Analyzer: the direct-stiffness engine of [src/solver.ts]

    A shallow embedding of the numerical core (dense LU solver, element
    formulation, moment release, mesh generation, assembly, load vectors,
    internal-force recovery, reactions, determinacy and influence lines).

    Numbers.  A JavaScript [number] is idealised as an exact rational,
    [Qc] (canonical rationals, Leibniz equality).  Rounding, NaN and the
    infinities are outside the model; the one place where the source uses
    [Infinity] as a sentinel ([findClosestNodeIndex]) is modelled with an
    [option].  Arrays are lists, read with [!!!] and written with
    [<[i:=v]>]; an out-of-range read yields [0] (the source never performs
    one on well-formed input: every index is bounded by the loop that
    produces it). *)

From Stdlib Require Import QArith Qcanon Qcabs Qround Lia Lqa ZArith.
From stdpp Require Import base list strings gmap pretty.

Open Scope Qc_scope.

(** ** Numeric prelude *)

Module Num.

(** Integer and decimal literals of the source. *)
Definition qz (z : Z) : Qc := Q2Qc (inject_Z z).
Definition qfrac (n : Z) (d : positive) : Qc := Q2Qc (n # d).

(** [1e-18], [1e-22], [1e-12], [1e-9], [1e-7], [0.1] *)
Definition eps18 : Qc := qfrac 1 (10 ^ 18).
Definition eps22 : Qc := qfrac 1 (10 ^ 22).
Definition eps12 : Qc := qfrac 1 (10 ^ 12).
Definition eps9 : Qc := qfrac 1 (10 ^ 9).
Definition eps7 : Qc := qfrac 1 (10 ^ 7).
Definition tenth : Qc := qfrac 1 10.
(** [1e6], [1e18], [1000] *)
Definition e6 : Qc := qz (10 ^ 6).
Definition e18 : Qc := qz (10 ^ 18).
Definition k1000 : Qc := qz 1000.

(** [a < b] and [a <= b] as booleans. *)
Definition ltb (a b : Qc) : bool := if Qclt_le_dec a b then true else false.
Definition leb (a b : Qc) : bool := if Qclt_le_dec b a then false else true.

(** [Math.max(a, b)], [Math.min(a, b)] *)
Definition max (a b : Qc) : Qc := if ltb a b then b else a.
Definition min (a b : Qc) : Qc := if ltb b a then b else a.

(** [Math.ceil] of a rational, as an integer. *)
Definition ceil (a : Qc) : Z := Qceiling (this a).

End Num.

(** Integer literals of the source: [c 12] is the number [12]. *)
Local Abbreviation c := Num.qz.

(** ** Arrays and loops *)

Global Instance Qc_inhabited : Inhabited Qc := populate (Num.qz 0).

Abbreviation vec := (list Qc).
Abbreviation matrix := (list (list Qc)).

(** [m[i][j]] and [m[i][j] = v] *)
Definition mget (m : matrix) (i j : nat) : Qc := (m !!! i) !!! j.
Definition mset (m : matrix) (i j : nat) (v : Qc) : matrix :=
  <[i := <[j := v]> (m !!! i)]> m.

(** [for (let i = lo; i < hi; i++) body], threading the loop state. *)
Definition for_range {S : Type} (lo hi : nat) (body : nat -> S -> S) (s : S) : S :=
  fold_left (fun s i => body i s) (seq lo (hi - lo)) s.

(** [for (let i = hi - 1; i >= 0; i--) body] *)
Definition for_down {S : Type} (hi : nat) (body : nat -> S -> S) (s : S) : S :=
  fold_left (fun s i => body i s) (rev (seq 0 hi)) s.

(** [Array(n).fill(0)] *)
Definition zeros (n : nat) : vec := replicate n (c 0).

(** ** The dense solver: [class LUSolver] *)

Record LUSolver := mkLU { lu_n : nat; lu_LU : matrix; lu_pivot : list nat }.

(** The pivot search of one column: lines 15-20.  The state is [(max, row)]. *)
Definition find_pivot (LU : matrix) (n i : nat) : Qc * nat :=
  for_range i n
    (fun k '(mx, row) =>
       let val := Qcabs (mget LU k i) in
       if Num.ltb mx val then (val, k) else (mx, row))
    (c 0, i).

(** [[a[i], a[j]] = [a[j], a[i]]] *)
Definition swap {A} `{Inhabited A} (l : list A) (i j : nat) : list A :=
  let vi := l !!! j in
  let vj := l !!! i in
  <[j := vj]> (<[i := vi]> l).

(** The elimination of row [j] against pivot row [i]: lines 26-29. *)
Definition eliminate_row (n i j : nat) (LU : matrix) : matrix :=
  let LU1 := mset LU j i (mget LU j i / mget LU i i) in
  for_range (i + 1) n
    (fun k LU' => mset LU' j k (mget LU' j k - mget LU' j i * mget LU' i k))
    LU1.

(** One iteration of the outer loop: lines 14-31. *)
Definition lu_step (n i : nat) (st : matrix * list nat) : matrix * list nat :=
  let '(LU, pivot) := st in
  let '(mx, row) := find_pivot LU n i in
  if Num.ltb mx Num.eps18 then st
  else
    let LU1 := swap LU i row in
    let pivot1 := swap pivot i row in
    (for_range (i + 1) n (eliminate_row n i) LU1, pivot1).

(** [new LUSolver(matrix)] *)
Definition LUSolver_new (m : matrix) : LUSolver :=
  let n := length m in
  let '(LU, pivot) := for_range 0 n (lu_step n) (m, seq 0 n) in
  mkLU n LU pivot.

(** [sum] of the inner loops of [solve]: [for j in [lo, hi): sum += row[j] * v[j]] *)
Definition dot_range (lo hi : nat) (row v : vec) : Qc :=
  for_range lo hi (fun j sum => sum + (row !!! j) * (v !!! j)) (c 0).

(** Forward substitution: lines 37-41. *)
Definition forward (s : LUSolver) (b : vec) : vec :=
  for_range 0 (lu_n s)
    (fun i y =>
       let sum := dot_range 0 i (lu_LU s !!! i) y in
       <[i := (b !!! (lu_pivot s !!! i)) - sum]> y)
    (zeros (lu_n s)).

(** Back substitution: lines 42-47. *)
Definition backward (s : LUSolver) (y : vec) : vec :=
  for_down (lu_n s)
    (fun i x =>
       let sum := dot_range (i + 1) (lu_n s) (lu_LU s !!! i) x in
       if Num.ltb (Qcabs (mget (lu_LU s) i i)) Num.eps22
       then <[i := c 0]> x
       else <[i := (y !!! i - sum) / mget (lu_LU s) i i]> x)
    (zeros (lu_n s)).

(** [solver.solve(b)] *)
Definition LUSolver_solve (s : LUSolver) (b : vec) : vec :=
  backward s (forward s b).

(** *** The divisions of the solver, logged

    The same loops as [lu_step], [LUSolver_new] and [backward], with every
    divisor appended to a log at the point where the source divides. *)

Definition lu_step_log (n i : nat) (st : (matrix * list nat) * list Qc)
  : (matrix * list nat) * list Qc :=
  let '((LU, pivot), divs) := st in
  let '(mx, row) := find_pivot LU n i in
  if Num.ltb mx Num.eps18 then st
  else
    let LU1 := swap LU i row in
    let pivot1 := swap pivot i row in
    let '(LU2, divs2) :=
      for_range (i + 1) n
        (fun j '(LU', d) => (eliminate_row n i j LU', d ++ [mget LU' i i]))
        (LU1, divs) in
    ((LU2, pivot1), divs2).

Definition LUSolver_new_log (m : matrix) : LUSolver * list Qc :=
  let n := length m in
  let '((LU, pivot), divs) := for_range 0 n (lu_step_log n) ((m, seq 0 n), []) in
  (mkLU n LU pivot, divs).

Definition backward_log (s : LUSolver) (y : vec) : vec * list Qc :=
  for_down (lu_n s)
    (fun i '(x, divs) =>
       let sum := dot_range (i + 1) (lu_n s) (lu_LU s !!! i) x in
       if Num.ltb (Qcabs (mget (lu_LU s) i i)) Num.eps22
       then (<[i := c 0]> x, divs)
       else (<[i := (y !!! i - sum) / mget (lu_LU s) i i]> x,
             divs ++ [mget (lu_LU s) i i]))
    (zeros (lu_n s), []).

Definition LUSolver_solve_log (s : LUSolver) (b : vec) : vec * list Qc :=
  backward_log s (forward s b).

(** *** The guards of the solver

    [pivot_max m i] is the value of [max] found in iteration [i] of the
    constructor; the factorization of [m] is unguarded when no iteration
    takes the [continue] of line 21, and a solve is unguarded when no
    diagonal entry takes the branch [x[i] = 0] of line 45. *)

Definition pivot_max (m : matrix) (i : nat) : Qc :=
  let n := length m in
  fst (find_pivot (fst (for_range 0 i (lu_step n) (m, seq 0 n))) n i).

Definition factorization_unguarded (m : matrix) : Prop :=
  forall i, (i < length m)%nat -> Num.eps18 <= pivot_max m i.

Definition solve_unguarded (s : LUSolver) : Prop :=
  forall i, (i < lu_n s)%nat -> Num.eps22 <= Qcabs (mget (lu_LU s) i i).

(** A square matrix of order [n], a vector of length [n]. *)
Definition square (n : nat) (m : matrix) : Prop :=
  length m = n /\ forall i, (i < n)%nat -> length (m !!! i) = n.

(** [sum_{lo <= j < hi} f j], accumulated in the order of the loops. *)
Definition sum_range (lo hi : nat) (f : nat -> Qc) : Qc :=
  for_range lo hi (fun j acc => acc + f j) (c 0).

(** The product [K x] of a matrix and a vector. *)
Definition mat_vec (K : matrix) (x : vec) : vec :=
  (fun row : vec => sum_range 0 (length row) (fun j => row !!! j * (x !!! j))) <$> K.

(** ** Element formulation *)

(** [elementStiffness(EI, L)] *)
Definition elementStiffness (EI L : Qc) : matrix :=
  let L2 := L * L in
  let L3 := L2 * L in
  [ [c 12 * EI / L3; c 6 * EI / L2; - c 12 * EI / L3; c 6 * EI / L2];
    [c 6 * EI / L2; c 4 * EI / L; - c 6 * EI / L2; c 2 * EI / L];
    [- c 12 * EI / L3; - c 6 * EI / L2; c 12 * EI / L3; - c 6 * EI / L2];
    [c 6 * EI / L2; c 2 * EI / L; - c 6 * EI / L2; c 4 * EI / L] ].

(** The body of the [for (const r of releases)] loop: lines 68-77.  Both
    [ke] and [fe] are updated in place, entry by entry, in the order of
    the two nested loops; every read sees the writes made before it. *)
Definition release_step (r : nat) (st : matrix * vec) : matrix * vec :=
  let '(ke, fe) := st in
  let krr := mget ke r r in
  if Num.ltb (Qcabs krr) Num.eps12 then st
  else
    let fr := fe !!! r in
    for_range 0 4
      (fun i '(ke, fe) =>
         let fe' := <[i := fe !!! i - (mget ke i r / krr) * fr]> fe in
         let ke' :=
           for_range 0 4
             (fun j ke => mset ke i j (mget ke i j - (mget ke i r * mget ke r j) / krr))
             ke in
         (ke', fe'))
      (ke, fe).

(** [applyMomentRelease(ke, fe, releaseStart, releaseEnd)]; the mutated
    arguments are returned. *)
Definition applyMomentRelease (ke : matrix) (fe : vec) (releaseStart releaseEnd : bool)
  : matrix * vec :=
  let releases := (if releaseStart then [1%nat] else []) ++ (if releaseEnd then [3%nat] else []) in
  fold_left (fun st r => release_step r st) releases (ke, fe).

(** [findClosestNodeIndex(nodes, x)]; [minDiff] starts at [Infinity],
    here [None]. *)
Definition findClosestNodeIndex (nodes : vec) (x : Qc) : nat :=
  snd (for_range 0 (length nodes)
         (fun i '(minDiff, idx) =>
            let d := Qcabs (nodes !!! i - x) in
            match minDiff with
            | None => (Some d, i)
            | Some md => if Num.ltb d md then (Some d, i) else (minDiff, idx)
            end)
         (None, 0%nat)).

(** ** Data model: [types.ts] *)

Inductive SupportType := PINNED | ROLLER | FIXED | HINGE.
Inductive LoadType := POINT | UDL | UVL | MOMENT.

Global Instance SupportType_eq_dec : EqDecision SupportType.
Proof. solve_decision. Defined.
Global Instance LoadType_eq_dec : EqDecision LoadType.
Proof. solve_decision. Defined.

Record Support := mkSupport {
  s_id : string;
  s_type : SupportType;
  s_position : Qc }.

(** The optional fields [endMagnitude?] and [endPosition?] are [None] when
    [undefined]. *)
Record Load := mkLoad {
  l_id : string;
  l_type : LoadType;
  l_magnitude : Qc;
  l_endMagnitude : option Qc;
  l_position : Qc;
  l_endPosition : option Qc }.

Record BeamConfig := mkConfig {
  cfg_length : Qc;
  cfg_elasticModulus : Qc;
  cfg_momentOfInertia : Qc }.

Record ILDPoint := mkILD { ild_x : Qc; ild_value : Qc }.

Record Reaction := mkReaction {
  rx_position : Qc;
  rx_force : Qc;
  rx_moment : Qc;
  rx_label : string;
  rx_id : string }.

Record AnalysisResults := mkResults {
  nodes : vec;
  shearForce : vec;
  bendingMoment : vec;
  deflection : vec;
  reactions : list Reaction;
  maxShear : Qc;
  minShear : Qc;
  maxMoment : Qc;
  minMoment : Qc;
  maxDeflection : Qc;
  minDeflection : Qc;
  determinacy : Z;
  isStable : bool;
  ildReactions : gmap string (list ILDPoint);
  ildShearAtProbe : list ILDPoint;
  ildMomentAtProbe : list ILDPoint }.

(** A call either throws or returns. *)
Inductive outcome :=
| Throw (msg : string)
| Return (r : AnalysisResults).

Definition is_distributed (t : LoadType) : bool :=
  match t with UDL | UVL => true | _ => false end.

(** ** Mesh generation: lines 101-118 *)

(** [Set.prototype.add]: insertion order, no duplicates. *)
Definition set_add {A} `{EqDecision A} (s : list A) (x : A) : list A :=
  if decide (x ∈ s) then s else s ++ [x].

(** The callbacks of the two [forEach] of lines 102-106. *)
Definition add_support_position (s : vec) (sp : Support) : vec :=
  set_add s (s_position sp).

Definition add_load_positions (s : vec) (l : Load) : vec :=
  let s' := set_add s (l_position l) in
  match l_endPosition l with
  | Some e => if is_distributed (l_type l) then set_add s' e else s'
  | None => s'
  end.

(** [criticalX] after lines 101-106. *)
Definition criticalX (L probeX : Qc) (supports : list Support) (loads : list Load) : vec :=
  let s0 := fold_left set_add [c 0; L; probeX] [] in
  let s1 := fold_left add_support_position supports s0 in
  fold_left add_load_positions loads s1.

(** [Array.prototype.sort((a, b) => a - b)]: a stable ascending sort. *)
Fixpoint sort_insert (x : Qc) (l : vec) : vec :=
  match l with
  | [] => [x]
  | y :: l' => if Num.leb x y then x :: l else y :: sort_insert x l'
  end.

Definition sort_asc (l : vec) : vec := fold_right sort_insert [] l.

Definition minInterval (L : Qc) : Qc := Num.max Num.tenth (L / c 100).

(** [numSub] of line 115. *)
Definition numSub (L start end_ : Qc) : Z :=
  Z.max 1 (Num.ceil ((end_ - start) / minInterval L)).

(** The nodes pushed for one pair [(start, end)]: lines 114-116. *)
Definition subdivide (L start end_ : Qc) (acc : vec) : vec :=
  let n := numSub L start end_ in
  for_range 1 (Z.to_nat n)
    (fun j acc => acc ++ [start + (c (Z.of_nat j) * (end_ - start)) / c n])
    (acc ++ [start]).

(** The loop of lines 112-117, pushing onto [finalNodes]. *)
Definition mesh_loop (L : Qc) (sortedX : vec) (acc : vec) : vec :=
  for_range 0 (length sortedX - 1)
    (fun i acc => subdivide L (sortedX !!! i) (sortedX !!! (i + 1)%nat) acc)
    acc.

(** [finalNodes] after line 118. *)
Definition mesh (L : Qc) (sortedX : vec) : vec :=
  mesh_loop L sortedX [] ++ [L].

Definition finalNodes (L probeX : Qc) (supports : list Support) (loads : list Load) : vec :=
  mesh L (sort_asc (criticalX L probeX supports loads)).

(** The callback of the [forEach] of lines 124-128. *)
Definition hinge_step (fnodes : vec) (hs : list nat) (s : Support) : list nat :=
  match s_type s with
  | HINGE => set_add hs (findClosestNodeIndex fnodes (s_position s))
  | _ => hs
  end.

(** [hingeNodes]: lines 123-128. *)
Definition hingeNodes (fnodes : vec) (supports : list Support) : list nat :=
  fold_left (hinge_step fnodes) supports [].

Definition has (hs : list nat) (i : nat) : bool := bool_decide (i ∈ hs).

(** ** Global assembly: lines 130-158 *)

(** [idxs] of lines 141 and 204. *)
Definition idxs (i : nat) : list nat :=
  [i * 2; i * 2 + 1; (i + 1) * 2; (i + 1) * 2 + 1]%nat.

(** The scatter of one element: lines 142-146. *)
Definition scatter (i : nat) (ke : matrix) (K : matrix) : matrix :=
  for_range 0 4
    (fun r K =>
       for_range 0 4
         (fun cc K => mset K (idxs i !!! r) (idxs i !!! cc)
                        (mget K (idxs i !!! r) (idxs i !!! cc) + mget ke r cc))
         K)
    K.

(** The contribution of element [i]: the body of the loop of lines 131-147. *)
Definition assemble_element (EI : Qc) (fnodes : vec) (hs : list nat) (i : nat) (K : matrix)
  : matrix :=
  let x1 := fnodes !!! i in
  let x2 := fnodes !!! (i + 1)%nat in
  let Le := x2 - x1 in
  if Num.leb Le (c 0) then K
  else
    let ke := elementStiffness EI Le in
    let dummyFe := [c 0; c 0; c 0; c 0] in
    let releaseStart := has hs i in
    let releaseEnd := has hs (i + 1) in
    let ke :=
      if releaseStart || releaseEnd
      then fst (applyMomentRelease ke dummyFe releaseStart releaseEnd)
      else ke in
    scatter i ke K.

(** [Array(totalDof).fill(0).map(() => new Float64Array(totalDof))] *)
Definition zero_matrix (n : nat) : matrix := replicate n (zeros n).

Definition assemble (EI : Qc) (fnodes : vec) (hs : list nat) : matrix :=
  let numNodes := length fnodes in
  let totalDof := (numNodes * 2)%nat in
  for_range 0 (numNodes - 1) (assemble_element EI fnodes hs) (zero_matrix totalDof).

(** [K[a][a] += v] *)
Definition add_diag (K : matrix) (a : nat) (v : Qc) : matrix :=
  mset K a a (mget K a a + v).

(** The penalty augmentation: lines 149-158. *)
Definition apply_supports (penalty : Qc) (fnodes : vec) (supports : list Support)
    (K : matrix) : matrix :=
  fold_left
    (fun K s =>
       let idx := findClosestNodeIndex fnodes (s_position s) in
       match s_type s with
       | FIXED => add_diag (add_diag K (idx * 2) penalty) (idx * 2 + 1) penalty
       | PINNED | ROLLER => add_diag K (idx * 2) penalty
       | HINGE => K
       end)
    supports K.

(** ** Load vectors: [buildLoadVector], lines 163-219 *)

(** [v[i] += d] *)
Definition vadd (v : vec) (i : nat) (d : Qc) : vec := <[i := v !!! i + d]> v.

(** The part shared by the two [forEach] bodies over distributed loads
    (lines 176-184 and 236-244): [Some (q1 + q2, loadLen)] when the load is
    a UDL or UVL overlapping the element [[x1, x2]] by more than [1e-9].
    An [undefined] end position makes [xB] a NaN and the test false. *)
Definition overlap (x1 x2 : Qc) (load : Load) : option (Qc * Qc) :=
  if is_distributed (l_type load) then
    match l_endPosition load with
    | None => None
    | Some endPosition =>
        let xA := Num.max x1 (l_position load) in
        let xB := Num.min x2 endPosition in
        if Num.ltb xA (xB - Num.eps9) then
          let wStart := l_magnitude load in
          let wEnd :=
            match l_type load with
            | UVL => default wStart (l_endMagnitude load)
            | _ => wStart
            end in
          let t1 := (xA - l_position load) / (endPosition - l_position load) in
          let t2 := (xB - l_position load) / (endPosition - l_position load) in
          let q1 := (wStart + (wEnd - wStart) * t1) * Num.k1000 in
          let q2 := (wStart + (wEnd - wStart) * t2) * Num.k1000 in
          Some (q1 + q2, xB - xA)
        else None
    end
  else None.

(** Lines 185-190, in [buildLoadVector]. *)
Definition distributed_fe (x1 x2 : Qc) (load : Load) (fe : vec) : vec :=
  match overlap x1 x2 load with
  | None => fe
  | Some (q12, loadLen) =>
      let totalW := q12 * loadLen / c 2 in
      let fe := vadd fe 0 (- (totalW / c 2)) in
      let fe := vadd fe 2 (- (totalW / c 2)) in
      let mFE := q12 * loadLen * loadLen / c 24 in
      let fe := vadd fe 1 (- mFE) in
      vadd fe 3 mFE
  end.

(** Lines 245-249, in [getInternalAt]. *)
Definition distributed_fe_internal (x1 x2 : Qc) (load : Load) (fe : vec) : vec :=
  match overlap x1 x2 load with
  | None => fe
  | Some (q12, loadLen) =>
      let fe := vadd fe 0 (- (q12 * loadLen / c 4)) in
      let fe := vadd fe 2 (- (q12 * loadLen / c 4)) in
      let mFE := q12 * loadLen * loadLen / c 24 in
      let fe := vadd fe 1 (- mFE) in
      vadd fe 3 mFE
  end.

Section Analysis.

(** The values fixed once the mesh and the factorization exist. *)
Variable EI : Qc.
Variable fnodes : vec.
Variable hs : list nat.

Let numNodes := length fnodes.
Let totalDof := (numNodes * 2)%nat.

Definition buildLoadVector (currentLoads : list Load) : vec :=
  let F := zeros totalDof in
  let hasDistributed := existsb (fun l => is_distributed (l_type l)) currentLoads in
  let F :=
    if hasDistributed then
      for_range 0 (numNodes - 1)
        (fun i F =>
           let x1 := fnodes !!! i in
           let x2 := fnodes !!! (i + 1)%nat in
           let Le := x2 - x1 in
           if Num.leb Le (c 0) then F
           else
             let fe := fold_left (fun fe load => distributed_fe x1 x2 load fe)
                         currentLoads (zeros 4) in
             let releaseStart := has hs i in
             let releaseEnd := has hs (i + 1) in
             let fe :=
               if releaseStart || releaseEnd
               then snd (applyMomentRelease (elementStiffness EI Le) fe
                           releaseStart releaseEnd)
               else fe in
             for_range 0 4 (fun r F => vadd F (idxs i !!! r) (fe !!! r)) F)
        F
    else F in
  fold_left
    (fun F load =>
       match l_type load with
       | POINT =>
           let idx := findClosestNodeIndex fnodes (l_position load) in
           vadd F (idx * 2) (- (l_magnitude load * Num.k1000))
       | MOMENT =>
           let idx := findClosestNodeIndex fnodes (l_position load) in
           vadd F (idx * 2 + 1) (l_magnitude load * Num.k1000)
       | _ => F
       end)
    currentLoads F.

(** ** Internal force recovery: [getInternalAt], lines 224-270 *)

Inductive side := left_side | right_side.

(** Returns [(shear, moment)]. *)
Definition getInternalAt (dispVector : vec) (xTarget : Qc) (currentLoads : list Load)
    (sd : side) : Qc * Qc :=
  let nodeIdx := Z.of_nat (findClosestNodeIndex fnodes xTarget) in
  let elemIdx := match sd with left_side => (nodeIdx - 1)%Z | right_side => nodeIdx end in
  let elemIdx := if (elemIdx <? 0)%Z then 0%Z else elemIdx in
  let elemIdx :=
    if (elemIdx >=? Z.of_nat numNodes - 1)%Z then (Z.of_nat numNodes - 2)%Z else elemIdx in
  let e := Z.to_nat elemIdx in
  let x1 := fnodes !!! e in
  let x2 := fnodes !!! (e + 1)%nat in
  let Le := x2 - x1 in
  if Num.leb Le (c 0) then (c 0, c 0)
  else
    let ke := elementStiffness EI Le in
    let fe := [c 0; c 0; c 0; c 0] in
    let fe := fold_left (fun fe load => distributed_fe_internal x1 x2 load fe)
                currentLoads fe in
    let releaseStart := has hs e in
    let releaseEnd := has hs (e + 1) in
    let '(ke, fe) :=
      if releaseStart || releaseEnd
      then applyMomentRelease ke fe releaseStart releaseEnd
      else (ke, fe) in
    let u_e := [dispVector !!! (e * 2)%nat; dispVector !!! (e * 2 + 1)%nat;
                dispVector !!! ((e + 1) * 2)%nat; dispVector !!! ((e + 1) * 2 + 1)%nat] in
    let f :=
      for_range 0 4
        (fun r f => for_range 0 4 (fun cc f => vadd f r (mget ke r cc * (u_e !!! cc))) f)
        fe in
    if (nodeIdx =? elemIdx)%Z
    then ((f !!! 0%nat) / Num.k1000, - (f !!! 1%nat) / Num.k1000)
    else (- (f !!! 2%nat) / Num.k1000, (f !!! 3%nat) / Num.k1000).

End Analysis.

(** ** The entry point: [analyzeBeam], lines 90-326 *)

(** [Math.max(...a)] and [Math.min(...a)].  Every array they are applied
    to has one entry per node, and there are at least two nodes; the
    empty case (the infinities of the source) does not arise. *)
Definition arr_max (a : vec) : Qc :=
  match a with [] => c 0 | x :: t => fold_left Num.max t x end.
Definition arr_min (a : vec) : Qc :=
  match a with [] => c 0 | x :: t => fold_left Num.min t x end.

(** [U.filter((_, i) => i % 2 === 0)] *)
Definition even_entries (U : vec) : vec :=
  snd <$> List.filter (fun p => Nat.even (fst p)) (zip (seq 0 (length U)) U).

(** [reactionCount], line 293. *)
Definition reactionCount (supports : list Support) : Z :=
  fold_left
    (fun acc s =>
       acc + match s_type s with FIXED => 2 | HINGE => 0 | _ => 1 end)%Z
    supports 0%Z.

Definition non_hinge (s : Support) : bool :=
  match s_type s with HINGE => false | _ => true end.

(** [`R${idx + 1}`] *)
Definition label (idx : nat) : string := "R" +:+ pretty (idx + 1)%nat.

(** Line 278. *)
Definition snap (m : Qc) : Qc := if Num.ltb (Qcabs m) Num.eps7 then c 0 else m.

(** The state of the influence-line sweep. *)
Record ild_state := mkIld {
  st_reactions : gmap string (list ILDPoint);
  st_shear : list ILDPoint;
  st_moment : list ILDPoint }.

(** [a[k].push(v)] for an array stored under an existing key. *)
Definition push_at (k : string) (v : ILDPoint) (m : gmap string (list ILDPoint))
  : gmap string (list ILDPoint) :=
  alter (fun a => a ++ [v]) k m.

(** Line 291: an empty series under the id of every non-HINGE support.
    The object [ildReactions] is modelled by what [ildReactions[id]] reads
    after the assignments, a finite map from ids to series.  Under the id
    [__proto__] the assignment sets the prototype of the object, which the
    same expression reads back, so the map agrees with the object on the
    id of every support; [own_keys] gives the keys the object then has. *)
Definition ild_init_step (m : gmap string (list ILDPoint)) (s : Support)
  : gmap string (list ILDPoint) :=
  if non_hinge s then <[s_id s := []]> m else m.

Definition ild_init (supports : list Support) : gmap string (list ILDPoint) :=
  fold_left ild_init_step supports ∅.

(** [reactions], lines 281-286. *)
Definition reactions_of (penalty : Qc) (fnodes U : vec) (supports : list Support)
  : list Reaction :=
  imap
    (fun idx s =>
       let nIdx := findClosestNodeIndex fnodes (s_position s) in
       let f := (penalty * (U !!! (nIdx * 2)%nat)) / - Num.k1000 in
       let m := match s_type s with
                | FIXED => (penalty * (U !!! (nIdx * 2 + 1)%nat)) / Num.k1000
                | _ => c 0
                end in
       mkReaction (s_position s) f m (label idx) (s_id s))
    (List.filter non_hinge supports).

Section InfluenceLines.

Variables (L EI probeX : Qc) (fnodes : vec) (hs : list nat).
Variables (penalty : Qc) (solver : LUSolver) (supports : list Support).

(** [x], [unitLoad] and [U_ild] of station [i]: lines 300-303. *)
Definition station (i : nat) : Qc := (c (Z.of_nat i) / c 30) * L.

Definition unitLoad (x : Qc) : list Load :=
  [mkLoad "unit" POINT (c 1) None x None]%list.

Definition U_ild (i : nat) : vec :=
  LUSolver_solve solver (buildLoadVector EI fnodes hs (unitLoad (station i))).

(** The point pushed for support [s] at a station: lines 307-308. *)
Definition reaction_point (x : Qc) (U : vec) (s : Support) : ILDPoint :=
  let nIdx := findClosestNodeIndex fnodes (s_position s) in
  mkILD x ((penalty * (U !!! (nIdx * 2)%nat)) / - Num.k1000).

(** [int_ild] of a station: lines 311-312. *)
Definition probe_internal (x : Qc) (U : vec) : Qc * Qc :=
  let sd := if Num.leb x probeX then right_side else left_side in
  getInternalAt EI fnodes hs U probeX (unitLoad x) sd.

(** The [forEach] of lines 305-309. *)
Definition push_reactions (x : Qc) (U : vec) (m : gmap string (list ILDPoint))
  : gmap string (list ILDPoint) :=
  fold_left
    (fun m s => if non_hinge s then push_at (s_id s) (reaction_point x U s) m else m)
    supports m.

(** The body of the sweep: lines 300-314. *)
Definition ild_step (i : nat) (st : ild_state) : ild_state :=
  let x := station i in
  let U := U_ild i in
  let rs := push_reactions x U (st_reactions st) in
  let int_ild := probe_internal x U in
  mkIld rs (st_shear st ++ [mkILD x (fst int_ild)])
        (st_moment st ++ [mkILD x (snd int_ild)]).

End InfluenceLines.

(** Everything after the geometry guard: lines 101-325. *)
Definition analyze (L EI probeX : Qc) (supports : list Support) (loads : list Load)
  : AnalysisResults :=
  let fnodes := finalNodes L probeX supports loads in
  let numNodes := length fnodes in
  let hs := hingeNodes fnodes supports in
  let penalty := Num.e18 * EI in
  let K := apply_supports penalty fnodes supports (assemble EI fnodes hs) in
  let solver := LUSolver_new K in
  let F_main := buildLoadVector EI fnodes hs loads in
  let U := LUSolver_solve solver F_main in
  let internals :=
    (fun i => getInternalAt EI fnodes hs U (fnodes !!! i) loads left_side)
      <$> seq 0 numNodes in
  let shear := fst <$> internals in
  let moment := (fun p => snap (snd p)) <$> internals in
  let deflection := (fun v => v * Num.k1000) <$> even_entries U in
  let reactions := reactions_of penalty fnodes U supports in
  let rc := reactionCount supports in
  let hingesCount := Z.of_nat (length hs) in
  let stable := (rc >=? 3)%Z in
  let ild :=
    if stable then
      for_range 0 31 (ild_step L EI probeX fnodes hs penalty solver supports)
        (mkIld (ild_init supports) [] [])
    else mkIld (ild_init supports) [] [] in
  mkResults fnodes shear moment deflection reactions
    (arr_max shear) (arr_min shear) (arr_max moment) (arr_min moment)
    (arr_max deflection) (arr_min deflection)
    (rc - 3 - hingesCount)%Z stable
    (st_reactions ild) (st_shear ild) (st_moment ild).

Definition flexural_rigidity (config : BeamConfig) : Qc :=
  let E := cfg_elasticModulus config * Num.e6 in
  let I := cfg_momentOfInertia config * Num.eps12 in
  E * I.

Definition invalid_geometry (config : BeamConfig) : bool :=
  Num.leb (cfg_length config) (c 0) || Num.leb (flexural_rigidity config) (c 0).

Definition analyzeBeam (config : BeamConfig) (supports : list Support) (loads : list Load)
    (probeX : Qc) : outcome :=
  let L := cfg_length config in
  let EI := flexural_rigidity config in
  if invalid_geometry config then Throw "Invalid beam geometry"
  else Return (analyze L EI probeX supports loads).

(** ** Named parts of [analyze]

    The intermediate values of one call, as functions of its inputs; each
    is the term bound by the [let] of the same role in [analyze]. *)

Section Parts.
Variables (L EI probeX : Qc) (supports : list Support) (loads : list Load).

Let fnodes := finalNodes L probeX supports loads.
Let hs := hingeNodes fnodes supports.

(** [K] after the penalty augmentation. *)
Definition stiffness : matrix :=
  apply_supports (Num.e18 * EI) fnodes supports (assemble EI fnodes hs).

(** [solver] *)
Definition factorization : LUSolver := LUSolver_new stiffness.

(** [U] *)
Definition displacements : vec :=
  LUSolver_solve factorization (buildLoadVector EI fnodes hs loads).

(** [getInternalAt(U, finalNodes[i], loads)] *)
Definition recovered (i : nat) : Qc * Qc :=
  getInternalAt EI fnodes hs displacements (fnodes !!! i) loads left_side.
End Parts.

(** Every per-node array has one entry per node. *)
Definition complete (r : AnalysisResults) : Prop :=
  length (shearForce r) = length (nodes r)
  /\ length (bendingMoment r) = length (nodes r)
  /\ length (deflection r) = length (nodes r).

(** Static condensation of the released DOF [r] as the specification
    words it: every value on the right-hand side is read from the [ke] and
    [fe] held at the start of the step. *)
Definition condense_spec (r : nat) (st : matrix * vec) : matrix * vec :=
  let '(ke, fe) := st in
  let krr := mget ke r r in
  if Num.ltb (Qcabs krr) Num.eps12 then st
  else
    ((fun i => (fun j => mget ke i j - (mget ke i r * mget ke r j) / krr) <$> seq 0 4)
       <$> seq 0 4,
     (fun i => fe !!! i - (mget ke i r / krr) * (fe !!! r)) <$> seq 0 4).

Definition applyMomentRelease_spec (ke : matrix) (fe : vec) (releaseStart releaseEnd : bool)
  : matrix * vec :=
  let releases := (if releaseStart then [1%nat] else []) ++ (if releaseEnd then [3%nat] else []) in
  fold_left (fun st r => condense_spec r st) releases (ke, fe).

(** ** Counting supports *)

(** The non-HINGE supports that carry the id [k]. *)
Definition with_id (k : string) (supports : list Support) : list Support :=
  List.filter (fun s => non_hinge s && bool_decide (s_id s = k)) supports.


(** The number of supports of type [t]. *)
Definition count_type (t : SupportType) (supports : list Support) : nat :=
  length (List.filter (fun s => bool_decide (s_type s = t)) supports).

(** ** Concrete inputs

    A beam of length [0.1] (one mesh interval wide) with the default
    section of the application. *)

Module Examples.
Definition section_ok : BeamConfig := mkConfig Num.tenth (c 200000) (c 500000000).
Definition section_flat : BeamConfig := mkConfig (c 0) (c 200000) (c 500000000).
Definition pinned_roller : list Support :=
  [mkSupport "1" PINNED (c 0); mkSupport "2" ROLLER Num.tenth].
Definition fixed_roller : list Support :=
  [mkSupport "1" FIXED (c 0); mkSupport "2" ROLLER Num.tenth].
Definition udl : list Load :=
  [mkLoad "l1" UDL (c 10) None (c 0) (Some Num.tenth)]%list.
Definition two_hinges : list Support :=
  [mkSupport "1" FIXED (c 0); mkSupport "h1" HINGE (Num.qfrac 1 20);
   mkSupport "h2" HINGE (Num.qfrac 1 20); mkSupport "2" ROLLER Num.tenth].
Definition mid : Qc := Num.qfrac 1 20.
Definition unit_element : matrix := elementStiffness (c 1) (c 1).
(** A regular system and a singular one. *)
Definition K2 : matrix := [[c 2; c 1]; [c 4; c 3]].
Definition b2 : vec := [c 1; c 2].
Definition Z2 : matrix := [[c 0; c 0]; [c 0; c 0]].
(** [ke] after [applyMomentRelease(ke, [0,0,0,0], true, false)] *)
Definition released_in_place : matrix :=
  fst (applyMomentRelease unit_element (zeros 4) true false).
(** The same release with the condensation of the specification. *)
Definition released_spec : matrix :=
  fst (applyMomentRelease_spec unit_element (zeros 4) true false).
Definition result_udl : AnalysisResults :=
  analyze Num.tenth (flexural_rigidity section_ok) mid pinned_roller udl.
Definition result_propped : AnalysisResults :=
  analyze Num.tenth (flexural_rigidity section_ok) mid fixed_roller udl.
(** Two clamped ends that carry the same id. *)
Definition twin_ids : list Support :=
  [mkSupport "a" FIXED (c 0); mkSupport "a" FIXED Num.tenth].
(** A beam of length [0.2] clamped at both ends, without and with an
    internal hinge at mid-span, under a point load of 10 kN at [0.15]. *)
Definition section_long : BeamConfig := mkConfig (Num.qfrac 1 5) (c 200000) (c 500000000).
Definition clamped : list Support :=
  [mkSupport "1" FIXED (c 0); mkSupport "2" FIXED (Num.qfrac 1 5)].
Definition clamped_hinged : list Support :=
  [mkSupport "1" FIXED (c 0); mkSupport "h" HINGE Num.tenth;
   mkSupport "2" FIXED (Num.qfrac 1 5)].
Definition point_load : list Load :=
  [mkLoad "p" POINT (c 10) None (Num.qfrac 3 20) None]%list.
(** The beam the application starts with: [INITIAL_CONFIG],
    [INITIAL_SUPPORTS], [INITIAL_LOADS] and the point of interest [5] of
    [App.tsx], lines 13-32. *)
Definition INITIAL_CONFIG : BeamConfig := mkConfig (c 10) (c 200000) (c 500000000).
Definition INITIAL_SUPPORTS : list Support :=
  [mkSupport "1" PINNED (c 0); mkSupport "2" ROLLER (c 10)].
Definition INITIAL_LOADS : list Load :=
  [mkLoad "l1" UDL (c 10) None (c 0) (Some (c 10))]%list.
Definition initial_poi : Qc := c 5.
End Examples.

(** The sum of the vertical reactions of a result. *)
Definition total_reaction (r : AnalysisResults) : Qc :=
  fold_left Qcplus (rx_force <$> reactions r) (c 0).

(** ** Reference formulas of the specification *)

(** The shape matrix of the Euler-Bernoulli element, DOF order
    [[v1, theta1, v2, theta2]]; the element stiffness is [EI/Le^3] times it. *)
Definition beam_shape (Le : Qc) : matrix :=
  [ [c 12; c 6 * Le; - c 12; c 6 * Le];
    [c 6 * Le; c 4 * (Le * Le); - c 6 * Le; c 2 * (Le * Le)];
    [- c 12; - c 6 * Le; c 12; - c 6 * Le];
    [c 6 * Le; c 2 * (Le * Le); - c 6 * Le; c 4 * (Le * Le)] ].

Definition mscale (k : Qc) (m : matrix) : matrix :=
  (fun row : vec => Qcmult k <$> row) <$> m.

Definition symmetric (m : matrix) : Prop := forall i j, mget m i j = mget m j i.

(** The entries of a matrix as plain fractions, for display. *)
Definition to_Q (m : matrix) : list (list Q) := (fun row : vec => this <$> row) <$> m.

(** ** Invariants of the solver *)

(** The entry [(r, cc)] of the rows below the pivot row [i] after the
    elimination of column [i]. *)
Definition eliminated (LU : matrix) (i r cc : nat) : Qc :=
  let l := mget LU r i / mget LU i i in
  if decide (cc = i) then l
  else if decide (i < cc)%nat then mget LU r cc - l * mget LU i cc
  else mget LU r cc.

(** The entry [(r, cc)] of the product [L U] read off the buffer [M],
    of which the first [m] columns of row [r] hold multipliers. *)
Definition lu_entry (M : matrix) (m r cc : nat) : Qc :=
  sum_range 0 (Nat.min m cc) (fun t => mget M r t * mget M t cc)
  + (if decide (cc < m)%nat then mget M r cc * mget M cc cc else mget M r cc).

(** After [k] iterations: the rows of [A], permuted by [p], are the
    product of the multipliers and the reduced rows stored in [LU]. *)
Definition lu_inv (n : nat) (A : matrix) (k : nat) (st : matrix * list nat) : Prop :=
  square n st.1
  /\ length st.2 = n
  /\ (forall r, (r < n)%nat -> (st.2 !!! r < n)%nat)
  /\ (forall q, (q < n)%nat -> exists r, (r < n)%nat /\ st.2 !!! r = q)
  /\ (forall r cc, (r < n)%nat -> (cc < n)%nat ->
        mget A (st.2 !!! r) cc = lu_entry st.1 (Nat.min k r) r cc).

(** The value stored in [x[i]] by iteration [i] of the back substitution. *)
Definition back_value (s : LUSolver) (y x : vec) (i : nat) : Qc :=
  if Num.ltb (Qcabs (mget (lu_LU s) i i)) Num.eps22 then c 0
  else (y !!! i - sum_range (i + 1) (lu_n s) (fun j => mget (lu_LU s) i j * x !!! j))
       / mget (lu_LU s) i i.

(** The upper factor, zero below the diagonal. *)
Definition upper (M : matrix) (t cc : nat) : Qc :=
  if decide (t <= cc)%nat then mget M t cc else 0.

(** ** Predicates on the mesh *)

(** Adjacent entries of a list are related by [R]. *)
Fixpoint chain (R : Qc -> Qc -> Prop) (l : vec) : Prop :=
  match l with
  | x :: tl => match tl with y :: _ => R x y /\ chain R tl | [] => True end
  | [] => True
  end.

(** One mesh step: strictly forward, by at most [mi]. *)
Definition step_ok (mi x y : Qc) : Prop := x < y /\ y - x <= mi.

(** The [j]-th breakpoint of the interval [[a, b]] cut in [N] parts. *)
Definition point (a b : Qc) (N : Z) (j : nat) : Qc :=
  a + (c (Z.of_nat j) * (b - a)) / c N.

(** The nodes pushed by the loop of lines 112-117, pair by pair. *)
Fixpoint segments (L : Qc) (xs : vec) : vec :=
  match xs with
  | a :: tl => match tl with b :: _ => subdivide L a b [] ++ segments L tl | [] => [] end
  | [] => []
  end.

(** The positions the mesh must contain. *)
Definition critical (L probeX : Qc) (supports : list Support) (loads : list Load) (x : Qc)
  : Prop :=
  x = c 0 \/ x = L \/ x = probeX
  \/ (exists s, s ∈ supports /\ x = s_position s)
  \/ (exists l, l ∈ loads /\
        (x = l_position l
         \/ (is_distributed (l_type l) = true /\ l_endPosition l = Some x))).

(** ** The call on a store of objects

    A second reading of [analyzeBeam], at the granularity of the
    JavaScript objects it touches.  The caller's store holds the [config]
    object, the [supports] and [loads] arrays and their elements; the call
    receives references.  Every array, set, matrix or object the source
    creates ([new Set], [Array.from], array literals, [new Float64Array],
    the values returned by [buildLoadVector] and [solve], [new LUSolver])
    is a [new] object; every in-place change of an object that lives
    across statements of [analyzeBeam] ([add], [sort], [push], indexed
    assignment) is an [update] of that object.  The contents are computed
    by the functions of the first reading. *)

Module Store.

Inductive obj :=
| OConfig (cfg : BeamConfig)
| OSupport (s : Support)
| OLoad (l : Load)
| ORefs (rs : list nat)
| ONums (v : vec)
| ONats (v : list nat)
| OMatrix (m : matrix)
| OSolver (s : LUSolver)
| OReactions (rs : list Reaction)
| OSeries (ps : list ILDPoint)
| OSeriesMap (m : gmap string (list ILDPoint)).

Abbreviation store := (list obj).
Abbreviation ref := nat.

(** Store-passing computations. *)
Definition M (A : Type) : Type := store -> store * A.

Global Instance M_ret : MRet M := fun A a h => (h, a).
Global Instance M_bind : MBind M := fun A B k m h => let '(h', a) := m h in k a h'.

(** Allocation, in-place change, read. *)
Definition new (o : obj) : M ref := fun h => (h ++ [o], length h).
Definition update (r : ref) (f : obj -> obj) : M unit := fun h => (alter f r h, tt).
Definition load (r : ref) : M (option obj) := fun h => (h, h !! r).

(** [for (let i = lo; i < hi; i++) body] *)
Definition for_m (lo hi : nat) (body : nat -> M unit) : M unit :=
  fun h => (for_range lo hi (fun i h => fst (body i h)) h, tt).

Definition on_nums (f : vec -> vec) (o : obj) : obj :=
  match o with ONums v => ONums (f v) | _ => o end.
Definition on_nats (f : list nat -> list nat) (o : obj) : obj :=
  match o with ONats v => ONats (f v) | _ => o end.
Definition on_matrix (f : matrix -> matrix) (o : obj) : obj :=
  match o with OMatrix m => OMatrix (f m) | _ => o end.
Definition on_series (f : list ILDPoint -> list ILDPoint) (o : obj) : obj :=
  match o with OSeries ps => OSeries (f ps) | _ => o end.
Definition on_series_map
    (f : gmap string (list ILDPoint) -> gmap string (list ILDPoint)) (o : obj) : obj :=
  match o with OSeriesMap m => OSeriesMap (f m) | _ => o end.

Definition nums (h : store) (r : ref) : vec :=
  match h !! r with Some (ONums v) => v | _ => [] end.
Definition nats (h : store) (r : ref) : list nat :=
  match h !! r with Some (ONats v) => v | _ => [] end.
Definition mat (h : store) (r : ref) : matrix :=
  match h !! r with Some (OMatrix m) => m | _ => [] end.
Definition solver_at (h : store) (r : ref) : LUSolver :=
  match h !! r with Some (OSolver s) => s | _ => mkLU 0 [] [] end.
Definition config_at (h : store) (r : ref) : BeamConfig :=
  match h !! r with Some (OConfig cfg) => cfg | _ => mkConfig (c 0) (c 0) (c 0) end.
Definition supports_at (h : store) (r : ref) : list Support :=
  match h !! r with
  | Some (ORefs rs) =>
      omap (fun r' => match h !! r' with Some (OSupport s) => Some s | _ => None end) rs
  | _ => []
  end.
Definition loads_at (h : store) (r : ref) : list Load :=
  match h !! r with
  | Some (ORefs rs) =>
      omap (fun r' => match h !! r' with Some (OLoad l) => Some l | _ => None end) rs
  | _ => []
  end.
Definition reactions_at (h : store) (r : ref) : list Reaction :=
  match h !! r with Some (OReactions rs) => rs | _ => [] end.
Definition series_at (h : store) (r : ref) : list ILDPoint :=
  match h !! r with Some (OSeries ps) => ps | _ => [] end.
Definition series_map_at (h : store) (r : ref) : gmap string (list ILDPoint) :=
  match h !! r with Some (OSeriesMap m) => m | _ => ∅ end.

(** Reads of the current contents of an object. *)
Definition read {A} (get : store -> ref -> A) (r : ref) : M A := fun h => (h, get h r).

(** The returned object: references to its arrays, and its scalars. *)
Record result_refs := mkRefs {
  ref_nodes : ref;
  ref_shearForce : ref;
  ref_bendingMoment : ref;
  ref_deflection : ref;
  ref_reactions : ref;
  ref_ildReactions : ref;
  ref_ildShearAtProbe : ref;
  ref_ildMomentAtProbe : ref;
  val_maxShear : Qc;
  val_minShear : Qc;
  val_maxMoment : Qc;
  val_minMoment : Qc;
  val_maxDeflection : Qc;
  val_minDeflection : Qc;
  val_determinacy : Z;
  val_isStable : bool }.

Inductive outcome_st :=
| ThrowSt (msg : string)
| ReturnSt (res : result_refs).

(** Everything after the geometry guard: lines 101-325. *)
Definition analyze (L EI probeX : Qc) (sups : list Support) (lds : list Load)
  : M result_refs :=
  (* lines 101-106 *)
  criticalX ← new (ONums (fold_left set_add [c 0; L; probeX] []));
  update criticalX (on_nums (fun s => fold_left add_support_position sups s));;
  update criticalX (on_nums (fun s => fold_left add_load_positions lds s));;
  (* line 108 *)
  cx ← read nums criticalX;
  sortedX ← new (ONums cx);
  update sortedX (on_nums sort_asc);;
  sx ← read nums sortedX;
  (* lines 109-118 *)
  finalNodes ← new (ONums []);
  update finalNodes (on_nums (mesh_loop L sx));;
  update finalNodes (on_nums (fun acc => acc ++ [L]));;
  fnodes ← read nums finalNodes;
  let numNodes := length fnodes in
  let totalDof := (numNodes * 2)%nat in
  (* lines 123-128 *)
  hingeNodes ← new (ONats []);
  update hingeNodes (on_nats (fun hs => fold_left (hinge_step fnodes) sups hs));;
  hs ← read nats hingeNodes;
  (* lines 130-158 *)
  K ← new (OMatrix (zero_matrix totalDof));
  update K (on_matrix (for_range 0 (numNodes - 1) (assemble_element EI fnodes hs)));;
  let penalty := Num.e18 * EI in
  update K (on_matrix (apply_supports penalty fnodes sups));;
  (* lines 160-161: a copy of [K]; the constructor factorizes a copy of that *)
  k ← read mat K;
  matrixForLU ← new (OMatrix k);
  m ← read mat matrixForLU;
  solver ← new (OSolver (LUSolver_new m));
  slv ← read solver_at solver;
  (* lines 221-222 *)
  F_main ← new (ONums (buildLoadVector EI fnodes hs lds));
  f ← read nums F_main;
  U ← new (ONums (LUSolver_solve slv f));
  u ← read nums U;
  (* lines 272-279 *)
  shear ← new (ONums (zeros numNodes));
  moment ← new (ONums (zeros numNodes));
  deflection ← new (ONums ((fun v => v * Num.k1000) <$> even_entries u));
  for_m 0 numNodes
    (fun i =>
       let int := getInternalAt EI fnodes hs u (fnodes !!! i) lds left_side in
       update shear (on_nums (<[i := fst int]>));;
       update moment (on_nums (<[i := snap (snd int)]>)));;
  (* lines 281-291 *)
  reactions ← new (OReactions (reactions_of penalty fnodes u sups));
  ildReactions ← new (OSeriesMap ∅);
  ildShearAtProbe ← new (OSeries []);
  ildMomentAtProbe ← new (OSeries []);
  update ildReactions (on_series_map (fun m => fold_left ild_init_step sups m));;
  (* lines 293-316 *)
  let reactionCount := reactionCount sups in
  let hingesCount := Z.of_nat (length hs) in
  let stable := (reactionCount >=? 3)%Z in
  (if stable then
     for_m 0 31
       (fun i =>
          let x := station L i in
          F_ild ← new (ONums (buildLoadVector EI fnodes hs (unitLoad x)));
          fi ← read nums F_ild;
          U_ild ← new (ONums (LUSolver_solve slv fi));
          ui ← read nums U_ild;
          update ildReactions (on_series_map (push_reactions fnodes penalty sups x ui));;
          let int_ild := probe_internal EI probeX fnodes hs x ui in
          update ildShearAtProbe (on_series (fun a => a ++ [mkILD x (fst int_ild)]));;
          update ildMomentAtProbe (on_series (fun a => a ++ [mkILD x (snd int_ild)])))
   else mret tt);;
  (* lines 318-325 *)
  sh ← read nums shear;
  mo ← read nums moment;
  de ← read nums deflection;
  mret (mkRefs finalNodes shear moment deflection reactions
          ildReactions ildShearAtProbe ildMomentAtProbe
          (arr_max sh) (arr_min sh) (arr_max mo) (arr_min mo)
          (arr_max de) (arr_min de)
          (reactionCount - 3 - hingesCount)%Z stable).


Definition analyzeBeam (config supports loads : ref) (probeX : Qc) : M outcome_st :=
  cfg ← read config_at config;
  let L := cfg_length cfg in
  let EI := flexural_rigidity cfg in
  if invalid_geometry cfg then mret (ThrowSt "Invalid beam geometry")
  else
    sups ← read supports_at supports;
    lds ← read loads_at loads;
    res ← analyze L EI probeX sups lds;
    mret (ReturnSt res).

(** The references held by a result. *)
Definition refs_of (res : result_refs) : list ref :=
  [ref_nodes res; ref_shearForce res; ref_bendingMoment res; ref_deflection res;
   ref_reactions res; ref_ildReactions res; ref_ildShearAtProbe res;
   ref_ildMomentAtProbe res].

(** The result object read back from the store. *)
Definition read_back (h : store) (res : result_refs) : AnalysisResults :=
  mkResults (nums h (ref_nodes res)) (nums h (ref_shearForce res))
    (nums h (ref_bendingMoment res)) (nums h (ref_deflection res))
    (reactions_at h (ref_reactions res))
    (val_maxShear res) (val_minShear res) (val_maxMoment res) (val_minMoment res)
    (val_maxDeflection res) (val_minDeflection res)
    (val_determinacy res) (val_isStable res)
    (series_map_at h (ref_ildReactions res))
    (series_at h (ref_ildShearAtProbe res)) (series_at h (ref_ildMomentAtProbe res)).

(** The arguments are objects of the store [h]: the three references, and
    the elements of the two arrays. *)
Definition refs_at (h : store) (r : ref) : list ref :=
  match h !! r with Some (ORefs rs) => rs | _ => [] end.
Definition args_in (h : store) (config supports loads : ref) : Prop :=
  Forall (fun r => (r < length h)%nat)
    (config :: supports :: loads :: refs_at h supports ++ refs_at h loads).

(** The arguments of a call, laid out in a store. *)
Definition layout (config : BeamConfig) (supports : list Support) (loads : list Load)
  : store :=
  [OConfig config]
  ++ (OSupport <$> supports) ++ [ORefs (seq 1 (length supports))]
  ++ (OLoad <$> loads)
  ++ [ORefs (seq (2 + length supports) (length loads))].

(** [wp h0 l p Q]: run on the caller's store [h0] extended with the
    objects [l] of the call, [p] leaves [h0] as it is, turns [l] into some
    [l'] and returns some [a] with [Q a l']. *)
Definition wp {A} (h0 : store) (l : list obj) (p : M A) (Q : A -> list obj -> Prop) : Prop :=
  exists l', (p (h0 ++ l)).1 = h0 ++ l' /\ Q (p (h0 ++ l)).2 l'.

End Store.

(** ** Inputs within the span *)

(** The probe, every support and every load lie on the beam. *)
Definition in_span (L probeX : Qc) (supports : list Support) (loads : list Load) : Prop :=
  c 0 <= probeX <= L
  /\ (forall s, s ∈ supports -> c 0 <= s_position s <= L)
  /\ (forall l, l ∈ loads -> c 0 <= l_position l <= L)
  /\ (forall l e, l ∈ loads -> l_endPosition l = Some e -> c 0 <= e <= L).

(** ** Combinations of vectors *)

(** [a * u + v], entry by entry. *)
Definition axpy (a : Qc) (u v : vec) : vec := zip_with (fun x y => a * x + y) u v.

(** Three runs of a moment release, on force vectors [u], [v] and
    [k * u + v]: the same stiffness, and the third force vector the same
    combination of the other two. *)
Definition release_rel (k : Qc) (st1 st2 st3 : matrix * vec) : Prop :=
  st1.1 = st3.1 /\ st2.1 = st3.1
  /\ length st1.2 = length st2.2 /\ st3.2 = axpy k st1.2 st2.2.

(** ** Scaled loads *)

(** [k * v], entry by entry. *)
Definition vscale (k : Qc) (v : vec) : vec := Qcmult k <$> v.

(** The load with its intensity multiplied by [k]. *)
Definition scale_load (k : Qc) (l : Load) : Load :=
  mkLoad (l_id l) (l_type l) (k * l_magnitude l) (Qcmult k <$> l_endMagnitude l)
    (l_position l) (l_endPosition l).

(** ** Totals *)

(** The sum of the entries of an array. *)
Definition qsum (l : vec) : Qc := fold_left Qcplus l (c 0).

(** The sum of the deflection entries [F[0], F[2], ...] of a load vector. *)
Definition vertical (F : vec) : Qc := qsum (even_entries F).

(** The sum of the magnitudes of the POINT loads. *)
Definition point_total (loads : list Load) : Qc :=
  qsum ((fun l => match l_type l with POINT => l_magnitude l | _ => c 0 end) <$> loads).

(** The ordinate at station [i] of the reaction influence line stored
    under the id [k]; [0] where there is none. *)
Definition ordinate (r : AnalysisResults) (k : string) (i : nat) : Qc :=
  match ildReactions r !! k with
  | Some ps => match ps !! i with Some p => ild_value p | None => c 0 end
  | None => c 0
  end.

(** ** Restraint against rigid-body motion

    A beam without hinges can move as a rigid body unless a FIXED support
    clamps it or two supports hold it at different nodes.  The stiffness
    matrix of a beam that can move is singular: in exact numbers a pivot
    is [0] and a guard of the solver fires, while in the double arithmetic
    of the program that pivot is rounding noise that may pass the guards.
    The statements on equilibrium therefore name the restraint. *)
Definition restrained (fnodes : vec) (supports : list Support) : bool :=
  let held := List.filter non_hinge supports in
  let at_node s := findClosestNodeIndex fnodes (s_position s) in
  existsb (fun s => bool_decide (s_type s = FIXED)) supports
  || existsb (fun s => existsb (fun t => negb (at_node s =? at_node t)%nat) held) held.

(** ** The keys of [ildReactions]

    What [Object.keys] finds in the object: the keys of the map but for
    [__proto__], since the assignment of line 291 under that id sets the
    prototype of the object and adds no key. *)
Definition own_keys (m : gmap string (list ILDPoint)) : gset string :=
  dom m ∖ {["__proto__"]}.

(** ** What a release step leaves in [ke]

    The entry [(i, j)] after the in-place loop of lines 72-77 for the
    released DOF [r], in terms of the entries at the start of the step:
    rows above [r] are condensed up to column [r] only, row [r] is cleared
    up to the diagonal only, rows below [r] are condensed beyond column
    [r] only. *)
Definition released_entry (ke : matrix) (r i j : nat) : Qc :=
  let condensed := mget ke i j - (mget ke i r * mget ke r j) / mget ke r r in
  if decide (i < r)%nat then (if decide (j <= r)%nat then condensed else mget ke i j)
  else if decide (i = r) then (if decide (j <= r)%nat then c 0 else mget ke r j)
  else (if decide (j <= r)%nat then mget ke i j else condensed).

(** * Properties *)

(** ** Numbers *)

Module NumFacts.
Import Num.

Lemma ltb_lt a b : ltb a b = true <-> a < b.
Proof.
  unfold ltb. destruct (Qclt_le_dec a b) as [H|H]; split; try done.
  intros H'. exfalso. revert H'. by apply Qcle_not_lt.
Qed.

Lemma ltb_ge a b : ltb a b = false <-> b <= a.
Proof.
  unfold ltb. destruct (Qclt_le_dec a b) as [H|H]; split; try done.
  intros H'. exfalso. revert H. by apply Qcle_not_lt.
Qed.

Lemma leb_le a b : leb a b = true <-> a <= b.
Proof.
  unfold leb. destruct (Qclt_le_dec b a) as [H|H]; split; try done.
  intros H'. exfalso. revert H. by apply Qcle_not_lt.
Qed.

Lemma leb_gt a b : leb a b = false <-> b < a.
Proof.
  unfold leb. destruct (Qclt_le_dec b a) as [H|H]; split; try done.
  intros H'. exfalso. revert H'. by apply Qcle_not_lt.
Qed.

(** Transfer of [Qc] goals to [Q], where [lra] decides them. *)
Lemma this_plus (a b : Qc) : (this (a + b) == this a + this b)%Q.
Proof. unfold Qcplus. simpl. apply Qred_correct. Qed.
Lemma this_mult (a b : Qc) : (this (a * b) == this a * this b)%Q.
Proof. unfold Qcmult. simpl. apply Qred_correct. Qed.
Lemma this_opp (a : Qc) : (this (- a) == - this a)%Q.
Proof. unfold Qcopp. simpl. apply Qred_correct. Qed.
Lemma this_minus (a b : Qc) : (this (a - b) == this a - this b)%Q.
Proof. unfold Qcminus. rewrite this_plus, this_opp. reflexivity. Qed.
Lemma this_Q2Qc (q : Q) : (this (Q2Qc q) == q)%Q.
Proof. simpl. apply Qred_correct. Qed.
Lemma this_inv (a : Qc) : (this (/ a) == / this a)%Q.
Proof. unfold Qcinv. simpl. apply Qred_correct. Qed.
Lemma this_div (a b : Qc) : (this (a / b) == this a / this b)%Q.
Proof. unfold Qcdiv. rewrite this_mult, this_inv. reflexivity. Qed.
Lemma Qc_eq_this (a b : Qc) : a = b <-> (this a == this b)%Q.
Proof. split; [intros ->; reflexivity | apply Qc_is_canon]. Qed.
Lemma Qinv_pos_lit (n d : positive) : (/ (Z.pos n # d) == Z.pos d # n)%Q.
Proof. reflexivity. Qed.

End NumFacts.

Ltac qc_consts :=
  unfold Num.eps18, Num.eps22, Num.eps12, Num.eps9, Num.eps7, Num.tenth,
    Num.e6, Num.e18, Num.k1000, Num.qfrac, Num.qz in *.

Ltac qc_norm :=
  qc_consts;
  unfold Qclt, Qcle in *;
  repeat match goal with
  | H : @eq Qc _ _ |- _ => apply NumFacts.Qc_eq_this in H
  | H : not (@eq Qc _ _) |- _ => rewrite NumFacts.Qc_eq_this in H
  | |- @eq Qc _ _ => apply Qc_is_canon
  | |- not (@eq Qc _ _) => rewrite NumFacts.Qc_eq_this
  end;
  repeat (rewrite ?NumFacts.this_plus, ?NumFacts.this_minus, ?NumFacts.this_mult,
            ?NumFacts.this_opp, ?NumFacts.this_div, ?NumFacts.this_inv, ?NumFacts.this_Q2Qc in * );
  unfold Qdiv, inject_Z in *; rewrite ?NumFacts.Qinv_pos_lit in *.

Ltac qc_lra := qc_norm; lra.
Ltac qc_nra := qc_norm; nra.


(** ** Loops *)

Section Loops.
Context {S : Type}.
Implicit Types (body : nat -> S -> S) (s : S).

Lemma for_range_nil lo hi body s : (hi <= lo)%nat -> for_range lo hi body s = s.
Proof. intros H. unfold for_range. by replace (hi - lo)%nat with 0%nat by lia. Qed.

Lemma for_range_snoc lo hi body s :
  (lo <= hi)%nat ->
  for_range lo (Datatypes.S hi) body s = body hi (for_range lo hi body s).
Proof.
  intros H. unfold for_range.
  replace (Datatypes.S hi - lo)%nat with (Datatypes.S (hi - lo)) by lia.
  rewrite seq_S, fold_left_app. simpl. by replace (lo + (hi - lo))%nat with hi by lia.
Qed.

Lemma for_range_cons lo hi body s :
  (lo < hi)%nat ->
  for_range lo hi body s = for_range (Datatypes.S lo) hi body (body lo s).
Proof.
  intros H. unfold for_range.
  replace (hi - lo)%nat with (Datatypes.S (hi - Datatypes.S lo)) by lia. done.
Qed.

(** Loop invariants: [P i s] holds of the state before iteration [i]. *)
Lemma for_range_inv (P : nat -> S -> Prop) lo hi body s :
  (lo <= hi)%nat ->
  P lo s ->
  (forall i s, (lo <= i < hi)%nat -> P i s -> P (Datatypes.S i) (body i s)) ->
  P hi (for_range lo hi body s).
Proof.
  intros Hle H0 Hstep. induction hi as [|hi IH].
  - assert (lo = 0%nat) as -> by lia. by rewrite for_range_nil.
  - destruct (decide (lo = Datatypes.S hi)) as [->|Hne].
    + by rewrite for_range_nil.
    + rewrite for_range_snoc by lia. apply Hstep; [lia|].
      apply IH; [lia|]. intros i s' Hi. apply Hstep. lia.
Qed.

Lemma for_range_inv' (P : S -> Prop) lo hi body s :
  P s ->
  (forall i s, (lo <= i < hi)%nat -> P s -> P (body i s)) ->
  P (for_range lo hi body s).
Proof.
  intros H0 Hstep. destruct (decide (lo <= hi)%nat).
  - by apply (for_range_inv (fun _ => P)).
  - by rewrite for_range_nil by lia.
Qed.

Lemma for_down_S hi body s :
  for_down (Datatypes.S hi) body s = for_down hi body (body hi s).
Proof. unfold for_down. rewrite seq_S, rev_app_distr. done. Qed.

Lemma for_down_inv' (P : S -> Prop) hi body s :
  P s ->
  (forall i s, (i < hi)%nat -> P s -> P (body i s)) ->
  P (for_down hi body s).
Proof.
  revert s. induction hi as [|hi IH]; intros s H0 Hstep; [done|].
  rewrite for_down_S. apply IH; [apply Hstep; [lia|done]|].
  intros i s' Hi. apply Hstep. lia.
Qed.
End Loops.

(** ** Shapes of the arrays *)

Lemma length_zeros n : length (zeros n) = n.
Proof. apply length_replicate. Qed.

Lemma length_mset m i j v : length (mset m i j v) = length m.
Proof. unfold mset. by rewrite length_insert. Qed.

Lemma length_vadd v i d : length (vadd v i d) = length v.
Proof. unfold vadd. by rewrite length_insert. Qed.

Lemma length_swap {A} `{Inhabited A} (l : list A) i j : length (swap l i j) = length l.
Proof. unfold swap. by rewrite !length_insert. Qed.

Lemma length_scatter i ke K : length (scatter i ke K) = length K.
Proof.
  unfold scatter. apply (for_range_inv' (fun K' => length K' = length K)); [done|].
  intros r K1 _ H1. apply (for_range_inv' (fun K' => length K' = length K)); [done|].
  intros cc K2 _ H2. by rewrite length_mset.
Qed.

Lemma length_assemble EI fnodes hs :
  length (assemble EI fnodes hs) = (length fnodes * 2)%nat.
Proof.
  unfold assemble.
  apply (for_range_inv' (fun K' => length K' = (length fnodes * 2)%nat)).
  - unfold zero_matrix. by rewrite length_replicate.
  - intros i K _ HK. unfold assemble_element. destruct (Num.leb _ _); [done|].
    by rewrite length_scatter.
Qed.

Lemma length_apply_supports penalty fnodes supports K :
  length (apply_supports penalty fnodes supports K) = length K.
Proof.
  unfold apply_supports. revert K. induction supports as [|s ss IH]; intros K; [done|].
  simpl. rewrite IH. unfold add_diag. destruct (s_type s); by rewrite ?length_mset.
Qed.

Lemma lu_n_new m : lu_n (LUSolver_new m) = length m.
Proof. unfold LUSolver_new. by destruct (for_range _ _ _ _). Qed.

Lemma length_forward s b : length (forward s b) = lu_n s.
Proof.
  unfold forward. apply (for_range_inv' (fun y => length y = lu_n s)).
  - apply length_zeros.
  - intros i y _ Hy. by rewrite length_insert.
Qed.

Lemma length_backward s y : length (backward s y) = lu_n s.
Proof.
  unfold backward. apply (for_down_inv' (fun x => length x = lu_n s)).
  - apply length_zeros.
  - intros i x _ Hx. destruct (Num.ltb _ _); by rewrite length_insert.
Qed.

Lemma length_solve s b : length (LUSolver_solve s b) = lu_n s.
Proof. apply length_backward. Qed.

Lemma fmap_seq_lookup_total {B} `{Inhabited B} (f : nat -> B) n i :
  (i < n)%nat -> (f <$> seq 0 n) !!! i = f i.
Proof.
  intros Hi. rewrite (list_lookup_total_fmap f (seq 0 n) i) by (by rewrite length_seq).
  by rewrite lookup_total_seq_lt.
Qed.

Lemma even_entries_from_length (U : vec) : forall n k,
  length U = (2 * n)%nat -> Nat.even k = true ->
  length (snd <$> List.filter (fun p : nat * Qc => Nat.even (fst p))
                    (zip (seq k (length U)) U)) = n.
Proof.
  revert U. intros U n. revert U.
  induction n as [|n IH]; intros U k HU Hk.
  - by destruct U.
  - destruct U as [|x [|y U]]; simpl in HU; try lia.
    cbn [length seq zip zip_with List.filter fst]. rewrite Hk.
    assert (Nat.even (Datatypes.S k) = false) as ->.
    { rewrite Nat.even_succ. rewrite <- Nat.negb_even. by rewrite Hk. }
    cbn [fmap list_fmap length]. f_equal. apply (IH U (Datatypes.S (Datatypes.S k))); [lia|done].
Qed.

Lemma even_entries_from_lookup : forall n (U : vec) k i,
  length U = (2 * n)%nat -> Nat.even k = true -> (i < n)%nat ->
  (snd <$> List.filter (fun p : nat * Qc => Nat.even (fst p))
             (zip (seq k (length U)) U)) !!! i = U !!! (2 * i)%nat.
Proof.
  induction n as [|n IH]; intros U k i HU Hk Hi; [lia|].
  destruct U as [|x [|y U]]; simpl in HU; try lia.
  cbn [length seq zip zip_with List.filter fst]. rewrite Hk.
  assert (Nat.even (Datatypes.S k) = false) as ->.
  { rewrite Nat.even_succ. rewrite <- Nat.negb_even. by rewrite Hk. }
  cbn [fmap list_fmap snd]. destruct i as [|i]; [done|].
  replace (2 * Datatypes.S i)%nat with (Datatypes.S (Datatypes.S (2 * i))) by lia.
  cbn [lookup_total list_lookup_total].
  apply (IH U (Datatypes.S (Datatypes.S k)) i); [lia|done|lia].
Qed.

Lemma even_entries_lookup (U : vec) n i :
  length U = (2 * n)%nat -> (i < n)%nat -> even_entries U !!! i = U !!! (2 * i)%nat.
Proof. intros HU Hi. by apply (even_entries_from_lookup n). Qed.

Lemma length_even_entries (U : vec) n :
  length U = (2 * n)%nat -> length (even_entries U) = n.
Proof. intros H. by apply even_entries_from_length. Qed.

(** ** Element stiffness *)

(** C4: for every [EI] and every element length [Le <> 0],
    [elementStiffness EI Le] is [EI/Le^3] times the Euler-Bernoulli shape
    matrix in the DOF order [[v1, theta1, v2, theta2]], and it is
    symmetric. *)
Theorem elementStiffness_formula (EI Le : Qc) :
  Le <> c 0 ->
  elementStiffness EI Le = mscale (EI / (Le * Le * Le)) (beam_shape Le)
  /\ symmetric (elementStiffness EI Le).
Proof.
  intros HLe. assert (Le <> 0) as HLe' by (intros ->; by apply HLe).
  split.
  - unfold elementStiffness, mscale, beam_shape. simpl.
    repeat f_equal; field; done.
  - intros i j. unfold elementStiffness, mget.
    do 5 (try destruct i as [|i]); do 5 (try destruct j as [|j]); reflexivity.
Qed.

Lemma elementStiffness_formula_witness :
  c 2 <> c 0
  /\ elementStiffness (c 3) (c 2) = mscale (c 3 / (c 2 * c 2 * c 2)) (beam_shape (c 2))
  /\ symmetric (elementStiffness (c 3) (c 2)).
Proof.
  assert (c 2 <> c 0) as H by (by vm_compute).
  split; [exact H | exact (elementStiffness_formula (c 3) (c 2) H)].
Defined.

(** ** The entry point *)

Lemma analyzeBeam_Return config supports loads probeX :
  invalid_geometry config = false ->
  analyzeBeam config supports loads probeX
  = Return (analyze (cfg_length config) (flexural_rigidity config) probeX supports loads).
Proof. intros H. unfold analyzeBeam. by rewrite H. Qed.

Lemma analyzeBeam_inv config supports loads probeX r :
  analyzeBeam config supports loads probeX = Return r ->
  invalid_geometry config = false
  /\ r = analyze (cfg_length config) (flexural_rigidity config) probeX supports loads.
Proof.
  unfold analyzeBeam. destruct (invalid_geometry config); [done|].
  intros [= <-]. done.
Qed.

Lemma invalid_geometry_spec config :
  invalid_geometry config = true
  <-> cfg_length config <= c 0 \/ flexural_rigidity config <= c 0.
Proof.
  unfold invalid_geometry. rewrite orb_true_iff, !NumFacts.leb_le. done.
Qed.

Lemma length_displacements L EI probeX supports loads :
  length (displacements L EI probeX supports loads)
  = (2 * length (finalNodes L probeX supports loads))%nat.
Proof.
  unfold displacements, factorization, stiffness.
  rewrite length_solve, lu_n_new, length_apply_supports, length_assemble. lia.
Qed.

Section Projections.
Variables (L EI probeX : Qc) (supports : list Support) (loads : list Load).
Let r := analyze L EI probeX supports loads.

Lemma analyze_nodes : nodes r = finalNodes L probeX supports loads.
Proof. reflexivity. Qed.

Lemma analyze_shearForce :
  shearForce r
  = (fun i => fst (recovered L EI probeX supports loads i)) <$> seq 0 (length (nodes r)).
Proof. subst r. unfold analyze. cbn [shearForce nodes]. by rewrite <- list_fmap_compose. Qed.

Lemma analyze_bendingMoment :
  bendingMoment r
  = (fun i => snap (snd (recovered L EI probeX supports loads i)))
      <$> seq 0 (length (nodes r)).
Proof. subst r. unfold analyze. cbn [bendingMoment nodes]. by rewrite <- list_fmap_compose. Qed.

Lemma analyze_deflection :
  deflection r
  = (fun v => v * Num.k1000) <$> even_entries (displacements L EI probeX supports loads).
Proof. reflexivity. Qed.

Lemma analyze_determinacy :
  determinacy r
  = (reactionCount supports - 3
     - Z.of_nat (length (hingeNodes (nodes r) supports)))%Z.
Proof. reflexivity. Qed.

Lemma analyze_isStable : isStable r = (reactionCount supports >=? 3)%Z.
Proof. reflexivity. Qed.
End Projections.

Lemma analyze_complete L EI probeX supports loads :
  complete (analyze L EI probeX supports loads).
Proof.
  unfold complete.
  rewrite analyze_shearForce, analyze_bendingMoment, analyze_deflection.
  rewrite !length_fmap, length_seq. repeat split.
  rewrite analyze_nodes. apply length_even_entries. apply length_displacements.
Qed.

(** C1: [analyzeBeam] throws exactly when [config.length <= 0] or the scaled
    rigidity [EI = (E * 1e6) * (I * 1e-12) <= 0]; the failure carries no
    results.  Otherwise it returns, and the result is complete. *)
Theorem analyzeBeam_geometry_guard config supports loads probeX :
  let L := cfg_length config in
  let EI := (cfg_elasticModulus config * Num.e6) * (cfg_momentOfInertia config * Num.eps12) in
  (L <= c 0 \/ EI <= c 0 ->
   analyzeBeam config supports loads probeX = Throw "Invalid beam geometry")
  /\ (~ (L <= c 0 \/ EI <= c 0) ->
      exists r, analyzeBeam config supports loads probeX = Return r /\ complete r).
Proof.
  intros L EI. split.
  - intros H. apply invalid_geometry_spec in H. unfold analyzeBeam. by rewrite H.
  - intros H. assert (invalid_geometry config = false) as Hg.
    { destruct (invalid_geometry config) eqn:E; [|done].
      apply invalid_geometry_spec in E. done. }
    eexists. split; [by apply analyzeBeam_Return|]. apply analyze_complete.
Qed.

Ltac qc_closed :=
  first [ apply NumFacts.leb_le; vm_compute; reflexivity
        | apply NumFacts.ltb_lt; vm_compute; reflexivity
        | match goal with H : _ |- _ => apply NumFacts.leb_le in H; vm_compute in H; discriminate H end
        | match goal with H : _ |- _ => apply NumFacts.ltb_lt in H; vm_compute in H; discriminate H end ].

Lemma analyzeBeam_geometry_guard_witness :
  analyzeBeam Examples.section_flat Examples.pinned_roller Examples.udl Examples.mid
  = Throw "Invalid beam geometry"
  /\ exists r,
      analyzeBeam Examples.section_ok Examples.pinned_roller Examples.udl Examples.mid
      = Return r /\ complete r.
Proof.
  split.
  - apply (proj1 (analyzeBeam_geometry_guard Examples.section_flat Examples.pinned_roller
                    Examples.udl Examples.mid)).
    left. qc_closed.
  - apply (proj2 (analyzeBeam_geometry_guard Examples.section_ok Examples.pinned_roller
                    Examples.udl Examples.mid)).
    intros [H|H]; qc_closed.
Defined.

(** ** Recovered internal forces *)

(** C10: in every returned result, the bending moment at node [i] is the
    recovered internal moment, reported as exactly [0] when its absolute
    value is strictly below [1e-7] and unchanged otherwise; the shear force
    and the deflection are reported without any such snap. *)
Theorem bendingMoment_snap_to_zero config supports loads probeX r :
  analyzeBeam config supports loads probeX = Return r ->
  let L := cfg_length config in
  let EI := flexural_rigidity config in
  forall i, (i < length (nodes r))%nat ->
    let m := snd (recovered L EI probeX supports loads i) in
    (Qcabs m < Num.eps7 -> bendingMoment r !!! i = c 0)
    /\ (Num.eps7 <= Qcabs m -> bendingMoment r !!! i = m)
    /\ shearForce r !!! i = fst (recovered L EI probeX supports loads i)
    /\ deflection r !!! i
       = (displacements L EI probeX supports loads !!! (2 * i)%nat) * Num.k1000.
Proof.
  intros Hret L EI i Hi m. apply analyzeBeam_inv in Hret as [_ ->].
  rewrite analyze_bendingMoment, analyze_shearForce, analyze_deflection.
  assert (forall (f : nat -> Qc), (f <$> seq 0 (length (nodes
            (analyze (cfg_length config) (flexural_rigidity config) probeX supports loads))))
          !!! i = f i) as Hseq.
  { intros f. by apply fmap_seq_lookup_total. }
  rewrite !Hseq. rewrite analyze_nodes in Hi.
  pose proof (length_displacements L EI probeX supports loads) as HU.
  fold L EI m. repeat split.
  - intros Hm. unfold snap. by apply NumFacts.ltb_lt in Hm as ->.
  - intros Hm. unfold snap. by apply NumFacts.ltb_ge in Hm as ->.
  - rewrite (list_lookup_total_fmap _ (even_entries _) i).
    + f_equal. by eapply even_entries_lookup.
    + by erewrite length_even_entries.
Qed.

Lemma bendingMoment_snap_to_zero_witness :
  analyzeBeam Examples.section_ok Examples.pinned_roller Examples.udl Examples.mid
  = Return Examples.result_udl
  /\ (1 < length (nodes Examples.result_udl))%nat
  /\ bendingMoment Examples.result_udl !!! 1%nat = Num.qfrac 1 60.
Proof.
  assert (analyzeBeam Examples.section_ok Examples.pinned_roller Examples.udl Examples.mid
          = Return Examples.result_udl) as Hret by (apply analyzeBeam_Return; by vm_compute).
  assert (1 < length (nodes Examples.result_udl))%nat as Hi by (vm_compute; lia).
  split; [exact Hret|]. split; [exact Hi|].
  destruct (bendingMoment_snap_to_zero _ _ _ _ _ Hret 1%nat Hi) as (_ & Hge & _).
  rewrite Hge.
  - apply Qc_is_canon. by vm_compute.
  - qc_closed.
Defined.

(** ** Determinacy and stability *)

Lemma reactionCount_counts supports :
  reactionCount supports
  = (2 * Z.of_nat (count_type FIXED supports) + Z.of_nat (count_type PINNED supports)
     + Z.of_nat (count_type ROLLER supports))%Z.
Proof.
  unfold reactionCount, count_type.
  assert (forall acc,
    fold_left (fun (acc : Z) s =>
                 (acc + match s_type s with FIXED => 2 | HINGE => 0 | _ => 1 end)%Z)
      supports acc
    = (acc + (2 * Z.of_nat (length (List.filter (fun s => bool_decide (s_type s = FIXED)) supports))
       + Z.of_nat (length (List.filter (fun s => bool_decide (s_type s = PINNED)) supports))
       + Z.of_nat (length (List.filter (fun s => bool_decide (s_type s = ROLLER)) supports))))%Z)
    as H.
  { induction supports as [|s ss IH]; intros acc; simpl; [lia|].
    rewrite IH. destruct (s_type s); simpl; lia. }
  rewrite H. lia.
Qed.

Lemma set_add_elem {A} `{EqDecision A} (s : list A) (x y : A) :
  y ∈ set_add s x <-> y ∈ s \/ y = x.
Proof.
  unfold set_add. destruct (decide (x ∈ s)) as [Hin|Hin].
  - split; [by left|]. intros [?| ->]; done.
  - rewrite elem_of_app, list_elem_of_singleton. done.
Qed.

Lemma set_add_NoDup {A} `{EqDecision A} (s : list A) (x : A) :
  NoDup s -> NoDup (set_add s x).
Proof.
  intros Hs. unfold set_add. destruct (decide (x ∈ s)) as [Hin|Hin]; [done|].
  apply NoDup_app. repeat split; [done| |apply NoDup_singleton].
  intros y Hy ->%list_elem_of_singleton. done.
Qed.

Lemma set_add_length {A} `{EqDecision A} (s : list A) (x : A) :
  (length (set_add s x) <= Datatypes.S (length s))%nat.
Proof.
  unfold set_add. destruct (decide (x ∈ s)); [lia|]. rewrite length_app. simpl. lia.
Qed.

Section HingeNodes.
Variables (fnodes : vec).

Let step := hinge_step fnodes.

Lemma hingeNodes_fold supports hs0 :
  let hs := fold_left step supports hs0 in
  (NoDup hs0 -> NoDup hs)
  /\ (forall k, k ∈ hs <->
        k ∈ hs0 \/ exists s, s ∈ supports /\ s_type s = HINGE
                             /\ findClosestNodeIndex fnodes (s_position s) = k)
  /\ (length hs <= length hs0 + count_type HINGE supports)%nat.
Proof.
  revert hs0. induction supports as [|s ss IH]; intros hs0; simpl.
  - split; [done|]. split; [|lia]. intros k. split; [by left|].
    intros [?|(s & Hs & _)]; [done|]. by apply elem_of_nil in Hs.
  - destruct (IH (step hs0 s)) as (IH1 & IH2 & IH3). split; [|split].
    + intros Hnd. apply IH1. unfold step, hinge_step. destruct (s_type s); try done.
      by apply set_add_NoDup.
    + intros k. rewrite IH2. unfold step. split.
      * unfold hinge_step. intros [Hk|(s' & Hs' & Ht & Hk)].
        -- destruct (s_type s) eqn:Et; try by left.
           apply set_add_elem in Hk as [Hk|Hk]; [by left|].
           right. exists s. split; [apply list_elem_of_here|done].
        -- right. exists s'. split; [by apply list_elem_of_further|done].
      * unfold hinge_step. intros [Hk|(s' & Hs' & Ht & Hk)].
        -- left. destruct (s_type s); try done. apply set_add_elem. by left.
        -- apply elem_of_cons in Hs' as [->|Hs'].
           ++ left. rewrite Ht. apply set_add_elem. by right.
           ++ right. by exists s'.
    + clear IH IH1 IH2. unfold count_type in *. subst step. unfold hinge_step in *. simpl.
      pose proof (set_add_length hs0 (findClosestNodeIndex fnodes (s_position s))).
      destruct (s_type s) eqn:Et; simpl; lia.
Qed.

Lemma hingeNodes_spec supports :
  let hs := hingeNodes fnodes supports in
  NoDup hs
  /\ (forall k, k ∈ hs <->
        exists s, s ∈ supports /\ s_type s = HINGE
                  /\ findClosestNodeIndex fnodes (s_position s) = k)
  /\ (length hs <= count_type HINGE supports)%nat.
Proof.
  destruct (hingeNodes_fold supports []) as (H1 & H2 & H3). split; [|split].
  - apply H1. constructor.
  - intros k. split.
    + intros Hk. apply H2 in Hk as [Hk|Hk]; [by apply elem_of_nil in Hk|done].
    + intros Hk. apply H2. by right.
  - simpl in H3. exact H3.
Qed.
End HingeNodes.

(** The formula of lines 293-295 and 323: [determinacy = reactionCount - 3
    - hingesCount] and [isStable = (reactionCount >= 3)], where
    [reactionCount] counts 2 for each FIXED, 1 for each PINNED or ROLLER and
    0 for each HINGE support, and [hingesCount] is the size of the set
    [hingeNodes]: the number of distinct mesh nodes that are the nearest
    node of some HINGE support, at most the number of HINGE supports. *)
Lemma determinacy_by_hinge_nodes config supports loads probeX r :
  analyzeBeam config supports loads probeX = Return r ->
  let rc := (2 * Z.of_nat (count_type FIXED supports)
             + Z.of_nat (count_type PINNED supports)
             + Z.of_nat (count_type ROLLER supports))%Z in
  let hinge_nodes := hingeNodes (nodes r) supports in
  reactionCount supports = rc
  /\ determinacy r = (rc - 3 - Z.of_nat (length hinge_nodes))%Z
  /\ isStable r = (rc >=? 3)%Z
  /\ NoDup hinge_nodes
  /\ (forall k, k ∈ hinge_nodes <->
        exists s, s ∈ supports /\ s_type s = HINGE
                  /\ findClosestNodeIndex (nodes r) (s_position s) = k)
  /\ (length hinge_nodes <= count_type HINGE supports)%nat.
Proof.
  intros Hret rc hinge_nodes. apply analyzeBeam_inv in Hret as [_ ->].
  destruct (hingeNodes_spec
              (nodes (analyze (cfg_length config) (flexural_rigidity config) probeX
                        supports loads)) supports) as (Hnd & Hin & Hlen).
  fold hinge_nodes in Hnd, Hin, Hlen.
  pose proof (reactionCount_counts supports) as Hrc. fold rc in Hrc.
  rewrite analyze_determinacy, analyze_isStable. fold hinge_nodes. rewrite Hrc.
  done.
Qed.

(** The formula on the two textbook cases, for every beam, section and
    loading: a simply supported beam is classified unstable with
    determinacy [-1], a propped cantilever stable with determinacy [0]. *)
Lemma determinacy_simple_cases L EI probeX supports loads :
  count_type HINGE supports = 0%nat ->
  let r := analyze L EI probeX supports loads in
  (count_type PINNED supports = 1%nat -> count_type ROLLER supports = 1%nat ->
   count_type FIXED supports = 0%nat ->
   determinacy r = (-1)%Z /\ isStable r = false)
  /\ (count_type FIXED supports = 1%nat -> count_type ROLLER supports = 1%nat ->
      count_type PINNED supports = 0%nat ->
      determinacy r = 0%Z /\ isStable r = true).
Proof.
  intros HH r. subst r. rewrite analyze_determinacy, analyze_isStable.
  destruct (hingeNodes_spec
              (nodes (analyze L EI probeX supports loads)) supports) as (_ & _ & Hlen).
  rewrite HH in Hlen. rewrite analyze_nodes in Hlen |- *.
  assert (length (hingeNodes (finalNodes L probeX supports loads) supports) = 0%nat)
    as -> by lia.
  rewrite (reactionCount_counts supports).
  split; intros -> -> ->; done.
Qed.

(** ** Moment release *)

(** The force vector of one release step is the condensed one. *)
Lemma release_step_force (r : nat) (ke : matrix) (fe : vec) :
  (r < 4)%nat -> length fe = 4%nat -> length ke = 4%nat ->
  Forall (fun row => length row = 4%nat) ke ->
  snd (release_step r (ke, fe)) = snd (condense_spec r (ke, fe)).
Proof.
  intros Hr Hfe Hke Hrows.
  destruct fe as [|f0 [|f1 [|f2 [|f3 [|]]]]]; try done.
  destruct ke as [|r0 [|r1 [|r2 [|r3 [|]]]]]; try done.
  repeat match goal with H : Forall _ (_ :: _) |- _ => apply Forall_cons in H as [? H] end.
  destruct r0 as [|a0 [|a1 [|a2 [|a3 [|]]]]]; try done.
  destruct r1 as [|b0 [|b1 [|b2 [|b3 [|]]]]]; try done.
  destruct r2 as [|c0 [|c1 [|c2 [|c3 [|]]]]]; try done.
  destruct r3 as [|d0 [|d1 [|d2 [|d3 [|]]]]]; try done.
  unfold release_step, condense_spec.
  destruct (Num.ltb _ _); [done|].
  do 4 (destruct r as [|r]; [reflexivity|]). lia.
Qed.

(** C3 (code defect): releasing the start rotation of the unit element
    ([EI = 1], [Le = 1]), the in-place update of the source leaves
    [ke[0][2] = -12], [ke[1][2] = -6] and [ke[2][0] = -12], where the
    condensation from the start-of-step values gives [-3], [0] and [-3]:
    the released rotation keeps its coupling to the far node. *)
Theorem applyMomentRelease_in_place_divergence :
  to_Q Examples.released_in_place
  = [ [3; 0; -12; 6]; [0; 0; -6; 2]; [-12; -6; 3; -3]; [6; 2; -3; 3] ]%Q
  /\ to_Q Examples.released_spec
     = [ [3; 0; -3; 3]; [0; 0; 0; 0]; [-3; 0; 3; -3]; [3; 0; -3; 3] ]%Q
  /\ Examples.released_in_place <> Examples.released_spec.
Proof.
  assert (to_Q Examples.released_in_place
          = [ [3; 0; -12; 6]; [0; 0; -6; 2]; [-12; -6; 3; -3]; [6; 2; -3; 3] ]%Q) as Hc
    by (vm_compute; reflexivity).
  assert (to_Q Examples.released_spec
          = [ [3; 0; -3; 3]; [0; 0; 0; 0]; [-3; 0; 3; -3]; [3; 0; -3; 3] ]%Q) as Hs
    by (vm_compute; reflexivity).
  split; [exact Hc|]. split; [exact Hs|].
  intros Heq. rewrite Heq, Hs in Hc. discriminate Hc.
Qed.

(** What the in-place update does to a beam: clamped at both ends, the
    supports carry the whole point load; with a hinge at mid-span the
    reactions of the computed solution add up to less than 4 of the 10 kN
    applied, which no release of a rotation can cause. *)
Lemma hinge_breaks_equilibrium :
  let L := cfg_length Examples.section_long in
  let EI := flexural_rigidity Examples.section_long in
  total_reaction (analyze L EI Num.tenth Examples.clamped Examples.point_load) = c 10
  /\ total_reaction (analyze L EI Num.tenth Examples.clamped_hinged Examples.point_load)
     < c 4.
Proof.
  split.
  - apply Qc_is_canon. vm_compute. reflexivity.
  - apply NumFacts.ltb_lt. vm_compute. reflexivity.
Qed.

(** * The dense solver *)

(** ** Matrices as arrays of rows *)

Lemma square_length n m : square n m -> length m = n.
Proof. by intros [? _]. Qed.

Lemma square_row n m i : square n m -> (i < n)%nat -> length (m !!! i) = n.
Proof. intros [_ H]. apply H. Qed.

Lemma mget_mset m i j v i' j' :
  (i < length m)%nat -> (j < length (m !!! i))%nat ->
  mget (mset m i j v) i' j' = if decide (i' = i /\ j' = j) then v else mget m i' j'.
Proof.
  intros Hi Hj. unfold mget, mset.
  destruct (decide (i' = i)) as [->|Hne].
  - rewrite list_lookup_total_insert_eq by done.
    destruct (decide (j' = j)) as [->|Hne'].
    + rewrite list_lookup_total_insert_eq by done. by rewrite decide_True.
    + rewrite list_lookup_total_insert_ne by done. rewrite decide_False; [done|]. tauto.
  - rewrite list_lookup_total_insert_ne by done. rewrite decide_False; [done|]. tauto.
Qed.

Lemma mset_row_ne m i j v i' :
  i' <> i -> mset m i j v !!! i' = m !!! i'.
Proof. intros H. unfold mset. by rewrite list_lookup_total_insert_ne. Qed.

Lemma square_mset n m i j v : square n m -> square n (mset m i j v).
Proof.
  intros [Hl Hr]. split; [by rewrite length_mset|].
  intros k Hk. unfold mset. destruct (decide (k = i)) as [->|Hne].
  - rewrite list_lookup_total_insert_eq by lia. rewrite length_insert. by apply Hr.
  - rewrite list_lookup_total_insert_ne by done. by apply Hr.
Qed.

Lemma swap_lookup {A} `{Inhabited A} (l : list A) i j k :
  (i < length l)%nat -> (j < length l)%nat ->
  swap l i j !!! k = if decide (k = j) then l !!! i else if decide (k = i) then l !!! j else l !!! k.
Proof.
  intros Hi Hj. unfold swap.
  destruct (decide (k = j)) as [->|Hkj].
  - rewrite list_lookup_total_insert_eq; [done|]. by rewrite length_insert.
  - rewrite list_lookup_total_insert_ne by done.
    destruct (decide (k = i)) as [->|Hki].
    + by rewrite list_lookup_total_insert_eq.
    + by rewrite list_lookup_total_insert_ne.
Qed.

Lemma square_swap n m i j :
  square n m -> (i < n)%nat -> (j < n)%nat -> square n (swap m i j).
Proof.
  intros [Hl Hr] Hi Hj. split; [by rewrite length_swap|].
  intros k Hk. rewrite swap_lookup by lia.
  repeat case_decide; by apply Hr.
Qed.

(** ** The pivot search *)

Lemma find_pivot_spec LU n i :
  let '(mx, row) := find_pivot LU n i in
  (forall k, (i <= k < n)%nat -> Qcabs (mget LU k i) <= mx)
  /\ ((mx = c 0 /\ row = i) \/ ((i <= row < n)%nat /\ mx = Qcabs (mget LU row i) /\ c 0 < mx)).
Proof.
  unfold find_pivot.
  destruct (decide (i <= n)%nat) as [Hin|Hin].
  2:{ rewrite for_range_nil by lia. split; [intros; lia|]. by left. }
  pose (P := fun (hi : nat) (st : Qc * nat) =>
    (forall k, (i <= k < hi)%nat -> Qcabs (mget LU k i) <= st.1)
    /\ ((st.1 = c 0 /\ st.2 = i)
        \/ ((i <= st.2 < hi)%nat /\ st.1 = Qcabs (mget LU st.2 i) /\ c 0 < st.1))).
  assert (P n (for_range i n
    (fun k '(mx, row) =>
       let val := Qcabs (mget LU k i) in
       if Num.ltb mx val then (val, k) else (mx, row)) (c 0, i))) as HP.
  { apply (for_range_inv P); [done| |].
    - split; [intros; lia|]. by left.
    - intros k [mx row] Hk [Hmax Hsel]. simpl in *.
      destruct (Num.ltb mx (Qcabs (mget LU k i))) eqn:E.
      + apply NumFacts.ltb_lt in E. split; simpl.
        * intros k' Hk'. destruct (decide (k' = k)) as [->|Hne]; [apply Qcle_refl|].
          eapply Qcle_trans; [apply Hmax; lia|]. by apply Qclt_le_weak.
        * right. split; [lia|]. split; [done|].
          destruct Hsel as [[-> _]|(_ & _ & Hpos)]; [done|].
          by eapply Qclt_trans.
      + apply NumFacts.ltb_ge in E. split; simpl.
        * intros k' Hk'. destruct (decide (k' = k)) as [->|Hne]; [done|].
          apply Hmax. lia.
        * destruct Hsel as [?|(? & ? & ?)]; [by left|]. right. split; [lia|done]. }
  destruct (for_range _ _ _ _) as [mx row]. exact HP.
Qed.

(** ** Elimination *)


Lemma eliminate_row_spec n i j LU :
  square n LU -> (i < j < n)%nat ->
  let LU' := eliminate_row n i j LU in
  square n LU'
  /\ (forall r, r <> j -> LU' !!! r = LU !!! r)
  /\ (forall cc, (cc < n)%nat -> mget LU' j cc = eliminated LU i j cc).
Proof.
  intros Hsq Hij. unfold eliminate_row.
  set (l := mget LU j i / mget LU i i).
  pose (P := fun (k : nat) (LU' : matrix) =>
    square n LU'
    /\ (forall r, r <> j -> LU' !!! r = LU !!! r)
    /\ (forall cc, (cc < n)%nat ->
          mget LU' j cc = if decide (cc = i) then l
                          else if decide (i < cc < k)%nat then mget LU j cc - l * mget LU i cc
                          else mget LU j cc)).
  assert (P n (for_range (i + 1) n
    (fun k LU' => mset LU' j k (mget LU' j k - mget LU' j i * mget LU' i k))
    (mset LU j i l))) as (H1 & H2 & H3).
  { apply (for_range_inv P); [lia| |].
    - split; [by apply square_mset|]. split.
      + intros r Hr. by apply mset_row_ne.
      + intros cc Hcc. rewrite mget_mset.
        2:{ rewrite (square_length n) by done. lia. }
        2:{ rewrite (square_row n) by (done || lia). lia. }
        destruct (decide (cc = i)) as [->|Hne].
        * by rewrite decide_True.
        * rewrite decide_False by tauto. rewrite decide_False by lia. done.
    - intros k LU' Hk (Hsq' & Hrows & Hrow). split; [by apply square_mset|]. split.
      + intros r Hr. rewrite mset_row_ne by done. by apply Hrows.
      + intros cc Hcc. rewrite mget_mset.
        2:{ rewrite (square_length n) by done. lia. }
        2:{ rewrite (square_row n) by (done || lia). lia. }
        destruct (decide (cc = k)) as [->|Hne].
        * rewrite decide_True by done. rewrite decide_False by lia.
          rewrite decide_True by lia.
          rewrite (Hrow k) by lia. rewrite decide_False by lia. rewrite decide_False by lia.
          rewrite (Hrow i) by lia. rewrite decide_True by done.
          assert (mget LU' i k = mget LU i k) as ->; [|done].
          unfold mget. rewrite Hrows by lia. done.
        * rewrite decide_False by tauto. rewrite Hrow by done.
          destruct (decide (cc = i)); [done|].
          destruct (decide (i < cc < k)%nat), (decide (i < cc < Datatypes.S k)%nat);
            try done; lia. }
  split; [done|]. split; [done|].
  intros cc Hcc. rewrite H3 by done. unfold eliminated. fold l.
  destruct (decide (cc = i)); [done|].
  destruct (decide (i < cc < n)%nat), (decide (i < cc)%nat); try done; lia.
Qed.

Lemma eliminate_spec n i LU :
  square n LU -> (i < n)%nat ->
  let LU' := for_range (i + 1) n (eliminate_row n i) LU in
  square n LU'
  /\ (forall r, (r <= i)%nat -> LU' !!! r = LU !!! r)
  /\ (forall r cc, (i < r < n)%nat -> (cc < n)%nat -> mget LU' r cc = eliminated LU i r cc).
Proof.
  intros Hsq Hi.
  pose (P := fun (j : nat) (LU' : matrix) =>
    square n LU'
    /\ (forall r, (r <= i \/ j <= r)%nat -> LU' !!! r = LU !!! r)
    /\ (forall r cc, (i < r < j)%nat -> (cc < n)%nat -> mget LU' r cc = eliminated LU i r cc)).
  assert (P n (for_range (i + 1) n (eliminate_row n i) LU)) as (H1 & H2 & H3).
  { apply (for_range_inv P); [lia| |].
    - split; [done|]. split; [done|]. intros; lia.
    - intros j LU' Hj (Hsq' & Hrows & Hdone).
      destruct (eliminate_row_spec n i j LU' Hsq' ltac:(lia)) as (E1 & E2 & E3).
      split; [done|]. split.
      + intros r Hr. rewrite E2 by lia. apply Hrows. lia.
      + intros r cc Hr Hcc. destruct (decide (r = j)) as [->|Hne].
        * rewrite E3 by done. unfold eliminated, mget.
          rewrite (Hrows j) by lia. rewrite (Hrows i) by lia. done.
        * unfold mget. rewrite E2 by done. apply Hdone; [lia|done]. }
  split; [done|]. split; [|done]. intros r Hr. apply H2. lia.
Qed.

(** ** Finite sums *)

Lemma c0_zero : c 0 = 0.
Proof. reflexivity. Qed.

Lemma sum_range_nil lo hi f : (hi <= lo)%nat -> sum_range lo hi f = 0.
Proof. intros H. unfold sum_range. by rewrite for_range_nil. Qed.

Lemma sum_range_snoc lo hi f :
  (lo <= hi)%nat -> sum_range lo (Datatypes.S hi) f = sum_range lo hi f + f hi.
Proof. intros H. unfold sum_range. by rewrite for_range_snoc. Qed.

Lemma sum_range_ext lo hi f g :
  (forall j, (lo <= j < hi)%nat -> f j = g j) -> sum_range lo hi f = sum_range lo hi g.
Proof.
  intros H. induction hi as [|hi IH].
  - by rewrite !sum_range_nil by lia.
  - destruct (decide (lo <= hi)%nat).
    + rewrite !sum_range_snoc by done. rewrite IH, H; [done|lia|]. intros; apply H; lia.
    + by rewrite !sum_range_nil by lia.
Qed.

Lemma sum_range_cons lo hi f :
  (lo < hi)%nat -> sum_range lo hi f = f lo + sum_range (Datatypes.S lo) hi f.
Proof.
  intros H. induction hi as [|hi IH]; [lia|].
  destruct (decide (lo = hi)) as [->|Hne].
  - rewrite sum_range_snoc by lia. rewrite !sum_range_nil by lia. ring.
  - rewrite !sum_range_snoc by lia. rewrite IH by lia. ring.
Qed.

Lemma sum_range_zero lo hi : sum_range lo hi (fun _ => 0) = 0.
Proof.
  induction hi as [|hi IH]; [by rewrite sum_range_nil by lia|].
  destruct (decide (lo <= hi)%nat).
  - rewrite sum_range_snoc by done. rewrite IH. ring.
  - by rewrite sum_range_nil by lia.
Qed.

Lemma sum_range_plus lo hi f g :
  sum_range lo hi (fun j => f j + g j) = sum_range lo hi f + sum_range lo hi g.
Proof.
  induction hi as [|hi IH].
  - rewrite !sum_range_nil by lia. ring.
  - destruct (decide (lo <= hi)%nat).
    + rewrite !sum_range_snoc by done. rewrite IH. ring.
    + rewrite !sum_range_nil by lia. ring.
Qed.

Lemma sum_range_scale lo hi a f :
  sum_range lo hi (fun j => a * f j) = a * sum_range lo hi f.
Proof.
  induction hi as [|hi IH].
  - rewrite !sum_range_nil by lia. ring.
  - destruct (decide (lo <= hi)%nat).
    + rewrite !sum_range_snoc by done. rewrite IH. ring.
    + rewrite !sum_range_nil by lia. ring.
Qed.

Lemma sum_range_exchange n m (f : nat -> nat -> Qc) :
  sum_range 0 n (fun i => sum_range 0 m (fun j => f i j))
  = sum_range 0 m (fun j => sum_range 0 n (fun i => f i j)).
Proof.
  induction n as [|n IH].
  - rewrite sum_range_nil by lia. symmetry.
    rewrite (sum_range_ext _ _ _ (fun _ => 0)); [apply sum_range_zero|].
    intros j _. by rewrite sum_range_nil.
  - rewrite sum_range_snoc by lia. rewrite IH. rewrite <- sum_range_plus.
    apply sum_range_ext. intros j _. by rewrite sum_range_snoc by lia.
Qed.

(** [sum_{j < n, t <= j} g j = sum_{t <= j < n} g j] *)
Lemma sum_range_from t n g :
  sum_range 0 n (fun j => if decide (t <= j)%nat then g j else 0) = sum_range t n g.
Proof.
  induction n as [|n IH].
  - by rewrite !sum_range_nil by lia.
  - rewrite sum_range_snoc by lia. rewrite IH.
    destruct (decide (t <= n)%nat).
    + by rewrite sum_range_snoc.
    + rewrite !sum_range_nil by lia. ring.
Qed.

(** [sum_{t < r, t <= cc} f t = sum_{t < min r (cc + 1)} f t] *)
Lemma sum_range_upto r cc f :
  sum_range 0 r (fun t => if decide (t <= cc)%nat then f t else 0)
  = sum_range 0 (Nat.min r (Datatypes.S cc)) f.
Proof.
  induction r as [|r IH].
  - by rewrite !sum_range_nil by lia.
  - rewrite sum_range_snoc by lia. rewrite IH.
    destruct (decide (r <= cc)%nat).
    + replace (Nat.min (Datatypes.S r) (Datatypes.S cc)) with (Datatypes.S r) by lia.
      replace (Nat.min r (Datatypes.S cc)) with r by lia.
      by rewrite sum_range_snoc by lia.
    + replace (Nat.min (Datatypes.S r) (Datatypes.S cc)) with (Datatypes.S cc) by lia.
      replace (Nat.min r (Datatypes.S cc)) with (Datatypes.S cc) by lia. ring.
Qed.

(** ** The factorization invariant *)



Lemma lu_inv_init n A : square n A -> lu_inv n A 0 (A, seq 0 n).
Proof.
  intros Hsq. split; [done|]. simpl. split; [by rewrite length_seq|].
  split; [|split].
  - intros r Hr. by rewrite lookup_total_seq_lt.
  - intros q Hq. exists q. split; [done|]. by rewrite lookup_total_seq_lt.
  - intros r cc Hr Hcc. rewrite lookup_total_seq_lt by done. unfold lu_entry.
    rewrite !Nat.min_0_l. rewrite sum_range_nil by lia. rewrite decide_False by lia. simpl. ring.
Qed.

Lemma lu_inv_swap n A k LU p row :
  lu_inv n A k (LU, p) -> (k <= row < n)%nat ->
  lu_inv n A k (swap LU k row, swap p k row).
Proof.
  intros (Hsq & Hlen & Hrange & Hsurj & Hent) Hrow. simpl in *.
  pose (sigma := fun r => if decide (r = row) then k else if decide (r = k) then row else r).
  assert (forall r, swap p k row !!! r = p !!! sigma r) as Hp.
  { intros r. rewrite swap_lookup by lia. unfold sigma. by repeat case_decide. }
  assert (forall r, swap LU k row !!! r = LU !!! sigma r) as HLU.
  { intros r. rewrite swap_lookup by (rewrite (square_length n); [lia|done]).
    unfold sigma. by repeat case_decide. }
  assert (forall r, (r < n)%nat -> (sigma r < n)%nat) as Hsig.
  { intros r Hr. unfold sigma. repeat case_decide; lia. }
  assert (forall r, sigma (sigma r) = r) as Hinv.
  { intros r. unfold sigma. repeat case_decide; lia. }
  assert (forall r, Nat.min k (sigma r) = Nat.min k r) as Hmin.
  { intros r. unfold sigma. repeat case_decide; lia. }
  assert (forall t, (t < k)%nat -> sigma t = t) as Hlow.
  { intros t Ht. unfold sigma. repeat case_decide; lia. }
  split; [|split; [|split; [|split]]]; simpl.
  - apply square_swap; [done|lia|lia].
  - by rewrite length_swap.
  - intros r Hr. rewrite Hp. apply Hrange. by apply Hsig.
  - intros q Hq. destruct (Hsurj q Hq) as (r & Hr & Hpr).
    exists (sigma r). split; [by apply Hsig|]. by rewrite Hp, Hinv.
  - intros r cc Hr Hcc. rewrite Hp. rewrite Hent by (by apply Hsig || done).
    rewrite Hmin. unfold lu_entry. f_equal.
    + apply sum_range_ext. intros t Ht. unfold mget. rewrite !HLU.
      rewrite (Hlow t) by lia. done.
    + unfold mget. rewrite !HLU. case_decide; [|done]. rewrite (Hlow cc) by lia. done.
Qed.

Lemma lu_inv_eliminate n A k LU p :
  lu_inv n A k (LU, p) -> (k < n)%nat -> mget LU k k <> 0 ->
  lu_inv n A (Datatypes.S k) (for_range (k + 1) n (eliminate_row n k) LU, p).
Proof.
  intros (Hsq & Hlen & Hrange & Hsurj & Hent) Hk Hpiv. cbn [fst snd] in *.
  destruct (eliminate_spec n k LU Hsq Hk) as (E1 & E2 & E3).
  set (LU' := for_range (k + 1) n (eliminate_row n k) LU) in *.
  assert (forall r cc, (r <= k)%nat -> mget LU' r cc = mget LU r cc) as Hkeep.
  { intros r cc Hr. unfold mget. by rewrite E2. }
  split; [done|]. split; [done|]. split; [done|]. split; [done|]. cbn [fst snd].
  intros r cc Hr Hcc. rewrite Hent by done. unfold lu_entry.
  destruct (decide (r <= k)%nat) as [Hrk|Hrk].
  - replace (Nat.min (Datatypes.S k) r) with r by lia.
    replace (Nat.min k r) with r by lia. f_equal.
    + apply sum_range_ext. intros t Ht. rewrite !Hkeep by lia. done.
    + case_decide; rewrite !Hkeep by lia; done.
  - replace (Nat.min (Datatypes.S k) r) with (Datatypes.S k) by lia.
    replace (Nat.min k r) with k by lia.
    assert (forall t, (t < k)%nat -> mget LU' r t = mget LU r t) as Hleft.
    { intros t Ht. rewrite E3 by lia. unfold eliminated.
      rewrite decide_False by lia. rewrite decide_False by lia. done. }
    destruct (decide (cc < k)%nat) as [Hlt|Hge].
    + rewrite decide_True by lia.
      replace (Nat.min (Datatypes.S k) cc) with cc by lia.
      replace (Nat.min k cc) with cc by lia. f_equal.
      * apply sum_range_ext. intros t Ht. rewrite Hleft by lia. rewrite Hkeep by lia. done.
      * rewrite Hleft by lia. rewrite Hkeep by lia. done.
    + destruct (decide (cc = k)) as [->|Hne].
      * rewrite decide_True by lia.
        replace (Nat.min (Datatypes.S k) k) with k by lia.
        replace (Nat.min k k) with k by lia. f_equal.
        -- apply sum_range_ext. intros t Ht. rewrite Hleft by lia. rewrite Hkeep by lia. done.
        -- rewrite E3 by lia. unfold eliminated. rewrite decide_True by done.
           rewrite Hkeep by lia. field. done.
      * rewrite decide_False by lia.
        replace (Nat.min (Datatypes.S k) cc) with (Datatypes.S k) by lia.
        replace (Nat.min k cc) with k by lia.
        rewrite sum_range_snoc by lia.
        rewrite (sum_range_ext 0 k (fun t => mget LU' r t * mget LU' t cc)
                   (fun t => mget LU r t * mget LU t cc)).
        2:{ intros t Ht. rewrite Hleft by lia. rewrite Hkeep by lia. done. }
        rewrite (E3 r cc) by lia. rewrite (E3 r k) by lia. unfold eliminated.
        rewrite (decide_True (P := (k = k))) by done.
        rewrite decide_False by lia. rewrite decide_True by lia.
        rewrite Hkeep by lia. field. done.
Qed.

Lemma Qcabs_ge_nonzero x e : c 0 < e -> e <= Qcabs x -> x <> 0.
Proof.
  intros He Hx ->. rewrite Qcabs_pos in Hx by apply Qcle_refl.
  apply (Qclt_not_le _ _ He). done.
Qed.

Lemma eps18_pos : c 0 < Num.eps18.
Proof. apply NumFacts.ltb_lt. by vm_compute. Qed.

Lemma eps22_pos : c 0 < Num.eps22.
Proof. apply NumFacts.ltb_lt. by vm_compute. Qed.

(** One unguarded iteration: the selected pivot is in range, it is the
    value divided by, and the invariant moves to the next column. *)
Lemma lu_step_unguarded n A k LU p :
  lu_inv n A k (LU, p) -> (k < n)%nat ->
  Num.eps18 <= fst (find_pivot LU n k) ->
  lu_inv n A (Datatypes.S k) (lu_step n k (LU, p)).
Proof.
  intros Hinv Hk Hmax. unfold lu_step.
  pose proof (find_pivot_spec LU n k) as Hspec.
  destruct (find_pivot LU n k) as [mx row]. simpl in Hmax.
  destruct Hspec as [_ [[-> _]|(Hrow & Hmx & _)]].
  { exfalso. apply (Qclt_not_le _ _ eps18_pos). done. }
  apply NumFacts.ltb_ge in Hmax as Hltb. rewrite Hltb.
  apply lu_inv_eliminate; [by apply lu_inv_swap|done|].
  destruct Hinv as (Hsq & _).
  assert (swap LU k row !!! k = LU !!! row) as Hpiv.
  { rewrite swap_lookup by (rewrite (square_length n); [lia|done]).
    case_decide as Hd; [by rewrite Hd|]. by rewrite decide_True. }
  unfold mget. rewrite Hpiv.
  apply (Qcabs_ge_nonzero _ Num.eps18); [apply eps18_pos|].
  by rewrite Hmx in Hmax.
Qed.

Lemma LUSolver_new_inv n K :
  square n K -> factorization_unguarded K ->
  let s := LUSolver_new K in
  lu_n s = n /\ lu_inv n K n (lu_LU s, lu_pivot s).
Proof.
  intros Hsq Hun. pose proof (square_length n K Hsq) as Hlen.
  unfold LUSolver_new. rewrite Hlen.
  pose (P := fun (i : nat) (st : matrix * list nat) =>
    st = for_range 0 i (lu_step n) (K, seq 0 n) /\ lu_inv n K i st).
  assert (P n (for_range 0 n (lu_step n) (K, seq 0 n))) as [_ HP].
  { apply (for_range_inv P); [lia| |].
    - split; [by rewrite for_range_nil|]. by apply lu_inv_init.
    - intros i [LU p] Hi [Hst Hinv]. split.
      + rewrite for_range_snoc by lia. by rewrite <- Hst.
      + apply lu_step_unguarded; [done|lia|].
        specialize (Hun i). unfold pivot_max in Hun. rewrite Hlen in Hun.
        rewrite <- Hst in Hun. apply Hun. lia. }
  destruct (for_range 0 n (lu_step n) (K, seq 0 n)) as [LU p]. done.
Qed.

(** ** Substitution *)

Lemma dot_range_sum lo hi row v :
  dot_range lo hi row v = sum_range lo hi (fun j => row !!! j * v !!! j).
Proof. reflexivity. Qed.

Lemma forward_spec s b i :
  (i < lu_n s)%nat ->
  forward s b !!! i
  = b !!! (lu_pivot s !!! i)
    - sum_range 0 i (fun j => mget (lu_LU s) i j * forward s b !!! j).
Proof.
  intros Hi.
  pose (P := fun (k : nat) (y : vec) =>
    length y = lu_n s
    /\ forall i, (i < k)%nat ->
         y !!! i = b !!! (lu_pivot s !!! i)
                   - sum_range 0 i (fun j => mget (lu_LU s) i j * y !!! j)).
  assert (P (lu_n s) (forward s b)) as [_ HP]; [|by apply HP].
  unfold forward. apply (for_range_inv P); [lia| |].
  - split; [apply length_zeros|]. intros; lia.
  - intros k y Hk [Hlen Hy]. split; [by rewrite length_insert|].
    intros i' Hi'. destruct (decide (i' = k)) as [->|Hne].
    + rewrite list_lookup_total_insert_eq by lia. rewrite dot_range_sum. f_equal.
      apply sum_range_ext. intros j Hj. unfold mget.
      by rewrite list_lookup_total_insert_ne by lia.
    + rewrite list_lookup_total_insert_ne by done. rewrite Hy by lia. f_equal.
      apply sum_range_ext. intros j Hj.
      by rewrite list_lookup_total_insert_ne by lia.
Qed.


Lemma back_value_ext s y x x' i :
  (forall j, (i < j)%nat -> x !!! j = x' !!! j) -> back_value s y x i = back_value s y x' i.
Proof.
  intros H. unfold back_value. destruct (Num.ltb _ _); [done|]. f_equal. f_equal.
  apply sum_range_ext. intros j Hj. rewrite H; [done|lia].
Qed.

Lemma backward_body_value s y x i :
  (i < length x)%nat ->
  (let sum := dot_range (i + 1) (lu_n s) (lu_LU s !!! i) x in
   if Num.ltb (Qcabs (mget (lu_LU s) i i)) Num.eps22
   then <[i := c 0]> x
   else <[i := (y !!! i - sum) / mget (lu_LU s) i i]> x)
  = <[i := back_value s y x i]> x.
Proof. intros Hi. unfold back_value. cbv zeta. by destruct (Num.ltb _ _). Qed.

Lemma backward_from s y hi x0 :
  (hi <= lu_n s)%nat -> length x0 = lu_n s ->
  let x := for_down hi
             (fun i x =>
                let sum := dot_range (i + 1) (lu_n s) (lu_LU s !!! i) x in
                if Num.ltb (Qcabs (mget (lu_LU s) i i)) Num.eps22
                then <[i := c 0]> x
                else <[i := (y !!! i - sum) / mget (lu_LU s) i i]> x) x0 in
  length x = lu_n s
  /\ (forall i, (hi <= i)%nat -> x !!! i = x0 !!! i)
  /\ (forall i, (i < hi)%nat -> x !!! i = back_value s y x i).
Proof.
  revert x0. induction hi as [|hi IH]; intros x0 Hhi Hlen; cbv zeta.
  - split; [done|]. split; [done|]. intros; lia.
  - rewrite for_down_S. rewrite backward_body_value by lia.
    destruct (IH (<[hi := back_value s y x0 hi]> x0)) as (H1 & H2 & H3);
      [lia|by rewrite length_insert|].
    cbv zeta in H1, H2, H3.
    split; [done|]. split.
    + intros i Hi. rewrite H2 by lia. by rewrite list_lookup_total_insert_ne by lia.
    + intros i Hi. destruct (decide (i = hi)) as [->|Hne]; [|apply H3; lia].
      rewrite H2 by lia. rewrite list_lookup_total_insert_eq by lia.
      apply back_value_ext. intros j Hj. rewrite H2 by lia.
      by rewrite list_lookup_total_insert_ne by lia.
Qed.

Lemma backward_spec s y i :
  (i < lu_n s)%nat -> backward s y !!! i = back_value s y (backward s y) i.
Proof.
  intros Hi. destruct (backward_from s y (lu_n s) (zeros (lu_n s))) as (_ & _ & H);
    [lia|apply length_zeros|]. by apply H.
Qed.

(** ** The product of the factors *)

Lemma list_eq_lookup_total (l1 l2 : vec) n :
  length l1 = n -> length l2 = n ->
  (forall i, (i < n)%nat -> l1 !!! i = l2 !!! i) -> l1 = l2.
Proof.
  intros H1 H2 H. apply (list_eq_same_length _ _ n); [done|done|].
  intros i x y Hi Hx Hy. specialize (H i Hi).
  rewrite (list_lookup_total_correct _ _ _ Hx) in H.
  by rewrite (list_lookup_total_correct _ _ _ Hy) in H.
Qed.


Lemma lu_entry_final M r cc :
  lu_entry M r r cc
  = sum_range 0 r (fun t => mget M r t * upper M t cc) + upper M r cc.
Proof.
  unfold lu_entry, upper.
  rewrite (sum_range_ext 0 r _
             (fun t => if decide (t <= cc)%nat then mget M r t * mget M t cc else 0)).
  2:{ intros t _. case_decide; ring. }
  rewrite sum_range_upto.
  destruct (decide (cc < r)%nat).
  - rewrite decide_False by lia.
    replace (Nat.min r (Datatypes.S cc)) with (Datatypes.S cc) by lia.
    replace (Nat.min r cc) with cc by lia.
    rewrite sum_range_snoc by lia. ring.
  - rewrite decide_True by lia.
    replace (Nat.min r (Datatypes.S cc)) with r by lia.
    replace (Nat.min r cc) with r by lia. done.
Qed.

Lemma upper_solve s y t :
  solve_unguarded s -> (t < lu_n s)%nat ->
  sum_range 0 (lu_n s) (fun cc => upper (lu_LU s) t cc * backward s y !!! cc) = y !!! t.
Proof.
  intros Hun Ht. unfold upper.
  rewrite (sum_range_ext 0 (lu_n s) _
             (fun cc => if decide (t <= cc)%nat
                        then mget (lu_LU s) t cc * backward s y !!! cc else 0)).
  2:{ intros cc _. case_decide; ring. }
  rewrite sum_range_from. rewrite sum_range_cons by lia.
  rewrite (backward_spec s y t Ht) at 1. unfold back_value.
  specialize (Hun t Ht). apply NumFacts.ltb_ge in Hun as Hltb. rewrite Hltb.
  replace (t + 1)%nat with (Datatypes.S t) by lia.
  field. by apply (Qcabs_ge_nonzero _ Num.eps22); [apply eps22_pos|].
Qed.

Lemma lu_product_solve n A s b r :
  lu_n s = n -> lu_inv n A n (lu_LU s, lu_pivot s) -> solve_unguarded s ->
  (r < n)%nat ->
  sum_range 0 n (fun j => mget A (lu_pivot s !!! r) j * LUSolver_solve s b !!! j)
  = b !!! (lu_pivot s !!! r).
Proof.
  intros Hn (Hsq & Hlen & Hrange & Hsurj & Hent) Hun Hr. cbn [fst snd] in *.
  unfold LUSolver_solve. set (y := forward s b). set (x := backward s y).
  rewrite (sum_range_ext 0 n _
    (fun j => sum_range 0 r (fun t => mget (lu_LU s) r t * (upper (lu_LU s) t j * x !!! j))
              + upper (lu_LU s) r j * x !!! j)).
  2:{ intros j Hj. rewrite Hent by lia. replace (Nat.min n r) with r by lia.
      rewrite lu_entry_final.
      rewrite (sum_range_ext 0 r
                 (fun t => mget (lu_LU s) r t * (upper (lu_LU s) t j * x !!! j))
                 (fun t => x !!! j * (mget (lu_LU s) r t * upper (lu_LU s) t j))).
      2:{ intros t _. ring. }
      rewrite sum_range_scale. ring. }
  rewrite sum_range_plus. rewrite sum_range_exchange.
  rewrite (sum_range_ext 0 r _ (fun t => mget (lu_LU s) r t * y !!! t)).
  2:{ intros t Ht. rewrite sum_range_scale. f_equal.
      subst x. rewrite <- Hn. apply upper_solve; [done|lia]. }
  subst x. rewrite <- Hn at 1. rewrite upper_solve by (done || lia).
  subst y. rewrite (forward_spec s b r) by lia. ring.
Qed.

(** C5: for a square matrix [K] whose factorization takes neither guard
    (every pivot maximum is at least [1e-18], every diagonal entry of the
    factor at least [1e-22] in magnitude) and a right-hand side [b] of
    matching length, [x = solve(b)] satisfies [K x = b], exactly. *)
Theorem LUSolver_roundtrip (n : nat) (K : matrix) (b : vec) :
  square n K -> length b = n ->
  factorization_unguarded K -> solve_unguarded (LUSolver_new K) ->
  mat_vec K (LUSolver_solve (LUSolver_new K) b) = b.
Proof.
  intros Hsq Hb Hfac Hsol.
  destruct (LUSolver_new_inv n K Hsq Hfac) as [Hn Hinv].
  set (s := LUSolver_new K) in *.
  pose proof Hinv as (_ & _ & _ & Hsurj & _). cbn [fst snd] in Hsurj.
  destruct Hsq as [HlenK Hrows].
  apply (list_eq_lookup_total _ _ n); [unfold mat_vec; by rewrite length_fmap|done|].
  intros q Hq. unfold mat_vec.
  rewrite (list_lookup_total_fmap _ K q) by lia.
  rewrite Hrows by done.
  destruct (Hsurj q Hq) as (r & Hr & <-).
  by apply (lu_product_solve n K s b r).
Qed.

Lemma LUSolver_roundtrip_witness :
  square 2 Examples.K2 /\ length Examples.b2 = 2%nat
  /\ factorization_unguarded Examples.K2
  /\ solve_unguarded (LUSolver_new Examples.K2)
  /\ mat_vec Examples.K2 (LUSolver_solve (LUSolver_new Examples.K2) Examples.b2)
     = Examples.b2.
Proof.
  assert (square 2 Examples.K2) as H1.
  { split; [done|]. intros i Hi. by do 2 (destruct i as [|i]; [done|]); lia. }
  assert (length Examples.b2 = 2%nat) as H2 by done.
  assert (factorization_unguarded Examples.K2) as H3.
  { intros i Hi. simpl in Hi. do 2 (destruct i as [|i]; [qc_closed|]). lia. }
  assert (solve_unguarded (LUSolver_new Examples.K2)) as H4.
  { intros i Hi. rewrite lu_n_new in Hi. simpl in Hi.
    do 2 (destruct i as [|i]; [qc_closed|]). lia. }
  repeat (split; [assumption|]).
  exact (LUSolver_roundtrip 2 Examples.K2 Examples.b2 H1 H2 H3 H4).
Defined.

(** ** The guards of the solver *)

Lemma fold_left_fst {S T A} (f : S -> A -> S) (g : S * T -> A -> S * T) (l : list A) st :
  (forall st a, fst (g st a) = f (fst st) a) ->
  fst (fold_left g l st) = fold_left f l (fst st).
Proof.
  intros H. revert st. induction l as [|a l IH]; intros st; simpl; [done|].
  by rewrite IH, H.
Qed.

Lemma for_range_fst {S T} lo hi (body : nat -> S -> S) (body' : nat -> S * T -> S * T) st :
  (forall i st, fst (body' i st) = body i (fst st)) ->
  fst (for_range lo hi body' st) = for_range lo hi body (fst st).
Proof. intros H. unfold for_range. apply fold_left_fst. intros; apply H. Qed.

Lemma for_down_fst {S T} hi (body : nat -> S -> S) (body' : nat -> S * T -> S * T) st :
  (forall i st, fst (body' i st) = body i (fst st)) ->
  fst (for_down hi body' st) = for_down hi body (fst st).
Proof. intros H. unfold for_down. apply fold_left_fst. intros; apply H. Qed.

Lemma lu_step_log_fst n i st : fst (lu_step_log n i st) = lu_step n i (fst st).
Proof.
  destruct st as [[LU p] d]. unfold lu_step_log, lu_step. cbn [fst].
  destruct (find_pivot LU n i) as [mx row]. destruct (Num.ltb mx Num.eps18); [done|].
  pose proof (for_range_fst (i + 1) n (eliminate_row n i)
                (fun j '(LU', d) => (eliminate_row n i j LU', d ++ [mget LU' i i]))
                (swap LU i row, d)) as H.
  destruct (for_range (i + 1) n _ (swap LU i row, d)) as [LU2 d2]. cbn [fst] in *.
  rewrite H; [done|]. by intros j [? ?].
Qed.

Lemma LUSolver_new_log_fst m : fst (LUSolver_new_log m) = LUSolver_new m.
Proof.
  unfold LUSolver_new_log, LUSolver_new.
  pose proof (for_range_fst 0 (length m) (lu_step (length m)) (lu_step_log (length m))
                ((m, seq 0 (length m)), []) (lu_step_log_fst (length m))) as H.
  destruct (for_range 0 (length m) (lu_step_log _) _) as [[LU p] d]. cbn [fst] in H.
  by rewrite <- H.
Qed.

Lemma LUSolver_solve_log_fst s b : fst (LUSolver_solve_log s b) = LUSolver_solve s b.
Proof.
  unfold LUSolver_solve_log, LUSolver_solve, backward_log, backward.
  apply (for_down_fst (T := list Qc)). intros i [x d]. cbv zeta. cbn [fst].
  by destruct (Num.ltb _ _).
Qed.

Lemma eliminate_row_rows n i j LU r :
  r <> j -> eliminate_row n i j LU !!! r = LU !!! r.
Proof.
  intros Hr. unfold eliminate_row.
  apply (for_range_inv' (fun LU' => LU' !!! r = LU !!! r)).
  - by apply mset_row_ne.
  - intros k LU' _ H. by rewrite mset_row_ne.
Qed.

Lemma length_eliminate_row n i j LU : length (eliminate_row n i j LU) = length LU.
Proof.
  unfold eliminate_row. apply (for_range_inv' (fun LU' => length LU' = length LU)).
  - apply length_mset.
  - intros k LU' _ H. by rewrite length_mset.
Qed.

Lemma lu_step_log_guard n i st :
  (i < n)%nat -> length st.1.1 = n ->
  Forall (fun d => Num.eps18 <= Qcabs d) st.2 ->
  let st' := lu_step_log n i st in
  length st'.1.1 = n /\ Forall (fun d => Num.eps18 <= Qcabs d) st'.2.
Proof.
  destruct st as [[LU p] d]. cbn [fst snd]. intros Hi Hlen Hd. unfold lu_step_log.
  pose proof (find_pivot_spec LU n i) as Hspec.
  destruct (find_pivot LU n i) as [mx row].
  destruct (Num.ltb mx Num.eps18) eqn:E; [done|]. apply NumFacts.ltb_ge in E.
  destruct Hspec as [_ [[-> _]|(Hrow & Hmx & _)]].
  { exfalso. apply (Qclt_not_le _ _ eps18_pos). done. }
  assert (swap LU i row !!! i = LU !!! row) as Hpiv.
  { rewrite swap_lookup by lia. case_decide as Hd'; [by rewrite Hd'|]. by rewrite decide_True. }
  pose (Q := fun (s : matrix * list Qc) =>
    length s.1 = n /\ s.1 !!! i = LU !!! row
    /\ Forall (fun d => Num.eps18 <= Qcabs d) s.2).
  assert (Q (for_range (i + 1) n
               (fun j '(LU', d) => (eliminate_row n i j LU', d ++ [mget LU' i i]))
               (swap LU i row, d))) as HQ.
  { apply (for_range_inv' Q).
    - unfold Q. cbn [fst snd]. split; [by rewrite length_swap|]. done.
    - intros j [LU' d'] Hj (H1 & H2 & H3). unfold Q. cbn [fst snd] in *. split; [|split].
      + by rewrite length_eliminate_row.
      + rewrite eliminate_row_rows by lia. done.
      + apply Forall_app. split; [done|]. apply Forall_singleton.
        unfold mget. rewrite H2. by rewrite Hmx in E. }
  destruct (for_range (i + 1) n _ (swap LU i row, d)) as [LU2 d2].
  destruct HQ as (H1 & _ & H3). done.
Qed.

Lemma LUSolver_new_log_guard m :
  Forall (fun d => Num.eps18 <= Qcabs d) (snd (LUSolver_new_log m)).
Proof.
  unfold LUSolver_new_log.
  pose (P := fun (st : (matrix * list nat) * list Qc) =>
    length st.1.1 = length m /\ Forall (fun d => Num.eps18 <= Qcabs d) st.2).
  assert (P (for_range 0 (length m) (lu_step_log (length m))
               ((m, seq 0 (length m)), []))) as HP.
  { apply (for_range_inv' P); [done|].
    intros i st Hi [H1 H2]. apply lu_step_log_guard; [lia|done|done]. }
  destruct (for_range 0 (length m) _ _) as [[LU p] d]. by destruct HP.
Qed.

Lemma LUSolver_solve_log_guard s b :
  Forall (fun d => Num.eps22 <= Qcabs d) (snd (LUSolver_solve_log s b)).
Proof.
  unfold LUSolver_solve_log, backward_log.
  apply (for_down_inv' (fun st : vec * list Qc => Forall (fun d => Num.eps22 <= Qcabs d) st.2));
    [done|].
  intros i [x d] Hi Hd. cbv zeta. cbn [snd] in *.
  destruct (Num.ltb _ _) eqn:E; [done|]. apply NumFacts.ltb_ge in E.
  apply Forall_app. split; [done|]. by apply Forall_singleton.
Qed.

Lemma lu_step_skip n i LU pivot :
  (forall k, (i <= k < n)%nat -> Qcabs (mget LU k i) < Num.eps18) ->
  lu_step n i (LU, pivot) = (LU, pivot).
Proof.
  intros Hsmall. unfold lu_step.
  pose proof (find_pivot_spec LU n i) as Hspec.
  destruct (find_pivot LU n i) as [mx row].
  assert (mx < Num.eps18) as Hlt.
  { destruct Hspec as [_ [[-> _]|(Hrow & -> & _)]]; [apply eps18_pos|by apply Hsmall]. }
  by apply NumFacts.ltb_lt in Hlt as ->.
Qed.

Lemma solve_guarded_zero s b i :
  (i < lu_n s)%nat -> Qcabs (mget (lu_LU s) i i) < Num.eps22 ->
  LUSolver_solve s b !!! i = c 0.
Proof.
  intros Hi Hsmall. unfold LUSolver_solve. rewrite backward_spec by done.
  unfold back_value. by apply NumFacts.ltb_lt in Hsmall as ->.
Qed.

(** C8: the solver is total and never divides by a value below its
    guards.  The logged runs are the runs of the solver; every divisor of
    the factorization has magnitude at least [1e-18] and every divisor of
    a solve at least [1e-22]; a pivot column whose entries on and below the
    diagonal are all below [1e-18] is skipped, leaving the state as it is;
    a component whose diagonal entry is below [1e-22] is set to [0]; and
    [solve] returns a vector of length [n]. *)
Theorem LUSolver_guards (m : matrix) (b : vec) :
  let n := length m in
  let s := LUSolver_new m in
  fst (LUSolver_new_log m) = s
  /\ fst (LUSolver_solve_log s b) = LUSolver_solve s b
  /\ Forall (fun d => Num.eps18 <= Qcabs d) (snd (LUSolver_new_log m))
  /\ Forall (fun d => Num.eps22 <= Qcabs d) (snd (LUSolver_solve_log s b))
  /\ (forall i LU pivot,
        (forall k, (i <= k < n)%nat -> Qcabs (mget LU k i) < Num.eps18) ->
        lu_step n i (LU, pivot) = (LU, pivot))
  /\ (forall i, (i < n)%nat -> Qcabs (mget (lu_LU s) i i) < Num.eps22 ->
        LUSolver_solve s b !!! i = c 0)
  /\ lu_n s = n
  /\ length (LUSolver_solve s b) = n.
Proof.
  intros n s. split; [apply LUSolver_new_log_fst|].
  split; [apply LUSolver_solve_log_fst|].
  split; [apply LUSolver_new_log_guard|].
  split; [apply LUSolver_solve_log_guard|].
  split; [intros; by apply lu_step_skip|].
  split; [intros i Hi; apply solve_guarded_zero; subst s; by rewrite lu_n_new|].
  split; [apply lu_n_new|]. rewrite length_solve. apply lu_n_new.
Qed.

Lemma LUSolver_guards_witness :
  lu_step 2 0 (Examples.Z2, [0; 1]%nat) = (Examples.Z2, [0; 1]%nat)
  /\ LUSolver_solve (LUSolver_new Examples.Z2) Examples.b2 !!! 0%nat = c 0.
Proof.
  destruct (LUSolver_guards Examples.Z2 Examples.b2) as (_ & _ & _ & _ & Hskip & Hzero & _).
  split.
  - apply Hskip. intros k Hk. simpl in Hk.
    do 2 (destruct k as [|k]; [qc_closed|]). lia.
  - apply Hzero; [simpl; lia|]. qc_closed.
Defined.

(** * Mesh generation *)

(** ** The critical positions *)

Lemma fold_set_add_spec {A B} `{EqDecision A} (f : B -> A) (l : list B) (s0 : list A) :
  let s := fold_left (fun s b => set_add s (f b)) l s0 in
  (NoDup s0 -> NoDup s) /\ (forall x, x ∈ s <-> x ∈ s0 \/ exists b, b ∈ l /\ x = f b).
Proof.
  revert s0. induction l as [|b l IH]; intros s0; simpl.
  - split; [done|]. intros x. split; [by left|].
    intros [?|(b & Hb & _)]; [done|]. by apply elem_of_nil in Hb.
  - destruct (IH (set_add s0 (f b))) as [IH1 IH2]. split.
    + intros Hnd. apply IH1. by apply set_add_NoDup.
    + intros x. rewrite IH2, set_add_elem. split.
      * intros [[?| ->]|(b' & Hb' & ->)]; [by left| |].
        -- right. exists b. split; [apply list_elem_of_here|done].
        -- right. exists b'. split; [by apply list_elem_of_further|done].
      * intros [?|(b' & Hb' & ->)]; [by left; left|].
        apply elem_of_cons in Hb' as [->|Hb']; [by left; right|].
        right. by exists b'.
Qed.

Lemma criticalX_spec L probeX supports loads :
  let X := criticalX L probeX supports loads in
  NoDup X /\ forall x, x ∈ X <-> critical L probeX supports loads x.
Proof.
  unfold criticalX.
  set (s0 := fold_left set_add [c 0; L; probeX] []).
  assert (NoDup s0 /\ forall x, x ∈ s0 <-> x = c 0 \/ x = L \/ x = probeX) as [Hnd0 Hin0].
  { subst s0. simpl. split.
    - repeat apply set_add_NoDup. constructor.
    - intros x. rewrite !set_add_elem. rewrite elem_of_nil. tauto. }
  destruct (fold_set_add_spec s_position supports s0) as [Hnd1 Hin1].
  change (fun s b => set_add s (s_position b)) with add_support_position in *.
  set (s1 := fold_left add_support_position supports s0) in *.
  cbv zeta in Hnd1, Hin1.
  set (step := add_load_positions).
  assert (forall ls s,
    (NoDup s -> NoDup (fold_left step ls s))
    /\ (forall x, x ∈ fold_left step ls s <->
          x ∈ s \/ exists l, l ∈ ls /\
            (x = l_position l
             \/ (is_distributed (l_type l) = true /\ l_endPosition l = Some x)))) as Hloads.
  { induction ls as [|l ls IH]; intros s; simpl.
    - split; [done|]. intros x. split; [by left|].
      intros [?|(l & Hl & _)]; [done|]. by apply elem_of_nil in Hl.
    - destruct (IH (step s l)) as [IH1 IH2]. split.
      + intros Hnd. apply IH1. unfold step, add_load_positions.
        destruct (l_endPosition l), (is_distributed (l_type l));
          repeat apply set_add_NoDup; done.
      + intros x. rewrite IH2. split.
        * intros [Hx|(l' & Hl' & Hx)].
          -- unfold step, add_load_positions in Hx.
             destruct (l_endPosition l) as [e|] eqn:Ee;
               [destruct (is_distributed (l_type l)) eqn:Ed|];
               rewrite ?set_add_elem in Hx.
             ++ destruct Hx as [[?| ->]| ->]; [by left| |];
                  right; exists l; (split; [apply list_elem_of_here|]); [by left|by right].
             ++ destruct Hx as [?| ->]; [by left|].
                right; exists l; (split; [apply list_elem_of_here|]); by left.
             ++ destruct Hx as [?| ->]; [by left|].
                right; exists l; (split; [apply list_elem_of_here|]); by left.
          -- right. exists l'. split; [by apply list_elem_of_further|done].
        * intros [Hx|(l' & Hl' & Hx)].
          -- left. unfold step, add_load_positions.
             destruct (l_endPosition l), (is_distributed (l_type l));
               rewrite ?set_add_elem; tauto.
          -- apply elem_of_cons in Hl' as [->|Hl']; [|right; by exists l'].
             left. unfold step, add_load_positions. destruct Hx as [->|[Hd He]].
             ++ destruct (l_endPosition l), (is_distributed (l_type l));
                  rewrite ?set_add_elem; tauto.
             ++ rewrite He, Hd. rewrite set_add_elem. by right. }
  destruct (Hloads loads s1) as [Hnd2 Hin2]. split.
  - apply Hnd2, Hnd1, Hnd0.
  - intros x. rewrite Hin2, Hin1, Hin0. unfold critical. tauto.
Qed.

(** ** Sorting *)

Lemma sort_insert_perm x l : sort_insert x l ≡ₚ x :: l.
Proof.
  induction l as [|y l IH]; simpl; [done|].
  destruct (Num.leb x y); [done|]. rewrite IH. apply Permutation_swap.
Qed.

Lemma sort_asc_perm l : sort_asc l ≡ₚ l.
Proof.
  induction l as [|x l IH]; simpl; [done|].
  unfold sort_asc in *. simpl. by rewrite sort_insert_perm, IH.
Qed.

Lemma chain_tail R x l : chain R (x :: l) -> chain R l.
Proof. destruct l; simpl; tauto. Qed.

Lemma sort_insert_chain x l : chain Qcle l -> chain Qcle (sort_insert x l).
Proof.
  induction l as [|y l IH]; intros Hl; [done|].
  cbn [sort_insert]. destruct (Num.leb x y) eqn:E.
  - apply NumFacts.leb_le in E. by split.
  - apply NumFacts.leb_gt in E. apply Qclt_le_weak in E.
    specialize (IH (chain_tail _ _ _ Hl)).
    destruct l as [|z l]; [by split|].
    destruct Hl as [Hyz Hl]. cbn [sort_insert] in *.
    destruct (Num.leb x z) eqn:E'; by split.
Qed.

Lemma sort_asc_chain l : chain Qcle (sort_asc l).
Proof.
  induction l as [|x l IH]; [done|]. unfold sort_asc in *. simpl.
  by apply sort_insert_chain.
Qed.

Lemma chain_le_head a l x : chain Qcle (a :: l) -> x ∈ l -> a <= x.
Proof.
  revert a. induction l as [|y l IH]; intros a Hc Hx; [by apply elem_of_nil in Hx|].
  destruct Hc as [Hay Hc]. apply elem_of_cons in Hx as [->|Hx]; [done|].
  eapply Qcle_trans; [exact Hay|]. by apply IH.
Qed.

Lemma chain_le_strict l : chain Qcle l -> NoDup l -> chain Qclt l.
Proof.
  induction l as [|x l IH]; intros Hc Hnd; [done|].
  apply NoDup_cons in Hnd as [Hx Hnd].
  destruct l as [|y l]; [done|]. destruct Hc as [Hxy Hc]. split; [|by apply IH].
  apply Qcle_lt_or_eq in Hxy as [?| ->]; [done|].
  exfalso. apply Hx. apply list_elem_of_here.
Qed.

Lemma chain_lt_last a l z x :
  chain Qclt (a :: l) -> last (a :: l) = Some z -> x ∈ a :: l -> x <= z.
Proof.
  revert a x. induction l as [|y l IH]; intros a x Hc Hz Hx.
  - simpl in Hz. injection Hz as <-. apply list_elem_of_singleton in Hx as ->.
    apply Qcle_refl.
  - destruct Hc as [Hay Hc]. rewrite last_cons_cons in Hz.
    apply elem_of_cons in Hx as [->|Hx]; [|by apply (IH y)].
    eapply Qcle_trans; [by apply Qclt_le_weak|].
    apply (IH y y); [done|done|apply list_elem_of_here].
Qed.

(** The sorted critical positions: strictly increasing, from [0] to [L]. *)
Lemma sortedX_shape L (X : vec) :
  NoDup X -> c 0 ∈ X -> L ∈ X -> (forall x, x ∈ X -> c 0 <= x <= L) ->
  exists tl, sort_asc X = c 0 :: tl
             /\ chain Qclt (c 0 :: tl)
             /\ last (c 0 :: tl) = Some L
             /\ (forall x, x ∈ c 0 :: tl <-> x ∈ X).
Proof.
  intros Hnd H0 HL Hrange.
  pose proof (sort_asc_perm X) as Hperm.
  pose proof (sort_asc_chain X) as Hchain.
  assert (forall x, x ∈ sort_asc X <-> x ∈ X) as Hin by (intros x; by rewrite Hperm).
  assert (NoDup (sort_asc X)) as Hnd' by (by rewrite Hperm).
  apply chain_le_strict in Hchain as Hstrict; [|done].
  destruct (sort_asc X) as [|h tl] eqn:E.
  { apply Hin in H0. by apply elem_of_nil in H0. }
  assert (h = c 0) as ->.
  { apply Qcle_antisym.
    - apply Hin in H0. apply elem_of_cons in H0 as [->|H0]; [apply Qcle_refl|].
      by apply (chain_le_head h tl).
    - apply Hrange, Hin, list_elem_of_here. }
  exists tl. split; [done|]. split; [done|]. split; [|done].
  destruct (last (c 0 :: tl)) as [z|] eqn:Ez; [|by apply last_None in Ez].
  f_equal. apply Qcle_antisym.
  - apply Hrange, Hin. rewrite last_lookup in Ez. by eapply list_elem_of_lookup_2.
  - eapply chain_lt_last; [done|done|]. by apply Hin.
Qed.

(** ** Subdivision arithmetic *)

Lemma qz_le z1 z2 : (z1 <= z2)%Z -> c z1 <= c z2.
Proof.
  intros H. unfold Num.qz, Qcle. rewrite !NumFacts.this_Q2Qc. by rewrite <- Zle_Qle.
Qed.

Lemma qz_lt z1 z2 : (z1 < z2)%Z -> c z1 < c z2.
Proof.
  intros H. unfold Num.qz, Qclt. rewrite !NumFacts.this_Q2Qc. by rewrite <- Zlt_Qlt.
Qed.

Lemma qz_succ j : c (Z.of_nat (Datatypes.S j)) = c (Z.of_nat j) + 1.
Proof.
  unfold Num.qz. apply Qc_is_canon. rewrite NumFacts.this_plus, !NumFacts.this_Q2Qc.
  rewrite Nat2Z.inj_succ. unfold Z.succ. rewrite inject_Z_plus. reflexivity.
Qed.

Lemma minInterval_pos L : 0 < minInterval L.
Proof.
  unfold minInterval, Num.max. destruct (Num.ltb _ _) eqn:E.
  - apply NumFacts.ltb_lt in E. eapply Qclt_trans; [|exact E]. apply NumFacts.ltb_lt. by vm_compute.
  - apply NumFacts.ltb_lt. by vm_compute.
Qed.

Lemma numSub_ge_1 L a b : (1 <= numSub L a b)%Z.
Proof. unfold numSub. lia. Qed.

Lemma numSub_ceil L a b : (b - a) / minInterval L <= c (numSub L a b).
Proof.
  unfold numSub, Num.ceil.
  eapply Qcle_trans; [|apply qz_le, Z.le_max_r].
  unfold Num.qz, Qcle. rewrite NumFacts.this_Q2Qc. apply Qle_ceiling.
Qed.

Lemma qz_numSub_pos L a b : 0 < c (numSub L a b).
Proof. apply (qz_lt 0). pose proof (numSub_ge_1 L a b). lia. Qed.

(** The width of one sub-step: positive, and at most [minInterval]. *)
Lemma substep_bounds L a b :
  a < b ->
  let d := (b - a) / c (numSub L a b) in
  0 < d /\ d <= minInterval L.
Proof.
  intros Hab. cbv zeta.
  pose proof (minInterval_pos L) as Hmi.
  pose proof (qz_numSub_pos L a b) as HN.
  pose proof (numSub_ceil L a b) as Hceil.
  set (n := c (numSub L a b)) in *. set (mi := minInterval L) in *.
  assert (0 < b - a) as Hba by (by apply Qclt_minus_iff in Hab).
  assert (0 < / n) as Hinv by (by apply Qcinv_pos).
  split.
  - unfold Qcdiv. by apply Qcmult_pos_pos.
  - assert (mi <> 0) as Hmi0 by (intros E; rewrite E in Hmi; by apply Qclt_not_eq in Hmi).
    assert (n <> 0) as Hn0 by (intros E; rewrite E in HN; by apply Qclt_not_eq in HN).
    assert ((b - a) / n = ((b - a) / mi) * (mi / n)) as -> by (field; done).
    assert (n * (mi / n) = mi) as Hmi' by (field; done).
    eapply Qcle_trans; [|rewrite <- Hmi'; apply Qcle_refl].
    apply Qcmult_le_mono_nonneg_r; [|done].
    apply Qclt_le_weak. unfold Qcdiv. by apply Qcmult_pos_pos.
Qed.

Lemma point_0 a b N : point a b N 0 = a.
Proof. unfold point. change (c (Z.of_nat 0)) with 0. unfold Qcdiv. ring. Qed.

Lemma point_last a b N :
  (1 <= N)%Z -> point a b N (Z.to_nat N) = b.
Proof.
  intros HN. unfold point. rewrite Z2Nat.id by lia.
  assert (c N <> 0) as Hn0.
  { intros E. pose proof (qz_lt 0 N ltac:(lia)) as H. rewrite E in H.
    by apply Qclt_not_eq in H. }
  field. done.
Qed.

Lemma point_step a b N j :
  (1 <= N)%Z -> point a b N (Datatypes.S j) - point a b N j = (b - a) / c N.
Proof.
  intros HN. unfold point. rewrite qz_succ.
  assert (c N <> 0) as Hn0.
  { intros E. pose proof (qz_lt 0 N ltac:(lia)) as H. rewrite E in H.
    by apply Qclt_not_eq in H. }
  field. done.
Qed.

Lemma point_step_ok L a b j :
  a < b -> step_ok (minInterval L) (point a b (numSub L a b) j)
             (point a b (numSub L a b) (Datatypes.S j)).
Proof.
  intros Hab. destruct (substep_bounds L a b Hab) as [Hpos Hle].
  pose proof (point_step a b (numSub L a b) j (numSub_ge_1 L a b)) as Hstep.
  split.
  - apply Qclt_minus_iff. fold (Qcminus (point a b (numSub L a b) (Datatypes.S j))
                                 (point a b (numSub L a b) j)). by rewrite Hstep.
  - by rewrite Hstep.
Qed.

(** ** The nodes of one interval *)

Lemma subdivide_points L a b acc :
  subdivide L a b acc
  = acc ++ (point a b (numSub L a b) <$> seq 0 (Z.to_nat (numSub L a b))).
Proof.
  unfold subdivide. pose proof (numSub_ge_1 L a b) as HN.
  set (N := numSub L a b) in *.
  pose (P := fun (k : nat) (st : vec) => st = acc ++ (point a b N <$> seq 0 k)).
  apply (for_range_inv P); [lia| |].
  - unfold P. simpl. by rewrite point_0.
  - intros j st Hj ->. unfold P. rewrite seq_S, fmap_app, app_assoc. done.
Qed.

Lemma chain_fmap_seq R (f : nat -> Qc) lo len :
  (forall j, (lo <= j)%nat -> (Datatypes.S j < lo + len)%nat -> R (f j) (f (Datatypes.S j))) ->
  chain R (f <$> seq lo len).
Proof.
  revert lo. induction len as [|len IH]; intros lo H; [done|].
  destruct len as [|len]; [done|]. cbn [seq fmap list_fmap chain]. split.
  - apply H; lia.
  - apply (IH (Datatypes.S lo)). intros j Hj1 Hj2. apply H; lia.
Qed.

Lemma chain_app R l1 x l2 :
  chain R (l1 ++ [x]) -> chain R (x :: l2) -> chain R (l1 ++ x :: l2).
Proof.
  induction l1 as [|y l1 IH]; intros H1 H2; [done|].
  destruct l1 as [|z l1]; simpl in *; [tauto|].
  split; [tauto|]. apply IH; tauto.
Qed.

Lemma segment_chain L a b rest :
  a < b -> chain (step_ok (minInterval L)) (b :: rest) ->
  chain (step_ok (minInterval L)) (subdivide L a b [] ++ b :: rest).
Proof.
  intros Hab Hrest. rewrite subdivide_points. rewrite app_nil_l.
  apply chain_app; [|done].
  pose proof (point_last a b (numSub L a b) (numSub_ge_1 L a b)) as Hlast.
  assert ((point a b (numSub L a b) <$> seq 0 (Z.to_nat (numSub L a b))) ++ [b]
          = point a b (numSub L a b) <$> seq 0 (Datatypes.S (Z.to_nat (numSub L a b)))) as ->.
  { rewrite seq_S, fmap_app. simpl. by rewrite Hlast. }
  apply chain_fmap_seq. intros j _ _. by apply point_step_ok.
Qed.

Lemma subdivide_head L a b :
  exists tl, subdivide L a b [] = a :: tl.
Proof.
  rewrite subdivide_points. simpl. pose proof (numSub_ge_1 L a b) as HN.
  destruct (Z.to_nat (numSub L a b)) as [|k] eqn:E; [lia|].
  simpl. rewrite point_0. by eexists.
Qed.

(** ** The mesh *)

Lemma for_range_shift {S} lo hi (body : nat -> S -> S) s :
  for_range (Datatypes.S lo) (Datatypes.S hi) body s
  = for_range lo hi (fun i => body (Datatypes.S i)) s.
Proof.
  unfold for_range. replace (Datatypes.S hi - Datatypes.S lo)%nat with (hi - lo)%nat by lia.
  rewrite <- seq_shift. generalize (seq lo (hi - lo)). intros l. revert s.
  induction l as [|i l IH]; intros s; simpl; [done|]. apply IH.
Qed.

Lemma subdivide_acc L a b acc : subdivide L a b acc = acc ++ subdivide L a b [].
Proof. by rewrite (subdivide_points L a b acc), (subdivide_points L a b []). Qed.

Lemma mesh_loop_segments L xs acc : mesh_loop L xs acc = acc ++ segments L xs.
Proof.
  unfold mesh_loop. revert acc. induction xs as [|a tl IH]; intros acc.
  - simpl. rewrite for_range_nil by lia. by rewrite app_nil_r.
  - destruct tl as [|b tl].
    + simpl. rewrite for_range_nil by lia. by rewrite app_nil_r.
    + cbn [length segments]. replace (Datatypes.S (Datatypes.S (length tl)) - 1)%nat
        with (Datatypes.S (length tl)) by lia.
      rewrite for_range_cons by lia. rewrite for_range_shift.
      cbn [length] in IH. replace (Datatypes.S (length tl) - 1)%nat with (length tl) in IH by lia.
      cbn [lookup_total list_lookup_total Nat.add].
      rewrite subdivide_acc. rewrite app_assoc. rewrite <- IH.
      done.
Qed.

Lemma mesh_segments L xs : mesh L xs = segments L xs ++ [L].
Proof. unfold mesh. by rewrite mesh_loop_segments. Qed.

Lemma segments_cons L a b tl :
  segments L (a :: b :: tl) = subdivide L a b [] ++ segments L (b :: tl).
Proof. reflexivity. Qed.

Lemma segments_chain L a tl z :
  chain Qclt (a :: tl) -> last (a :: tl) = Some z ->
  exists rest, segments L (a :: tl) ++ [z] = a :: rest
               /\ chain (step_ok (minInterval L)) (a :: rest)
               /\ (forall x, x ∈ a :: tl -> x ∈ a :: rest).
Proof.
  revert a. induction tl as [|b tl IH]; intros a Hc Hz.
  - simpl in Hz. injection Hz as <-. exists []. split; [done|]. split; done.
  - destruct Hc as [Hab Hc]. rewrite last_cons_cons in Hz.
    destruct (IH b Hc Hz) as (rest & Heq & Hchain & Hin).
    destruct (subdivide_head L a b) as [tl0 Htl0].
    exists (tl0 ++ b :: rest). rewrite segments_cons. rewrite <- app_assoc, Heq. split; [|split].
    + by rewrite Htl0.
    + rewrite app_comm_cons, <- Htl0. by apply segment_chain.
    + intros x Hx. apply elem_of_cons in Hx as [->|Hx]; [apply list_elem_of_here|].
      rewrite app_comm_cons. apply elem_of_app. right. by apply Hin.
Qed.

(** ** From adjacent steps to positions *)

Lemma chain_lookup R (l : vec) i :
  chain R l -> (Datatypes.S i < length l)%nat -> R (l !!! i) (l !!! Datatypes.S i).
Proof.
  revert i. induction l as [|x l IH]; intros i Hc Hi; [simpl in Hi; lia|].
  destruct l as [|y l]; [simpl in Hi; lia|]. destruct Hc as [Hxy Hc].
  destruct i as [|i]; [done|]. apply (IH i Hc). simpl in *. lia.
Qed.

Lemma chain_increasing mi (l : vec) i j :
  chain (step_ok mi) l -> (i < j < length l)%nat -> l !!! i < l !!! j.
Proof.
  intros Hc [Hij Hj]. induction j as [|j IH]; [lia|].
  pose proof (chain_lookup _ l j Hc Hj) as [Hstep _].
  destruct (decide (i = j)) as [->|Hne]; [done|].
  eapply Qclt_trans; [|exact Hstep]. apply IH; lia.
Qed.

Lemma chain_NoDup mi (l : vec) : chain (step_ok mi) l -> NoDup l.
Proof.
  intros Hc. apply NoDup_alt. intros i j x Hi Hj.
  destruct (Nat.lt_total i j) as [Hlt|[?|Hlt]]; [|done|]; exfalso.
  - pose proof (chain_increasing mi l i j Hc) as H.
    rewrite (list_lookup_total_correct _ _ _ Hi), (list_lookup_total_correct _ _ _ Hj) in H.
    apply lookup_lt_Some in Hj. apply (Qclt_not_eq x x); [apply H; lia|done].
  - pose proof (chain_increasing mi l j i Hc) as H.
    rewrite (list_lookup_total_correct _ _ _ Hi), (list_lookup_total_correct _ _ _ Hj) in H.
    apply lookup_lt_Some in Hi. apply (Qclt_not_eq x x); [apply H; lia|done].
Qed.

(** The node sequence of a call on positions within [[0, L]]. *)
Lemma finalNodes_contract L probeX supports loads :
  (forall x, critical L probeX supports loads x -> c 0 <= x <= L) ->
  let ns := finalNodes L probeX supports loads in
  chain (step_ok (minInterval L)) ns
  /\ head ns = Some (c 0) /\ last ns = Some L
  /\ (forall x, critical L probeX supports loads x -> x ∈ ns).
Proof.
  intros Hrange. cbv zeta. unfold finalNodes.
  destruct (criticalX_spec L probeX supports loads) as [Hnd Hin].
  set (X := criticalX L probeX supports loads) in *.
  destruct (sortedX_shape L X) as (tl & Hsort & Hchain & Hlast & Hmem).
  { done. }
  { apply Hin. by left. }
  { apply Hin. right. by left. }
  { intros x Hx. by apply Hrange, Hin. }
  rewrite Hsort, mesh_segments.
  destruct (segments_chain L (c 0) tl L Hchain Hlast) as (rest & Heq & Hsteps & Hsub).
  rewrite Heq. split; [done|]. split; [done|]. split.
  - rewrite <- Heq. apply last_snoc.
  - intros x Hx. apply Hsub, Hmem, Hin, Hx.
Qed.


(** C2: for a call whose support positions, load positions, load end
    positions and probe all lie in [[0, L]], the node sequence is strictly
    increasing, begins with [0] and ends with [L], contains the probe,
    every support position and every boundary of every load (the end of a
    UDL or UVL included) exactly once and exactly as given, and no two
    adjacent nodes are further apart than [minInterval = max(0.1, L/100)]. *)
Theorem mesh_contract config supports loads probeX r :
  analyzeBeam config supports loads probeX = Return r ->
  let L := cfg_length config in
  c 0 <= probeX <= L ->
  (forall s, s ∈ supports -> c 0 <= s_position s <= L) ->
  (forall l, l ∈ loads -> c 0 <= l_position l <= L) ->
  (forall l e, l ∈ loads -> l_endPosition l = Some e -> c 0 <= e <= L) ->
  let ns := nodes r in
  (forall i j, (i < j < length ns)%nat -> ns !!! i < ns !!! j)
  /\ head ns = Some (c 0) /\ last ns = Some L
  /\ NoDup ns
  /\ probeX ∈ ns
  /\ (forall s, s ∈ supports -> s_position s ∈ ns)
  /\ (forall l, l ∈ loads -> l_position l ∈ ns)
  /\ (forall l e, l ∈ loads -> is_distributed (l_type l) = true ->
        l_endPosition l = Some e -> e ∈ ns)
  /\ (forall i, (Datatypes.S i < length ns)%nat ->
        ns !!! Datatypes.S i - ns !!! i <= Num.max Num.tenth (L / c 100)).
Proof.
  intros Hret L Hprobe Hsup Hload Hend ns.
  apply analyzeBeam_inv in Hret as [Hgeom ->]. subst ns. rewrite analyze_nodes. fold L.
  assert (c 0 <= L) as HL by (eapply Qcle_trans; apply Hprobe).
  destruct (finalNodes_contract L probeX supports loads) as (Hchain & Hhd & Hlast & Hin).
  { intros x [->|[->|[->|[(s & Hs & ->)|(l & Hl & [->|[_ He]])]]]].
    - split; [apply Qcle_refl|done].
    - split; [done|apply Qcle_refl].
    - done.
    - by apply Hsup.
    - by apply Hload.
    - by apply (Hend l). }
  set (ns := finalNodes L probeX supports loads) in *.
  split; [intros i j Hij; by apply (chain_increasing (minInterval L))|].
  split; [done|]. split; [done|].
  split; [by apply (chain_NoDup (minInterval L))|].
  split; [apply Hin; right; right; by left|].
  split; [intros s Hs; apply Hin; do 3 right; left; by exists s|].
  split; [intros l Hl; apply Hin; do 4 right; exists l; split; [done|by left]|].
  split; [intros l e Hl Hd He; apply Hin; do 4 right; exists l; split; [done|by right]|].
  intros i Hi. by apply (chain_lookup _ ns i Hchain Hi).
Qed.

Lemma mesh_contract_witness :
  analyzeBeam Examples.section_ok Examples.pinned_roller Examples.udl Examples.mid
  = Return Examples.result_udl
  /\ c 0 <= Examples.mid <= Num.tenth
  /\ Examples.mid ∈ nodes Examples.result_udl
  /\ last (nodes Examples.result_udl) = Some Num.tenth.
Proof.
  assert (analyzeBeam Examples.section_ok Examples.pinned_roller Examples.udl Examples.mid
          = Return Examples.result_udl) as Hret by (apply analyzeBeam_Return; by vm_compute).
  assert (c 0 <= Examples.mid <= Num.tenth) as Hprobe by (split; qc_closed).
  split; [exact Hret|]. split; [exact Hprobe|].
  destruct (mesh_contract Examples.section_ok Examples.pinned_roller Examples.udl
              Examples.mid Examples.result_udl Hret Hprobe)
    as (_ & _ & Hlast & _ & Hin & _).
  - intros s Hs. unfold Examples.pinned_roller in Hs.
    rewrite !elem_of_cons, elem_of_nil in Hs.
    destruct Hs as [->|[->|[]]]; split; qc_closed.
  - intros l Hl. unfold Examples.udl in Hl.
    rewrite !elem_of_cons, elem_of_nil in Hl.
    destruct Hl as [->|[]]; split; qc_closed.
  - intros l e Hl He. unfold Examples.udl in Hl.
    rewrite !elem_of_cons, elem_of_nil in Hl.
    destruct Hl as [->|[]]. injection He as <-. split; qc_closed.
  - split; [exact Hin|exact Hlast].
Defined.

(** ** Influence lines *)

Lemma ild_init_keep supports (m : gmap string (list ILDPoint)) k :
  m !! k = Some [] -> fold_left ild_init_step supports m !! k = Some [].
Proof.
  revert m. induction supports as [|s ss IH]; intros m Hm; simpl; [done|].
  apply IH. unfold ild_init_step. destruct (non_hinge s); [|done].
  destruct (decide (s_id s = k)) as [->|Hne].
  - by rewrite lookup_insert_eq.
  - by rewrite lookup_insert_ne.
Qed.

Lemma ild_init_lookup supports s :
  s ∈ supports -> non_hinge s = true -> ild_init supports !! s_id s = Some [].
Proof.
  unfold ild_init. generalize (∅ : gmap string (list ILDPoint)).
  induction supports as [|s' ss IH]; intros m Hs Hnh; [by apply elem_of_nil in Hs|].
  simpl. apply elem_of_cons in Hs as [<-|Hs].
  - unfold ild_init_step at 2. rewrite Hnh. apply ild_init_keep. by rewrite lookup_insert_eq.
  - by apply IH.
Qed.

Lemma push_reactions_lookup (pt : Support -> ILDPoint) supports
    (m : gmap string (list ILDPoint)) k :
  fold_left (fun m s => if non_hinge s then push_at (s_id s) (pt s) m else m) supports m !! k
  = (fun a => a ++ (pt <$> with_id k supports)) <$> (m !! k).
Proof.
  revert m. induction supports as [|s ss IH]; intros m.
  - simpl. destruct (m !! k); simpl; [by rewrite app_nil_r|done].
  - cbn [fold_left]. rewrite IH. unfold with_id. cbn [List.filter].
    destruct (non_hinge s); cbn [andb]; [|done].
    unfold push_at. destruct (decide (s_id s = k)) as [->|Hne].
    + rewrite lookup_alter_eq. rewrite bool_decide_eq_true_2 by done.
      destruct (m !! k); simpl; [|done]. by rewrite <- app_assoc.
    + rewrite lookup_alter_ne by done. by rewrite bool_decide_eq_false_2.
Qed.

Section Sweep.
Variables (L EI probeX : Qc) (fnodes : vec) (hs : list nat).
Variables (penalty : Qc) (solver : LUSolver) (supports : list Support).

Let x := station L.
Let U := U_ild L EI fnodes hs solver.
Let probe i := probe_internal EI probeX fnodes hs (x i) (U i).
Let step := ild_step L EI probeX fnodes hs penalty solver supports.

Lemma ild_sweep_fold (stations : list nat) (st : ild_state) :
  let st' := fold_left (fun st i => step i st) stations st in
  st_shear st' = st_shear st ++ ((fun i => mkILD (x i) (fst (probe i))) <$> stations)
  /\ st_moment st' = st_moment st ++ ((fun i => mkILD (x i) (snd (probe i))) <$> stations)
  /\ forall k,
       st_reactions st' !! k
       = (fun a => a ++ concat ((fun i => reaction_point fnodes penalty (x i) (U i)
                                            <$> with_id k supports) <$> stations))
           <$> (st_reactions st !! k).
Proof.
  revert st. induction stations as [|i js IH]; intros st; cbv zeta.
  - simpl. rewrite !app_nil_r. split; [done|]. split; [done|].
    intros k. destruct (st_reactions st !! k); simpl; [by rewrite app_nil_r|done].
  - cbn [fold_left]. destruct (IH (step i st)) as (H1 & H2 & H3). cbv zeta in H1, H2, H3.
    rewrite H1, H2. split; [|split].
    + subst step. unfold ild_step. cbn [st_shear]. by rewrite <- app_assoc.
    + subst step. unfold ild_step. cbn [st_moment]. by rewrite <- app_assoc.
    + intros k. rewrite H3. subst step. unfold ild_step, push_reactions. cbn [st_reactions].
      rewrite push_reactions_lookup.
      destruct (st_reactions st !! k); simpl; [|done]. by rewrite <- app_assoc.
Qed.

Lemma with_id_single s :
  s ∈ supports -> non_hinge s = true -> length (with_id (s_id s) supports) = 1%nat ->
  with_id (s_id s) supports = s :: [].
Proof.
  intros Hs Hnh Hlen.
  assert (s ∈ with_id (s_id s) supports) as Hin.
  { unfold with_id. apply list_elem_of_In, filter_In. split; [by apply list_elem_of_In|].
    rewrite Hnh. by rewrite bool_decide_eq_true_2. }
  destruct (with_id (s_id s) supports) as [|s' [|? ?]]; try done.
  by apply list_elem_of_singleton in Hin as ->.
Qed.

Lemma concat_fmap_singleton {A B} (f : A -> B) (l : list A) :
  concat ((fun a => f a :: []) <$> l) = f <$> l.
Proof. induction l as [|a l IH]; [done|]. cbn [fmap list_fmap concat]. by rewrite IH. Qed.

Lemma ild_sweep_spec :
  let st' := for_range 0 31 step (mkIld (ild_init supports) [] []) in
  st_shear st' = (fun i => mkILD (x i) (fst (probe i))) <$> seq 0 31
  /\ st_moment st' = (fun i => mkILD (x i) (snd (probe i))) <$> seq 0 31
  /\ forall s, s ∈ supports -> non_hinge s = true ->
       length (with_id (s_id s) supports) = 1%nat ->
       st_reactions st' !! s_id s
       = Some ((fun i => reaction_point fnodes penalty (x i) (U i) s) <$> seq 0 31).
Proof.
  cbv zeta. unfold for_range.
  destruct (ild_sweep_fold (seq 0 (31 - 0)) (mkIld (ild_init supports) [] []))
    as (H1 & H2 & H3). cbv zeta in H1, H2, H3.
  split; [done|]. split; [done|].
  intros s Hs Hnh Hone. rewrite H3. cbn [st_reactions].
  rewrite ild_init_lookup by done. rewrite with_id_single by done.
  cbn [fmap option_fmap option_map app].
  by rewrite <- (concat_fmap_singleton (fun i => reaction_point fnodes penalty (x i) (U i) s)).
Qed.
End Sweep.

Lemma analyze_ild L EI probeX supports loads :
  let r := analyze L EI probeX supports loads in
  let start := mkIld (ild_init supports) [] [] in
  let sweep :=
    if isStable r
    then for_range 0 31
           (ild_step L EI probeX (nodes r) (hingeNodes (nodes r) supports) (Num.e18 * EI)
              (factorization L EI probeX supports loads) supports) start
    else start in
  ildReactions r = st_reactions sweep
  /\ ildShearAtProbe r = st_shear sweep
  /\ ildMomentAtProbe r = st_moment sweep.
Proof. done. Qed.

Lemma station_formula L i : station L i = c (Z.of_nat i) * L / c 30.
Proof. unfold station. field. by vm_compute. Qed.

Lemma station_increasing L i j : 0 < L -> (i < j)%nat -> station L i < station L j.
Proof.
  intros HL Hij. rewrite !station_formula. apply Qclt_minus_iff.
  assert (c (Z.of_nat i) < c (Z.of_nat j)) as Hc by (apply qz_lt; lia).
  apply Qclt_minus_iff in Hc.
  assert (c (Z.of_nat j) * L / c 30 + - (c (Z.of_nat i) * L / c 30)
          = (c (Z.of_nat j) + - c (Z.of_nat i)) * (L * / c 30)) as ->
    by (field; by vm_compute).
  apply Qcmult_pos_pos; [done|]. apply Qcmult_pos_pos; [done|].
  apply Qcinv_pos. apply NumFacts.ltb_lt. by vm_compute.
Qed.

(** C7 (amended): influence lines are generated exactly when the result is
    classified stable.  Then [ildShearAtProbe], [ildMomentAtProbe] and the
    [ildReactions] series of every non-HINGE support whose id no other
    non-HINGE support carries hold 31 points, at the stations
    [x_i = i * L / 30], [i = 0..30], in increasing order; when the result is
    not stable all these series are empty, every non-HINGE support still
    having its (empty) entry.  At a station [x] the probe ordinates are
    recovered from the right of the probe when [x <= probeX] and from the
    left when [x > probeX]. *)
Theorem influence_lines config supports loads probeX r :
  analyzeBeam config supports loads probeX = Return r ->
  let L := cfg_length config in
  let EI := flexural_rigidity config in
  let hs := hingeNodes (nodes r) supports in
  let x := station L in
  let U := U_ild L EI (nodes r) hs (factorization L EI probeX supports loads) in
  let probe i := probe_internal EI probeX (nodes r) hs (x i) (U i) in
  (isStable r = true ->
     ildShearAtProbe r = (fun i => mkILD (x i) (fst (probe i))) <$> seq 0 31
     /\ ildMomentAtProbe r = (fun i => mkILD (x i) (snd (probe i))) <$> seq 0 31
     /\ forall s, s ∈ supports -> non_hinge s = true ->
          length (with_id (s_id s) supports) = 1%nat ->
          ildReactions r !! s_id s
          = Some ((fun i => reaction_point (nodes r) (Num.e18 * EI) (x i) (U i) s)
                    <$> seq 0 31))
  /\ (isStable r = false ->
      ildShearAtProbe r = [] /\ ildMomentAtProbe r = []
      /\ forall s, s ∈ supports -> non_hinge s = true ->
           ildReactions r !! s_id s = Some [])
  /\ (forall i, x i = c (Z.of_nat i) * L / c 30)
  /\ (forall i j, (i < j)%nat -> x i < x j)
  /\ (forall i,
        (x i <= probeX ->
         probe i = getInternalAt EI (nodes r) hs (U i) probeX (unitLoad (x i)) right_side)
        /\ (probeX < x i ->
            probe i = getInternalAt EI (nodes r) hs (U i) probeX (unitLoad (x i)) left_side)).
Proof.
  intros Hret L EI hs x U probe. apply analyzeBeam_inv in Hret as [Hgeom ->].
  fold L EI in hs, U, probe |- *.
  destruct (analyze_ild L EI probeX supports loads) as (HR & HS & HM).
  cbv zeta in HR, HS, HM. rewrite HR, HS, HM.
  split; [|split; [|split; [|split]]].
  - intros Hst. rewrite Hst.
    apply (ild_sweep_spec L EI probeX (nodes (analyze L EI probeX supports loads)) hs).
  - intros Hst. rewrite Hst. cbn [st_shear st_moment st_reactions].
    split; [done|]. split; [done|]. intros s Hs Hnh. by apply ild_init_lookup.
  - intros i. apply station_formula.
  - intros i j Hij. apply station_increasing; [|done].
    unfold invalid_geometry in Hgeom. apply orb_false_iff in Hgeom as [HL _].
    by apply NumFacts.leb_gt in HL.
  - intros i. unfold probe, probe_internal. split.
    + intros Hle. by apply NumFacts.leb_le in Hle as ->.
    + intros Hgt. by apply NumFacts.leb_gt in Hgt as ->.
Qed.

Lemma influence_lines_witness :
  analyzeBeam Examples.section_ok Examples.fixed_roller Examples.udl Examples.mid
  = Return Examples.result_propped
  /\ isStable Examples.result_propped = true
  /\ length (ildShearAtProbe Examples.result_propped) = 31%nat
  /\ length (ildMomentAtProbe Examples.result_propped) = 31%nat.
Proof.
  assert (analyzeBeam Examples.section_ok Examples.fixed_roller Examples.udl Examples.mid
          = Return Examples.result_propped) as Hret
    by (apply analyzeBeam_Return; vm_compute; reflexivity).
  assert (isStable Examples.result_propped = true) as Hst by (vm_compute; reflexivity).
  split; [exact Hret|]. split; [exact Hst|].
  destruct (influence_lines _ _ _ _ _ Hret) as (Hstable & _).
  destruct (Hstable Hst) as (HS & HM & _).
  rewrite HS, HM. rewrite !length_fmap, length_seq. split; reflexivity.
Defined.

(** Counterexample to C7 as first stated: two non-HINGE supports that carry
    the same id share one series, which receives two points per station. *)
Lemma influence_lines_counterexample :
  exists r,
    analyzeBeam Examples.section_ok Examples.twin_ids Examples.udl Examples.mid = Return r
    /\ isStable r = true
    /\ exists s, s ∈ Examples.twin_ids /\ non_hinge s = true
                 /\ length <$> (ildReactions r !! s_id s) = Some 62%nat.
Proof.
  eexists. split; [apply analyzeBeam_Return; vm_compute; reflexivity|].
  split; [vm_compute; reflexivity|].
  exists (mkSupport "a" FIXED (c 0)). split; [apply list_elem_of_here|].
  split; [reflexivity|]. vm_compute. reflexivity.
Qed.

(** ** The classification of the textbook beams *)

(** C6 (code defect): the simply supported beam the application starts
    with (one PINNED and one ROLLER support, no hinge) is returned with
    determinacy [-1] and [isStable = false], where the claim has [0], and
    no influence line is generated for it: all three series stay empty.
    A propped cantilever (one FIXED and one ROLLER support) is returned
    with determinacy [0], where the claim has [1].  Line 293 counts one
    reaction for a PINNED support, its vertical one, and line 323 takes
    all three equilibrium equations of the plane from that count. *)
Theorem determinacy_simply_supported_divergence :
  (exists r,
     analyzeBeam Examples.INITIAL_CONFIG Examples.INITIAL_SUPPORTS Examples.INITIAL_LOADS
       Examples.initial_poi = Return r
     /\ determinacy r = (-1)%Z /\ isStable r = false
     /\ ildReactions r !! "1" = Some [] /\ ildReactions r !! "2" = Some []
     /\ ildShearAtProbe r = [] /\ ildMomentAtProbe r = [])
  /\ (exists r,
       analyzeBeam Examples.section_ok Examples.fixed_roller Examples.udl Examples.mid
       = Return r
       /\ determinacy r = 0%Z /\ isStable r = true).
Proof.
  split.
  - eexists. split; [apply analyzeBeam_Return; by vm_compute|].
    set (L := cfg_length Examples.INITIAL_CONFIG).
    set (EI := flexural_rigidity Examples.INITIAL_CONFIG).
    destruct (determinacy_simple_cases L EI Examples.initial_poi Examples.INITIAL_SUPPORTS
                Examples.INITIAL_LOADS eq_refl) as [[Hd Hs] _]; [reflexivity..|].
    destruct (analyze_ild L EI Examples.initial_poi Examples.INITIAL_SUPPORTS
                Examples.INITIAL_LOADS) as (HR & HV & HM).
    cbv zeta in HR, HV, HM. rewrite Hs in HR, HV, HM.
    rewrite HR, HV, HM. repeat split; try done.
  - eexists. split; [apply analyzeBeam_Return; by vm_compute|].
    by destruct (determinacy_simple_cases Num.tenth
                  (flexural_rigidity Examples.section_ok) Examples.mid
                  Examples.fixed_roller Examples.udl eq_refl) as [_ [Hd Hs]].
Qed.

(** ** The store reading of the call *)

Section StoreLogic.
Import Store.
Local Open Scope nat_scope.

(** The rules of [wp], one per primitive of the store monad. *)

Lemma wp_ret {A} h0 l (a : A) Q : Q a l -> wp h0 l (mret a) Q.
Proof. intros H. exists l. done. Qed.

Lemma wp_bind {A B} h0 l (p : M A) (k : A -> M B) Q :
  wp h0 l p (fun a l' => wp h0 l' (k a) Q) -> wp h0 l (p ≫= k) Q.
Proof.
  intros (l' & Hl' & (l'' & Hl'' & HQ)). exists l''.
  unfold mbind, M_bind. destruct (p (h0 ++ l)) as [h' a]. simpl in *. subst h'. done.
Qed.

Lemma wp_new h0 l o Q :
  Q (length h0 + length l) (l ++ [o]) -> wp h0 l (new o) Q.
Proof.
  intros H. exists (l ++ [o]). unfold new. cbn [fst snd]. rewrite length_app, app_assoc. done.
Qed.

Lemma wp_update h0 l k f Q :
  Q tt (alter f k l) -> wp h0 l (update (length h0 + k) f) Q.
Proof.
  intros H. exists (alter f k l). unfold update. cbn [fst snd]. by rewrite alter_app_r.
Qed.

Lemma wp_read {A} h0 l (get : store -> ref -> A) r Q :
  Q (get (h0 ++ l) r) l -> wp h0 l (read get r) Q.
Proof. intros H. exists l. done. Qed.

Lemma wp_mono {A} h0 l (p : M A) (Q R : A -> list obj -> Prop) :
  (forall a l', Q a l' -> R a l') -> wp h0 l p Q -> wp h0 l p R.
Proof. intros H (l' & Hl' & HQ). exists l'. split; [done|]. by apply H. Qed.

Lemma wp_for_m h0 l lo hi body (I : nat -> list obj -> Prop) Q :
  lo <= hi ->
  I lo l ->
  (forall i l, lo <= i < hi -> I i l -> wp h0 l (body i) (fun _ l' => I (Datatypes.S i) l')) ->
  (forall l', I hi l' -> Q tt l') ->
  wp h0 l (for_m lo hi body) Q.
Proof.
  intros Hle H0 Hstep HQ. unfold wp, for_m. cbn [fst snd].
  assert (exists l', for_range lo hi (fun i h => (body i h).1) (h0 ++ l) = h0 ++ l' /\ I hi l')
    as (l' & -> & Hl').
  { apply (for_range_inv (fun i h => exists l', h = h0 ++ l' /\ I i l')); [done| |].
    - by exists l.
    - intros i h Hi (l1 & -> & Hl1). destruct (Hstep i l1 Hi Hl1) as (l2 & Hl2 & HI).
      by exists l2. }
  exists l'. split; [done|]. by apply HQ.
Qed.

Lemma nums_local h0 l k : nums (h0 ++ l) (length h0 + k) = nums l k.
Proof. unfold nums. by rewrite lookup_app_r, Nat.add_comm, Nat.add_sub by lia. Qed.
Lemma nats_local h0 l k : nats (h0 ++ l) (length h0 + k) = nats l k.
Proof. unfold nats. by rewrite lookup_app_r, Nat.add_comm, Nat.add_sub by lia. Qed.
Lemma mat_local h0 l k : mat (h0 ++ l) (length h0 + k) = mat l k.
Proof. unfold mat. by rewrite lookup_app_r, Nat.add_comm, Nat.add_sub by lia. Qed.
Lemma solver_local h0 l k : solver_at (h0 ++ l) (length h0 + k) = solver_at l k.
Proof. unfold solver_at. by rewrite lookup_app_r, Nat.add_comm, Nat.add_sub by lia. Qed.
Lemma reactions_local h0 l k : reactions_at (h0 ++ l) (length h0 + k) = reactions_at l k.
Proof. unfold reactions_at. by rewrite lookup_app_r, Nat.add_comm, Nat.add_sub by lia. Qed.
Lemma series_local h0 l k : series_at (h0 ++ l) (length h0 + k) = series_at l k.
Proof. unfold series_at. by rewrite lookup_app_r, Nat.add_comm, Nat.add_sub by lia. Qed.
Lemma series_map_local h0 l k : series_map_at (h0 ++ l) (length h0 + k) = series_map_at l k.
Proof. unfold series_map_at. by rewrite lookup_app_r, Nat.add_comm, Nat.add_sub by lia. Qed.

Lemma config_kept h0 l r : r < length h0 -> config_at (h0 ++ l) r = config_at h0 r.
Proof. intros Hr. unfold config_at. by rewrite lookup_app_l. Qed.

Lemma elements_kept {A} (get : obj -> option A) h0 l rs :
  Forall (fun r => r < length h0) rs ->
  omap (fun r => (h0 ++ l) !! r ≫= get) rs = omap (fun r => h0 !! r ≫= get) rs.
Proof.
  induction 1 as [|r rs Hr _ IH]; [done|].
  cbn [omap list_omap]. by rewrite IH, lookup_app_l.
Qed.

Lemma supports_kept h0 l r :
  Forall (fun r => r < length h0) (r :: refs_at h0 r) ->
  supports_at (h0 ++ l) r = supports_at h0 r.
Proof.
  intros [Hr Hrs]%Forall_cons. unfold supports_at, refs_at in *.
  rewrite lookup_app_l by done. destruct (h0 !! r) as [[]|]; try done.
  pose proof (elements_kept (fun o => match o with OSupport s => Some s | _ => None end)
                h0 l rs Hrs) as H.
  etrans; [etrans; [|exact H]|]; apply list_omap_ext; try done;
    apply Forall2_same_length_lookup_2; try done; intros i x y -> [= ->];
    by destruct (_ !! y) as [[]|].
Qed.

Lemma loads_kept h0 l r :
  Forall (fun r => r < length h0) (r :: refs_at h0 r) ->
  loads_at (h0 ++ l) r = loads_at h0 r.
Proof.
  intros [Hr Hrs]%Forall_cons. unfold loads_at, refs_at in *.
  rewrite lookup_app_l by done. destruct (h0 !! r) as [[]|]; try done.
  pose proof (elements_kept (fun o => match o with OLoad s => Some s | _ => None end)
                h0 l rs Hrs) as H.
  etrans; [etrans; [|exact H]|]; apply list_omap_ext; try done;
    apply Forall2_same_length_lookup_2; try done; intros i x y -> [= ->];
    by destruct (_ !! y) as [[]|].
Qed.

End StoreLogic.

(** ** The store reading refines the first reading *)

Section StoreRun.
Local Abbreviation analyze_pure := analyze.
Local Abbreviation analyzeBeam_pure := analyzeBeam.
Import Store.

Lemma nums_cons o l k : nums (o :: l) (Datatypes.S k) = nums l k.
Proof. reflexivity. Qed.
Lemma nums_last l v : nums (l ++ [ONums v]) (length l) = v.
Proof. unfold nums. by rewrite list_lookup_middle. Qed.

Ltac wp_simpl :=
  cbv beta;
  rewrite ?nums_local, ?nats_local, ?mat_local, ?solver_local;
  repeat rewrite nums_cons; rewrite ?nums_last;
  cbn [length app Nat.add alter list_alter on_nums on_nats on_matrix on_series
       on_series_map nums nats mat solver_at lookup list_lookup].

Ltac wp_step :=
  lazymatch goal with
  | |- wp _ _ (mbind _ _) _ => apply wp_bind
  | |- wp _ _ (new _) _ => apply wp_new; wp_simpl
  | |- wp _ _ (update _ _) _ => apply wp_update; wp_simpl
  | |- wp _ _ (read _ _) _ => apply wp_read; wp_simpl
  | |- wp _ _ (mret _) _ => apply wp_ret; wp_simpl
  end.

Lemma fill_step (f : nat -> Qc) n i :
  (i < n)%nat ->
  <[i := f i]> ((f <$> seq 0 i) ++ zeros (n - i)) = (f <$> seq 0 (Datatypes.S i)) ++ zeros (n - Datatypes.S i).
Proof.
  intros Hi. rewrite seq_S, fmap_app, <- app_assoc. cbn [fmap list_fmap Nat.add app].
  replace (n - i)%nat with (Datatypes.S (n - Datatypes.S i)) by lia.
  unfold zeros. cbn [replicate].
  rewrite insert_app_r_alt by (rewrite length_fmap, length_seq; lia).
  rewrite length_fmap, length_seq, Nat.sub_diag. done.
Qed.

Lemma analyze_wp h0 L EI probeX sups lds :
  wp h0 [] (Store.analyze L EI probeX sups lds)
    (fun res l' =>
       Forall (fun r => (length h0 <= r < length h0 + length l')%nat) (refs_of res)
       /\ read_back (h0 ++ l') res = analyze_pure L EI probeX sups lds).
Proof.
  unfold Store.analyze.
  repeat wp_step.
  change (fold_left add_load_positions lds
            (fold_left add_support_position sups (fold_left set_add [c 0; L; probeX] [])))
    with (criticalX L probeX sups lds).
  change (mesh_loop L (sort_asc (criticalX L probeX sups lds)) [] ++ [L])
    with (finalNodes L probeX sups lds).
  set (fnodes := finalNodes L probeX sups lds).
  change (fold_left (hinge_step fnodes) sups []) with (hingeNodes fnodes sups).
  set (hs := hingeNodes fnodes sups).
  change (for_range 0 (length fnodes - 1) (assemble_element EI fnodes hs)
            (zero_matrix (length fnodes * 2)))
    with (assemble EI fnodes hs).
  change (apply_supports (Num.e18 * EI) fnodes sups (assemble EI fnodes hs))
    with (stiffness L EI probeX sups lds).
  change (LUSolver_new (stiffness L EI probeX sups lds))
    with (factorization L EI probeX sups lds).
  change (LUSolver_solve (factorization L EI probeX sups lds)
            (buildLoadVector EI fnodes hs lds))
    with (displacements L EI probeX sups lds).
  set (U := displacements L EI probeX sups lds).
  set (slv := factorization L EI probeX sups lds).
  set (n := length fnodes).
  set (f1 := fun i => (getInternalAt EI fnodes hs U (fnodes !!! i) lds left_side).1).
  set (f2 := fun i => snap (getInternalAt EI fnodes hs U (fnodes !!! i) lds left_side).2).
  set (de := (fun v : Qc => v * Num.k1000) <$> even_entries U).
  match goal with
  | |- wp _ (?a0 :: ?a1 :: ?a2 :: ?a3 :: ?a4 :: ?a5 :: ?a6 :: ?a7 :: ?a8 :: _) _ _ =>
      apply (wp_for_m _ _ _ _ _
               (fun i l =>
                  l = [a0; a1; a2; a3; a4; a5; a6; a7; a8;
                       ONums ((f1 <$> seq 0 i) ++ zeros (n - i));
                       ONums ((f2 <$> seq 0 i) ++ zeros (n - i));
                       ONums de]))
  end.
  { lia. }
  { rewrite Nat.sub_0_r. done. }
  { intros i l Hi ->. repeat wp_step.
    change ((getInternalAt EI fnodes hs U (fnodes !!! i) lds left_side).1) with (f1 i).
    change (snap (getInternalAt EI fnodes hs U (fnodes !!! i) lds left_side).2) with (f2 i).
    rewrite !fill_step by lia. done. }
  intros l' ->. rewrite Nat.sub_diag. unfold zeros at 1 2. cbn [replicate]. rewrite !app_nil_r.
  repeat wp_step.
  set (init := mkIld (ild_init sups) [] []).
  set (step := ild_step L EI probeX fnodes hs (Num.e18 * EI) slv sups).
  change (fold_left ild_init_step sups ∅) with (st_reactions init).
  change (OSeries []) with (OSeries (st_shear init)) at 1.
  change (OSeries []) with (OSeries (st_moment init)).
  assert (Hfinal : forall st temps,
    st = (if (reactionCount sups >=? 3)%Z then for_range 0 31 step init else init) ->
    wp h0
    (ONums (criticalX L probeX sups lds) ::
     ONums (sort_asc (criticalX L probeX sups lds)) ::
     ONums fnodes :: ONats hs :: OMatrix (stiffness L EI probeX sups lds) ::
     OMatrix (stiffness L EI probeX sups lds) :: OSolver slv ::
     ONums (buildLoadVector EI fnodes hs lds) :: ONums U ::
     ONums (f1 <$> seq 0 n) :: ONums (f2 <$> seq 0 n) ::
     ONums de :: OReactions (reactions_of (Num.e18 * EI) fnodes U sups) ::
     OSeriesMap (st_reactions st) :: OSeries (st_shear st) :: OSeries (st_moment st) :: temps)
         (read nums (length h0 + 9)
          ≫= λ sh : vec,
               read nums (length h0 + 10)
               ≫= λ mo : vec,
                    read nums (length h0 + 11)
                    ≫= λ de0 : vec,
                         mret
                           {|
                             ref_nodes := length h0 + 2;
                             ref_shearForce := length h0 + 9;
                             ref_bendingMoment := length h0 + 10;
                             ref_deflection := length h0 + 11;
                             ref_reactions := length h0 + 12;
                             ref_ildReactions := length h0 + 13;
                             ref_ildShearAtProbe := length h0 + 14;
                             ref_ildMomentAtProbe := length h0 + 15;
                             val_maxShear := arr_max sh;
                             val_minShear := arr_min sh;
                             val_maxMoment := arr_max mo;
                             val_minMoment := arr_min mo;
                             val_maxDeflection := arr_max de0;
                             val_minDeflection := arr_min de0;
                             val_determinacy :=
                               reactionCount sups - 3 - Z.of_nat (length hs);
                             val_isStable := (reactionCount sups >=? 3)%Z
                           |})
         (λ (res : result_refs) (l'0 : store),
            Forall (λ r : ref, length h0 <= r < length h0 + length l'0)
              (refs_of res)
            ∧ read_back (h0 ++ l'0) res = analyze_pure L EI probeX sups lds)).
  { intros st temps Hst. repeat wp_step. split.
    - unfold refs_of. cbn [ref_nodes ref_shearForce ref_bendingMoment ref_deflection
        ref_reactions ref_ildReactions ref_ildShearAtProbe ref_ildMomentAtProbe length].
      repeat (apply Forall_cons; split; [lia|]). constructor.
    - unfold read_back.
      cbn [ref_nodes ref_shearForce ref_bendingMoment ref_deflection
        ref_reactions ref_ildReactions ref_ildShearAtProbe ref_ildMomentAtProbe
        val_maxShear val_minShear val_maxMoment val_minMoment val_maxDeflection
        val_minDeflection val_determinacy val_isStable].
      rewrite !nums_local, reactions_local, series_map_local, !series_local.
      cbn [nums reactions_at series_map_at series_at lookup list_lookup].
      unfold analyze_pure. cbv zeta.
      rewrite <- !list_fmap_compose.
      rewrite Hst. clear Hst. subst de f1 f2 n step init U slv hs fnodes.
      unfold displacements, factorization, stiffness, compose. f_equal; reflexivity. }
  destruct (reactionCount sups >=? 3)%Z eqn:Hrc.
  - apply (wp_for_m _ _ _ _ _
      (fun i l => exists temps,
         l = (ONums (criticalX L probeX sups lds) ::
     ONums (sort_asc (criticalX L probeX sups lds)) ::
     ONums fnodes :: ONats hs :: OMatrix (stiffness L EI probeX sups lds) ::
     OMatrix (stiffness L EI probeX sups lds) :: OSolver slv ::
     ONums (buildLoadVector EI fnodes hs lds) :: ONums U ::
     ONums (f1 <$> seq 0 n) :: ONums (f2 <$> seq 0 n) ::
     ONums de :: OReactions (reactions_of (Num.e18 * EI) fnodes U sups) ::
     OSeriesMap (st_reactions (for_range 0 i step init)) ::
     OSeries (st_shear (for_range 0 i step init)) ::
     OSeries (st_moment (for_range 0 i step init)) :: temps))).
    + lia.
    + exists []. done.
    + intros i l Hi (temps & ->). repeat wp_step.
      eexists. rewrite for_range_snoc by lia. reflexivity.
    + intros l' (temps & ->). by apply Hfinal.
  - apply wp_ret. by apply Hfinal.
Qed.

(** The run of the call on any store: the caller's objects stay as they
    are, and the outcome is the one of the first reading on the values the
    arguments hold. *)
Lemma analyzeBeam_wp h0 config supports loads probeX :
  wp h0 [] (Store.analyzeBeam config supports loads probeX)
    (fun out l' =>
       match out with
       | ThrowSt msg =>
           l' = []
           /\ analyzeBeam_pure (config_at h0 config) (supports_at h0 supports)
                (loads_at h0 loads) probeX = Throw msg
       | ReturnSt res =>
           Forall (fun r => length h0 <= r < length (h0 ++ l')) (refs_of res)
           /\ analyzeBeam_pure (config_at h0 config) (supports_at h0 supports)
                (loads_at h0 loads) probeX = Return (read_back (h0 ++ l') res)
       end).
Proof.
  unfold Store.analyzeBeam. apply wp_bind, wp_read. rewrite app_nil_r.
  unfold analyzeBeam_pure.
  destruct (invalid_geometry (config_at h0 config)).
  - apply wp_ret. done.
  - apply wp_bind, wp_read. apply wp_bind, wp_read. rewrite app_nil_r. apply wp_bind.
    eapply wp_mono; [|apply analyze_wp].
    intros res l' [Hfresh Hread]. apply wp_ret. rewrite length_app, Hread. done.
Qed.

(** C9: [analyzeBeam] never mutates its arguments.  Run on any store [h0]
    in which [config], [supports], [loads] and the elements of the two
    arrays are objects, the call ends in a store [h0 ++ l']: every object
    the caller holds is as before, so the config object, the supports
    array with every Support in it and the loads array with every Load in
    it read the same after the call as before it ([probeX] is a number,
    passed by value).  Everything the call writes to it allocated itself:
    [l'] holds the mesh arrays, the stiffness matrix and its copy, the
    load vectors and the result buffers, every reference of the returned
    object points into [l'], and a throwing call allocates nothing.  The
    outcome is the one [analyzeBeam] computes from the arguments' values. *)
Theorem analyzeBeam_frame (h0 : store) (config supports loads : ref) (probeX : Qc) :
  args_in h0 config supports loads ->
  let run := Store.analyzeBeam config supports loads probeX h0 in
  config_at run.1 config = config_at h0 config
  /\ supports_at run.1 supports = supports_at h0 supports
  /\ loads_at run.1 loads = loads_at h0 loads
  /\ exists l',
       run.1 = h0 ++ l'
       /\ match run.2 with
          | ThrowSt msg =>
              l' = []
              /\ analyzeBeam_pure (config_at h0 config) (supports_at h0 supports)
                   (loads_at h0 loads) probeX = Throw msg
          | ReturnSt res =>
              Forall (fun r => length h0 <= r < length run.1) (refs_of res)
              /\ analyzeBeam_pure (config_at h0 config) (supports_at h0 supports)
                   (loads_at h0 loads) probeX = Return (read_back run.1 res)
          end.
Proof.
  intros Hargs run.
  destruct (analyzeBeam_wp h0 config supports loads probeX) as (l' & Hl' & HQ).
  rewrite app_nil_r in Hl', HQ. fold run in Hl', HQ. rewrite Hl'.
  unfold args_in in Hargs.
  apply Forall_cons in Hargs as [Hc Hargs]. apply Forall_cons in Hargs as [Hs Hargs].
  apply Forall_cons in Hargs as [Hl Hargs]. apply Forall_app in Hargs as [Hss Hls].
  split; [by apply config_kept|].
  split; [apply supports_kept; by apply Forall_cons|].
  split; [apply loads_kept; by apply Forall_cons|].
  exists l'. split; [done|]. exact HQ.
Qed.

Lemma analyzeBeam_frame_witness :
  let h0 := layout Examples.section_ok Examples.fixed_roller Examples.udl in
  let run := Store.analyzeBeam 0 3 5 Examples.mid h0 in
  args_in h0 0 3 5
  /\ supports_at run.1 3 = Examples.fixed_roller
  /\ loads_at run.1 5 = Examples.udl.
Proof.
  assert (args_in (layout Examples.section_ok Examples.fixed_roller Examples.udl) 0 3 5)
    as Hargs.
  { unfold args_in. cbn. repeat (apply Forall_cons; split; [lia|]). constructor. }
  split; [exact Hargs|].
  destruct (analyzeBeam_frame _ 0 3 5 Examples.mid Hargs) as (_ & Hs & Hl & _).
  split; [exact Hs|exact Hl].
Defined.

(** The two readings on a propped cantilever: the result object read back
    from the store is the result of the first reading. *)
Example store_run_propped :
  let h0 := layout Examples.section_ok Examples.fixed_roller Examples.udl in
  let run := Store.analyzeBeam 0 3 5 Examples.mid h0 in
  take (length h0) run.1 = h0
  /\ match run.2 with
     | ThrowSt _ => False
     | ReturnSt res =>
         refs_of res = [8; 15; 16; 17; 18; 19; 20; 21]
         /\ read_back run.1 res = Examples.result_propped
     end.
Proof. vm_compute. repeat split. Qed.
End StoreRun.

(** * Further properties of the engine *)

(** ** The nearest node: [findClosestNodeIndex], lines 81-88 *)

(** The loop state after [k] iterations: [minDiff] is the distance of
    [nodes[idx]], the least among the first [k] nodes, and [idx] is the
    first index that attains it. *)
Lemma findClosestNodeIndex_loop (nodes : vec) (x : Qc) k :
  (k <= length nodes)%nat ->
  let st := for_range 0 k
         (fun i '(minDiff, idx) =>
            let d := Qcabs (nodes !!! i - x) in
            match minDiff with
            | None => (Some d, i)
            | Some md => if Num.ltb d md then (Some d, i) else (minDiff, idx)
            end)
         (None, 0%nat) in
  match st.1 with
  | None => k = 0%nat /\ st.2 = 0%nat
  | Some md =>
      (st.2 < k)%nat
      /\ md = Qcabs (nodes !!! st.2 - x)
      /\ (forall j, (j < k)%nat -> md <= Qcabs (nodes !!! j - x))
      /\ (forall j, (j < st.2)%nat -> md < Qcabs (nodes !!! j - x))
  end.
Proof.
  intros Hk. cbv zeta.
  apply (for_range_inv
    (fun k (st : option Qc * nat) =>
       match st.1 with
       | None => k = 0%nat /\ st.2 = 0%nat
       | Some md =>
           (st.2 < k)%nat
           /\ md = Qcabs (nodes !!! st.2 - x)
           /\ (forall j, (j < k)%nat -> md <= Qcabs (nodes !!! j - x))
           /\ (forall j, (j < st.2)%nat -> md < Qcabs (nodes !!! j - x))
       end)); [lia|done|].
  intros i [[md|] idx] Hi; cbn [fst snd].
  - intros (Hidx & Hmd & Hmin & Hfirst).
    destruct (Num.ltb (Qcabs (nodes !!! i - x)) md) eqn:E; cbn [fst snd].
    + apply NumFacts.ltb_lt in E. split; [lia|]. split; [done|]. split.
      * intros j Hj. destruct (decide (j = i)) as [->|Hne]; [apply Qcle_refl|].
        apply Qclt_le_weak. eapply Qclt_le_trans; [exact E|]. apply Hmin. lia.
      * intros j Hj. eapply Qclt_le_trans; [exact E|]. apply Hmin. lia.
    + apply NumFacts.ltb_ge in E. split; [lia|]. split; [done|]. split; [|done].
      intros j Hj. destruct (decide (j = i)) as [->|Hne]; [done|]. apply Hmin. lia.
  - intros [-> ->]. split; [lia|]. split; [done|]. split.
    + intros j Hj. replace j with 0%nat by lia. apply Qcle_refl.
    + intros j Hj. lia.
Qed.

(** X1: on a non-empty array the returned index is in range, no node is
    nearer to [x] than the node it names, and every node before it is
    strictly further away: among equally near nodes the first wins.  On
    the empty array the result is [0]. *)
Theorem findClosestNodeIndex_nearest (nodes : vec) (x : Qc) :
  let idx := findClosestNodeIndex nodes x in
  (nodes = [] -> idx = 0%nat)
  /\ (nodes <> [] ->
      (idx < length nodes)%nat
      /\ (forall j, (j < length nodes)%nat ->
            Qcabs (nodes !!! idx - x) <= Qcabs (nodes !!! j - x))
      /\ (forall j, (j < idx)%nat ->
            Qcabs (nodes !!! idx - x) < Qcabs (nodes !!! j - x))).
Proof.
  cbv zeta. split; [by intros ->|]. intros Hne.
  pose proof (findClosestNodeIndex_loop nodes x (length nodes) (le_n _)) as H.
  cbv zeta in H. unfold findClosestNodeIndex.
  destruct (for_range _ _ _ _) as [[md|] idx]; cbn [fst snd] in *.
  - destruct H as (H1 & -> & H3 & H4). done.
  - destruct H as [H _]. by destruct nodes.
Qed.

Lemma findClosestNodeIndex_nearest_witness :
  [c 0; c 2; c 4] <> ([] : vec)
  /\ findClosestNodeIndex [c 0; c 2; c 4] (c 1) = 0%nat
  /\ Qcabs ([c 0; c 2; c 4] !!! 0%nat - c 1) <= Qcabs ([c 0; c 2; c 4] !!! 1%nat - c 1).
Proof.
  assert ([c 0; c 2; c 4] <> ([] : vec)) as Hne by done.
  split; [exact Hne|]. split; [reflexivity|].
  destruct (findClosestNodeIndex_nearest [c 0; c 2; c 4] (c 1)) as [_ H].
  destruct (H Hne) as (_ & Hmin & _). apply (Hmin 1%nat). simpl. lia.
Defined.

(** A position that is a node is found: the node named by the result is
    [x] itself, and in an array without duplicates the result is the index
    of [x]. *)
Lemma findClosestNodeIndex_hit (nodes : vec) (x : Qc) :
  x ∈ nodes -> nodes !!! findClosestNodeIndex nodes x = x.
Proof.
  intros Hx. assert (nodes <> []) as Hne by (intros ->; by apply elem_of_nil in Hx).
  pose proof (findClosestNodeIndex_loop nodes x (length nodes) (le_n _)) as H.
  cbv zeta in H. unfold findClosestNodeIndex.
  destruct (for_range _ _ _ _) as [[md|] idx]; cbn [fst snd] in *.
  2:{ destruct H as [H _]. by destruct nodes. }
  destruct H as (H1 & H2 & H3 & H4).
  apply list_elem_of_lookup in Hx as [j Hj].
  pose proof (lookup_lt_Some _ _ _ Hj) as Hlt.
  specialize (H3 j Hlt). rewrite (list_lookup_total_correct _ _ _ Hj) in H3.
  replace (x - x) with 0 in H3 by ring. rewrite H2 in H3.
  rewrite (Qcabs_pos 0) in H3 by apply Qcle_refl.
  assert (Qcabs (nodes !!! idx - x) = 0) as H0.
  { apply Qcle_antisym; [exact H3|apply Qcabs_nonneg]. }
  apply Qcabs_null in H0.
  rewrite <- (Qcplus_0_r x). rewrite <- H0. ring.
Qed.

(** ** Positions and nodes *)

Lemma in_span_critical L probeX supports loads :
  in_span L probeX supports loads ->
  forall x, critical L probeX supports loads x -> c 0 <= x <= L.
Proof.
  intros (Hprobe & Hsup & Hload & Hend).
  assert (c 0 <= L) as HL by (eapply Qcle_trans; apply Hprobe).
  intros x [->|[->|[->|[(s & Hs & ->)|(l & Hl & [->|[_ He]])]]]].
  - split; [apply Qcle_refl|done].
  - split; [done|apply Qcle_refl].
  - done.
  - by apply Hsup.
  - by apply Hload.
  - by apply (Hend l).
Qed.

Lemma in_span_example :
  in_span Num.tenth Examples.mid Examples.fixed_roller Examples.udl.
Proof.
  split; [split; qc_closed|]. split; [|split].
  - intros s Hs. unfold Examples.fixed_roller in Hs.
    rewrite !elem_of_cons, elem_of_nil in Hs.
    destruct Hs as [->|[->|[]]]; split; qc_closed.
  - intros l Hl. unfold Examples.udl in Hl.
    rewrite !elem_of_cons, elem_of_nil in Hl.
    destruct Hl as [->|[]]; split; qc_closed.
  - intros l e Hl He. unfold Examples.udl in Hl.
    rewrite !elem_of_cons, elem_of_nil in Hl.
    destruct Hl as [->|[]]. injection He as <-. split; qc_closed.
Defined.

Lemma propped_returns :
  analyzeBeam Examples.section_ok Examples.fixed_roller Examples.udl Examples.mid
  = Return Examples.result_propped.
Proof. apply analyzeBeam_Return. vm_compute. reflexivity. Defined.

(** X2: when the probe, the supports and the loads lie on the beam, the
    node that [findClosestNodeIndex] selects for the probe, for a support
    or for a load is the node at exactly that position: nothing is moved
    to a neighbouring node. *)
Theorem positions_land_on_nodes config supports loads probeX r :
  analyzeBeam config supports loads probeX = Return r ->
  in_span (cfg_length config) probeX supports loads ->
  let node_of x := nodes r !!! findClosestNodeIndex (nodes r) x in
  node_of probeX = probeX
  /\ (forall s, s ∈ supports -> node_of (s_position s) = s_position s)
  /\ (forall l, l ∈ loads -> node_of (l_position l) = l_position l).
Proof.
  intros Hret Hspan node_of. apply analyzeBeam_inv in Hret as [_ ->].
  subst node_of. rewrite analyze_nodes.
  destruct (finalNodes_contract (cfg_length config) probeX supports loads
              (in_span_critical _ _ _ _ Hspan)) as (_ & _ & _ & Hin).
  split; [|split].
  - apply findClosestNodeIndex_hit, Hin. right. right. by left.
  - intros s Hs. apply findClosestNodeIndex_hit, Hin. do 3 right. left. by exists s.
  - intros l Hl. apply findClosestNodeIndex_hit, Hin. do 4 right. exists l. split; [done|by left].
Qed.

Lemma positions_land_on_nodes_witness :
  analyzeBeam Examples.section_ok Examples.fixed_roller Examples.udl Examples.mid
  = Return Examples.result_propped
  /\ in_span Num.tenth Examples.mid Examples.fixed_roller Examples.udl
  /\ nodes Examples.result_propped
       !!! findClosestNodeIndex (nodes Examples.result_propped) Examples.mid
     = Examples.mid.
Proof.
  split; [exact propped_returns|]. split; [exact in_span_example|].
  exact (proj1 (positions_land_on_nodes _ _ _ _ _ propped_returns in_span_example)).
Defined.

(** ** The reported extremes: lines 320-322 *)

Lemma fold_max_spec (t : vec) (x : Qc) :
  let m := fold_left Num.max t x in
  m ∈ x :: t /\ forall v, v ∈ x :: t -> v <= m.
Proof.
  revert x. induction t as [|y t IH]; intros x; cbn [fold_left].
  - split; [apply list_elem_of_here|]. intros v Hv.
    apply list_elem_of_singleton in Hv as ->. apply Qcle_refl.
  - destruct (IH (Num.max x y)) as [Hin Hle]. cbv zeta in Hin, Hle.
    unfold Num.max in *. destruct (Num.ltb x y) eqn:E.
    + apply NumFacts.ltb_lt in E. split.
      * by apply list_elem_of_further.
      * intros v Hv. apply elem_of_cons in Hv as [->|Hv]; [|by apply Hle].
        eapply Qcle_trans; [apply Qclt_le_weak, E|]. apply Hle, list_elem_of_here.
    + apply NumFacts.ltb_ge in E. split.
      * apply elem_of_cons in Hin as [->|Hin]; [apply list_elem_of_here|].
        by do 2 apply list_elem_of_further.
      * intros v Hv. apply elem_of_cons in Hv as [->|Hv]; [apply Hle, list_elem_of_here|].
        apply elem_of_cons in Hv as [->|Hv].
        -- eapply Qcle_trans; [exact E|]. apply Hle, list_elem_of_here.
        -- by apply Hle, list_elem_of_further.
Qed.

Lemma fold_min_spec (t : vec) (x : Qc) :
  let m := fold_left Num.min t x in
  m ∈ x :: t /\ forall v, v ∈ x :: t -> m <= v.
Proof.
  revert x. induction t as [|y t IH]; intros x; cbn [fold_left].
  - split; [apply list_elem_of_here|]. intros v Hv.
    apply list_elem_of_singleton in Hv as ->. apply Qcle_refl.
  - destruct (IH (Num.min x y)) as [Hin Hle]. cbv zeta in Hin, Hle.
    unfold Num.min in *. destruct (Num.ltb y x) eqn:E.
    + apply NumFacts.ltb_lt in E. split.
      * by apply list_elem_of_further.
      * intros v Hv. apply elem_of_cons in Hv as [->|Hv]; [|by apply Hle].
        eapply Qcle_trans; [apply Hle, list_elem_of_here|]. by apply Qclt_le_weak.
    + apply NumFacts.ltb_ge in E. split.
      * apply elem_of_cons in Hin as [->|Hin]; [apply list_elem_of_here|].
        by do 2 apply list_elem_of_further.
      * intros v Hv. apply elem_of_cons in Hv as [->|Hv]; [apply Hle, list_elem_of_here|].
        apply elem_of_cons in Hv as [->|Hv].
        -- eapply Qcle_trans; [apply Hle, list_elem_of_here|]. exact E.
        -- by apply Hle, list_elem_of_further.
Qed.

Lemma arr_extremes (a : vec) :
  a <> [] ->
  arr_min a ∈ a /\ arr_max a ∈ a /\ forall v, v ∈ a -> arr_min a <= v <= arr_max a.
Proof.
  destruct a as [|x t]; [done|]. intros _. unfold arr_min, arr_max.
  destruct (fold_max_spec t x) as [H1 H2]. destruct (fold_min_spec t x) as [H3 H4].
  split; [done|]. split; [done|]. intros v Hv. split; [by apply H4|by apply H2].
Qed.

Lemma finalNodes_nonempty L probeX supports loads :
  finalNodes L probeX supports loads <> [].
Proof. unfold finalNodes, mesh. intros H. by apply app_eq_nil in H as [_ [=]]. Qed.

Lemma nonempty_length {A} (l : list A) : (0 < length l)%nat -> l <> [].
Proof. by destruct l; [simpl; lia|]. Qed.

(** X4: the six extremes of a result are attained and bound their arrays:
    [minShear] and [maxShear] are entries of [shearForce] and every entry
    lies between them, and likewise for the bending moment and the
    deflection.  No array is empty, so the infinities of [Math.max()] and
    [Math.min()] never appear. *)
Theorem extremes_attained config supports loads probeX r :
  analyzeBeam config supports loads probeX = Return r ->
  (minShear r ∈ shearForce r /\ maxShear r ∈ shearForce r
   /\ forall v, v ∈ shearForce r -> minShear r <= v <= maxShear r)
  /\ (minMoment r ∈ bendingMoment r /\ maxMoment r ∈ bendingMoment r
      /\ forall v, v ∈ bendingMoment r -> minMoment r <= v <= maxMoment r)
  /\ (minDeflection r ∈ deflection r /\ maxDeflection r ∈ deflection r
      /\ forall v, v ∈ deflection r -> minDeflection r <= v <= maxDeflection r).
Proof.
  intros Hret. apply analyzeBeam_inv in Hret as [_ ->].
  set (r := analyze _ _ _ _ _).
  destruct (analyze_complete (cfg_length config) (flexural_rigidity config) probeX
              supports loads) as (HS & HM & HD). fold r in HS, HM, HD.
  assert (0 < length (nodes r))%nat as Hn.
  { pose proof (finalNodes_nonempty (cfg_length config) probeX supports loads) as Hne.
    subst r. rewrite analyze_nodes. destruct (finalNodes _ _ _ _); [done|simpl; lia]. }
  split; [|split].
  - apply (arr_extremes (shearForce r)). apply nonempty_length. lia.
  - apply (arr_extremes (bendingMoment r)). apply nonempty_length. lia.
  - apply (arr_extremes (deflection r)). apply nonempty_length. lia.
Qed.

Lemma extremes_attained_witness :
  analyzeBeam Examples.section_ok Examples.fixed_roller Examples.udl Examples.mid
  = Return Examples.result_propped
  /\ maxShear Examples.result_propped ∈ shearForce Examples.result_propped.
Proof.
  split; [exact propped_returns|].
  destruct (extremes_attained _ _ _ _ _ propped_returns) as ((_ & H & _) & _).
  exact H.
Defined.

(** ** The unloaded beam *)

Lemma zeros_lookup n i : zeros n !!! i = c 0.
Proof.
  unfold zeros. destruct (decide (i < n)%nat) as [Hi|Hi].
  - by rewrite lookup_total_replicate_2.
  - rewrite list_lookup_total_alt. assert (replicate n (c 0) !! i = None) as ->; [|done].
    apply lookup_replicate_None. lia.
Qed.

Lemma zeros_insert n i : <[i := c 0]> (zeros n) = zeros n.
Proof.
  unfold zeros. destruct (decide (i < n)%nat) as [Hi|Hi].
  - apply list_insert_id. by apply lookup_replicate_2.
  - apply list_insert_ge. rewrite length_replicate. lia.
Qed.

Lemma sum_range_zero_terms lo hi f :
  (forall j, (lo <= j < hi)%nat -> f j = 0) -> sum_range lo hi f = 0.
Proof.
  intros H. rewrite (sum_range_ext lo hi f (fun _ => 0)) by done. apply sum_range_zero.
Qed.

Lemma forward_zeros s m : forward s (zeros m) = zeros (lu_n s).
Proof.
  unfold forward. apply (for_range_inv' (fun y => y = zeros (lu_n s))); [done|].
  intros i y Hi ->. rewrite dot_range_sum, zeros_lookup.
  rewrite sum_range_zero_terms.
  - replace (c 0 - 0) with (c 0) by (rewrite c0_zero; ring). apply zeros_insert.
  - intros j _. rewrite zeros_lookup, c0_zero. ring.
Qed.

Lemma backward_zeros s : backward s (zeros (lu_n s)) = zeros (lu_n s).
Proof.
  unfold backward. apply (for_down_inv' (fun x => x = zeros (lu_n s))); [done|].
  intros i x Hi ->. destruct (Num.ltb _ _); [apply zeros_insert|].
  rewrite dot_range_sum, zeros_lookup. rewrite sum_range_zero_terms.
  - replace ((c 0 - 0) / mget (lu_LU s) i i) with (c 0).
    + apply zeros_insert.
    + rewrite c0_zero. unfold Qcdiv. ring.
  - intros j _. rewrite zeros_lookup, c0_zero. ring.
Qed.

(** The solver maps the zero right-hand side to the zero vector, whatever
    the factors hold. *)
Lemma LUSolver_solve_zeros s m : LUSolver_solve s (zeros m) = zeros (lu_n s).
Proof. unfold LUSolver_solve. by rewrite forward_zeros, backward_zeros. Qed.

Lemma buildLoadVector_nil EI fnodes hs :
  buildLoadVector EI fnodes hs [] = zeros (length fnodes * 2).
Proof. reflexivity. Qed.

Lemma release_step_zero_force r ke :
  snd (release_step r (ke, zeros 4)) = zeros 4.
Proof.
  unfold release_step. destruct (Num.ltb _ _); [done|].
  apply (for_range_inv' (fun st : matrix * vec => snd st = zeros 4)); [done|].
  intros i [ke' fe'] _. cbn [snd]. intros ->. rewrite !zeros_lookup.
  replace (c 0 - mget ke' i r / mget ke r r * c 0) with (c 0) by (rewrite c0_zero; ring).
  apply zeros_insert.
Qed.

Lemma applyMomentRelease_zero_force ke a b :
  snd (applyMomentRelease ke (zeros 4) a b) = zeros 4.
Proof.
  unfold applyMomentRelease.
  assert (forall rs ke, snd (fold_left (fun st r => release_step r st) rs (ke, zeros 4))
                        = zeros 4) as H.
  { induction rs as [|r rs IH]; intros ke0; [done|]. cbn [fold_left].
    pose proof (release_step_zero_force r ke0) as Hr.
    destruct (release_step r (ke0, zeros 4)) as [ke1 fe1]. cbn [snd] in Hr. subst fe1.
    apply IH. }
  apply H.
Qed.

Lemma getInternalAt_unloaded EI fnodes hs m x sd :
  getInternalAt EI fnodes hs (zeros m) x [] sd = (c 0, c 0).
Proof.
  unfold getInternalAt. cbv zeta.
  set (e := Z.to_nat _).
  destruct (Num.leb _ _); [done|].
  cbn [fold_left]. rewrite !zeros_lookup.
  set (ke := elementStiffness EI _).
  set (rel := has hs e || has hs (e + 1)).
  assert (exists ke', (if rel then applyMomentRelease ke [c 0; c 0; c 0; c 0] (has hs e)
                                     (has hs (e + 1))
                       else (ke, [c 0; c 0; c 0; c 0])) = (ke', zeros 4)) as [ke' ->].
  { destruct rel; [|by eexists].
    pose proof (applyMomentRelease_zero_force ke (has hs e) (has hs (e + 1))) as H.
    change [c 0; c 0; c 0; c 0] with (zeros 4).
    destruct (applyMomentRelease _ _ _ _) as [k f]. cbn [snd] in H. subst f. by eexists. }
  assert (for_range 0 4
            (fun r f => for_range 0 4
               (fun cc f => vadd f r (mget ke' r cc * ([c 0; c 0; c 0; c 0] !!! cc))) f)
            (zeros 4) = zeros 4) as ->.
  { apply (for_range_inv' (fun f => f = zeros 4)); [done|].
    intros r f _ ->. apply (for_range_inv' (fun f => f = zeros 4)); [done|].
    intros cc f Hcc ->. unfold vadd. rewrite zeros_lookup.
    change [c 0; c 0; c 0; c 0] with (zeros 4). rewrite zeros_lookup.
    replace (c 0 + mget ke' r cc * c 0) with (c 0) by (rewrite c0_zero; ring).
    apply zeros_insert. }
  rewrite !zeros_lookup.
  assert (c 0 / Num.k1000 = c 0) as H0 by (rewrite c0_zero; unfold Qcdiv; ring).
  assert (- c 0 / Num.k1000 = c 0) as H1 by (rewrite c0_zero; unfold Qcdiv; ring).
  rewrite H0, H1. by destruct (_ =? _)%Z.
Qed.

Lemma even_entries_elem (U : vec) x : x ∈ even_entries U -> x ∈ U.
Proof.
  unfold even_entries. intros Hx. apply list_elem_of_fmap in Hx as ([i y] & -> & Hin).
  apply list_elem_of_In, filter_In in Hin as [Hin _]. apply list_elem_of_In in Hin.
  cbn [snd]. apply list_elem_of_lookup in Hin as [k Hk].
  apply lookup_zip_with_Some in Hk as (a & b & [= -> ->] & _ & Hb).
  by apply list_elem_of_lookup_2 in Hb.
Qed.

Lemma zeros_elem n x : x ∈ zeros n -> x = c 0.
Proof. unfold zeros. intros H. by apply elem_of_replicate in H as [-> _]. Qed.

Lemma arr_max_const (a : vec) : Forall (fun v => v = c 0) a -> arr_max a = c 0.
Proof.
  intros H. destruct a as [|x t]; [done|].
  destruct (arr_extremes (x :: t)) as (_ & Hin & _); [done|].
  by apply (proj1 (Forall_forall _ _) H).
Qed.

Lemma arr_min_const (a : vec) : Forall (fun v => v = c 0) a -> arr_min a = c 0.
Proof.
  intros H. destruct a as [|x t]; [done|].
  destruct (arr_extremes (x :: t)) as (Hin & _ & _); [done|].
  by apply (proj1 (Forall_forall _ _) H).
Qed.

Section Extremes.
Variables (L EI probeX : Qc) (supports : list Support) (loads : list Load).
Let r := analyze L EI probeX supports loads.

Lemma analyze_extremes :
  maxShear r = arr_max (shearForce r) /\ minShear r = arr_min (shearForce r)
  /\ maxMoment r = arr_max (bendingMoment r) /\ minMoment r = arr_min (bendingMoment r)
  /\ maxDeflection r = arr_max (deflection r) /\ minDeflection r = arr_min (deflection r).
Proof. done. Qed.

Lemma analyze_reactions :
  reactions r
  = reactions_of (Num.e18 * EI) (nodes r) (displacements L EI probeX supports loads)
      supports.
Proof. reflexivity. Qed.
End Extremes.

(** X5: a beam without loads is at rest.  With [loads = []] the shear
    force, the bending moment and the deflection are [0] at every node,
    every reaction has force [0] and moment [0], and the six extremes are
    [0], for any supports and hinges and whether or not the solver takes
    one of its guards. *)
Theorem unloaded_beam_at_rest config supports probeX r :
  analyzeBeam config supports [] probeX = Return r ->
  Forall (fun v => v = c 0) (shearForce r)
  /\ Forall (fun v => v = c 0) (bendingMoment r)
  /\ Forall (fun v => v = c 0) (deflection r)
  /\ Forall (fun rx => rx_force rx = c 0 /\ rx_moment rx = c 0) (reactions r)
  /\ maxShear r = c 0 /\ minShear r = c 0
  /\ maxMoment r = c 0 /\ minMoment r = c 0
  /\ maxDeflection r = c 0 /\ minDeflection r = c 0.
Proof.
  intros Hret. apply analyzeBeam_inv in Hret as [_ ->].
  set (L := cfg_length config). set (EI := flexural_rigidity config).
  assert (exists m, displacements L EI probeX supports [] = zeros m) as [m HU].
  { unfold displacements. rewrite buildLoadVector_nil, LUSolver_solve_zeros. by eexists. }
  assert (Forall (fun v => v = c 0) (shearForce (analyze L EI probeX supports []))) as HS.
  { rewrite analyze_shearForce. apply Forall_fmap, Forall_forall. intros i _.
    unfold recovered. cbn [compose]. by rewrite HU, getInternalAt_unloaded. }
  assert (Forall (fun v => v = c 0) (bendingMoment (analyze L EI probeX supports []))) as HM.
  { rewrite analyze_bendingMoment. apply Forall_fmap, Forall_forall. intros i _.
    unfold recovered. cbn [compose]. rewrite HU, getInternalAt_unloaded. by vm_compute. }
  assert (Forall (fun v => v = c 0) (deflection (analyze L EI probeX supports []))) as HD.
  { rewrite analyze_deflection. apply Forall_fmap, Forall_forall. intros x Hx.
    cbn [compose]. rewrite HU in Hx. apply even_entries_elem, zeros_elem in Hx as ->.
    by vm_compute. }
  destruct (analyze_extremes L EI probeX supports []) as (-> & -> & -> & -> & -> & ->).
  split; [done|]. split; [done|]. split; [done|]. split.
  - rewrite analyze_reactions, HU. unfold reactions_of.
    apply Forall_lookup. intros i rx Hrx. rewrite list_lookup_imap in Hrx.
    destruct (List.filter non_hinge supports !! i) as [s|]; [|done].
    injection Hrx as <-. cbn [rx_force rx_moment]. rewrite !zeros_lookup.
    assert (Num.e18 * EI * c 0 / - Num.k1000 = c 0) as ->
      by (rewrite c0_zero; unfold Qcdiv; ring).
    split; [done|]. destruct (s_type s); try done.
    rewrite c0_zero; unfold Qcdiv; ring.
  - by rewrite !arr_max_const, !arr_min_const.
Qed.

Lemma unloaded_beam_at_rest_witness :
  analyzeBeam Examples.section_ok Examples.fixed_roller [] Examples.mid
  = Return (analyze Num.tenth (flexural_rigidity Examples.section_ok) Examples.mid
              Examples.fixed_roller [])
  /\ maxShear (analyze Num.tenth (flexural_rigidity Examples.section_ok) Examples.mid
                 Examples.fixed_roller []) = c 0.
Proof.
  assert (analyzeBeam Examples.section_ok Examples.fixed_roller [] Examples.mid
          = Return (analyze Num.tenth (flexural_rigidity Examples.section_ok) Examples.mid
                      Examples.fixed_roller [])) as Hret
    by (apply analyzeBeam_Return; by vm_compute).
  split; [exact Hret|].
  destruct (unloaded_beam_at_rest _ _ _ _ Hret) as (_ & _ & _ & _ & H & _). exact H.
Defined.

(** ** The solver: what the factorization keeps, and linearity *)

Lemma swap_Permutation {A} `{Inhabited A} (l : list A) i j :
  (i < length l)%nat -> (j < length l)%nat -> swap l i j ≡ₚ l.
Proof.
  intros Hi Hj. unfold swap. apply Permutation_insert_swap.
  - by apply list_lookup_lookup_total_lt.
  - by apply list_lookup_lookup_total_lt.
Qed.

Lemma lu_step_shape n i LU p :
  (i < n)%nat -> length LU = n -> p ≡ₚ seq 0 n ->
  length (lu_step n i (LU, p)).1 = n /\ (lu_step n i (LU, p)).2 ≡ₚ seq 0 n.
Proof.
  intros Hi HLU Hp. unfold lu_step.
  pose proof (find_pivot_spec LU n i) as Hspec.
  destruct (find_pivot LU n i) as [mx row].
  destruct (Num.ltb mx Num.eps18); [done|]. cbn [fst snd].
  assert (row < n)%nat as Hrow by (destruct Hspec as [_ [[_ ->]|[? _]]]; lia).
  assert (length p = n) as Hlp by (by rewrite Hp, length_seq).
  split.
  - apply (for_range_inv' (fun M => length M = n)); [by rewrite length_swap|].
    intros j M _ HM. by rewrite length_eliminate_row.
  - rewrite swap_Permutation by lia. done.
Qed.

(** X6: whatever the matrix holds, and whichever columns the pivot guard
    skips, the constructor leaves [n] equal to the number of rows, [LU]
    with that many rows and [pivot] a permutation of [0 .. n-1]: [solve]
    reads every entry of a right-hand side of length [n] exactly once. *)
Theorem LUSolver_new_keeps_permutation (m : matrix) :
  let s := LUSolver_new m in
  lu_n s = length m
  /\ length (lu_LU s) = length m
  /\ lu_pivot s ≡ₚ seq 0 (length m).
Proof.
  cbv zeta. unfold LUSolver_new. set (n := length m).
  assert (length (for_range 0 n (lu_step n) (m, seq 0 n)).1 = n
          /\ (for_range 0 n (lu_step n) (m, seq 0 n)).2 ≡ₚ seq 0 n) as H.
  { apply (for_range_inv
             (fun (_ : nat) (st : matrix * list nat) =>
                length st.1 = n /\ st.2 ≡ₚ seq 0 n)); [lia|done|].
    intros i [LU p] Hi [H1 H2]. apply lu_step_shape; [lia|done|done]. }
  destruct (for_range 0 n (lu_step n) (m, seq 0 n)) as [LU p]. cbn [fst snd] in *.
  by destruct H.
Qed.

Lemma axpy_length a u v : length u = length v -> length (axpy a u v) = length u.
Proof. intros H. unfold axpy. rewrite length_zip_with. lia. Qed.

Lemma axpy_lookup a u v i :
  length u = length v -> axpy a u v !!! i = a * u !!! i + v !!! i.
Proof.
  intros H. unfold axpy. rewrite !list_lookup_total_alt, lookup_zip_with.
  destruct (u !! i) as [x|] eqn:Hu.
  - destruct (v !! i) as [y|] eqn:Hv; [done|].
    apply lookup_lt_Some in Hu. apply lookup_ge_None in Hv. lia.
  - destruct (v !! i) as [y|] eqn:Hv.
    + apply lookup_lt_Some in Hv. apply lookup_ge_None in Hu. lia.
    + cbn. change (inhabitant : Qc) with (c 0). rewrite c0_zero. ring.
Qed.

Lemma forward_linear s a b1 b2 i :
  length b1 = length b2 -> (i < lu_n s)%nat ->
  forward s (axpy a b1 b2) !!! i = a * forward s b1 !!! i + forward s b2 !!! i.
Proof.
  intros Hb. induction i as [i IH] using lt_wf_ind. intros Hi.
  rewrite !forward_spec by done. rewrite axpy_lookup by done.
  rewrite (sum_range_ext 0 i _
    (fun j => a * (mget (lu_LU s) i j * forward s b1 !!! j)
              + mget (lu_LU s) i j * forward s b2 !!! j)).
  2:{ intros j Hj. rewrite IH by lia. ring. }
  rewrite sum_range_plus.
  rewrite sum_range_scale. ring.
Qed.

Lemma backward_linear s a y1 y2 y :
  (forall i, (i < lu_n s)%nat -> y !!! i = a * y1 !!! i + y2 !!! i) ->
  forall k i, (lu_n s - i <= k)%nat -> (i < lu_n s)%nat ->
  backward s y !!! i = a * backward s y1 !!! i + backward s y2 !!! i.
Proof.
  intros Hy. induction k as [|k IH]; intros i Hk Hi; [lia|].
  rewrite !backward_spec by done. unfold back_value.
  destruct (Num.ltb _ _); [rewrite c0_zero; ring|].
  rewrite Hy by done.
  rewrite (sum_range_ext (i + 1) (lu_n s) _
    (fun j => a * (mget (lu_LU s) i j * backward s y1 !!! j)
              + mget (lu_LU s) i j * backward s y2 !!! j)).
  2:{ intros j Hj. rewrite IH by lia. ring. }
  rewrite sum_range_plus.
  rewrite sum_range_scale. unfold Qcdiv. ring.
Qed.

(** X7: [solve] is linear in its right-hand side.  For any factors, also
    ones in which a guard has fired, and right-hand sides of equal length,
    [solve(a * b1 + b2) = a * solve(b1) + solve(b2)]. *)
Theorem LUSolver_solve_linear (s : LUSolver) (a : Qc) (b1 b2 : vec) :
  length b1 = length b2 ->
  LUSolver_solve s (axpy a b1 b2)
  = axpy a (LUSolver_solve s b1) (LUSolver_solve s b2).
Proof.
  intros Hb. apply (list_eq_lookup_total _ _ (lu_n s)).
  - apply length_solve.
  - rewrite axpy_length; rewrite !length_solve; done.
  - intros i Hi. rewrite axpy_lookup by (by rewrite !length_solve).
    unfold LUSolver_solve. apply (backward_linear s a _ _ _) with (k := lu_n s); [|lia|done].
    intros j Hj. by apply forward_linear.
Qed.

Lemma LUSolver_solve_linear_witness :
  length Examples.b2 = length Examples.b2
  /\ LUSolver_solve (LUSolver_new Examples.K2) (axpy (c 3) Examples.b2 Examples.b2)
     = axpy (c 3) (LUSolver_solve (LUSolver_new Examples.K2) Examples.b2)
         (LUSolver_solve (LUSolver_new Examples.K2) Examples.b2).
Proof.
  split; [reflexivity|].
  exact (LUSolver_solve_linear (LUSolver_new Examples.K2) (c 3) Examples.b2 Examples.b2
           eq_refl).
Defined.

(** ** Superposition of loads in [buildLoadVector] *)

Lemma for_range_rel3 {S} (R : S -> S -> S -> Prop) lo hi (f1 f2 f3 : nat -> S -> S)
    s1 s2 s3 :
  R s1 s2 s3 ->
  (forall i a b d, (lo <= i < hi)%nat -> R a b d -> R (f1 i a) (f2 i b) (f3 i d)) ->
  R (for_range lo hi f1 s1) (for_range lo hi f2 s2) (for_range lo hi f3 s3).
Proof.
  intros H0 Hstep. destruct (decide (lo <= hi)%nat) as [Hle|Hgt].
  2:{ by rewrite !for_range_nil by lia. }
  induction hi as [|hi IH].
  - by rewrite !for_range_nil by lia.
  - destruct (decide (lo <= hi)%nat) as [Hle'|Hgt'].
    + rewrite !for_range_snoc by done. apply Hstep; [lia|].
      apply IH; [|done]. intros i a b d Hi. apply Hstep. lia.
    + by rewrite !for_range_nil by lia.
Qed.

Lemma vadd_zero (F : vec) k : vadd F k (c 0) = F.
Proof.
  unfold vadd. destruct (decide (k < length F)%nat) as [Hk|Hk].
  - apply list_insert_id. rewrite list_lookup_lookup_total_lt by done.
    f_equal. rewrite c0_zero. ring.
  - apply list_insert_ge. lia.
Qed.

Lemma vadd_axpy (u v : vec) k x y :
  length u = length v ->
  vadd (axpy 1 u v) k (x + y) = axpy 1 (vadd u k x) (vadd v k y).
Proof.
  intros H. unfold vadd. rewrite axpy_lookup by done. unfold axpy.
  rewrite <- insert_zip_with. f_equal. ring.
Qed.

Lemma vadd_axpy_l (u v : vec) k x :
  length u = length v -> vadd (axpy 1 u v) k x = axpy 1 (vadd u k x) v.
Proof.
  intros H. rewrite <- (vadd_zero v k) at 2. rewrite <- vadd_axpy by done.
  f_equal. rewrite c0_zero. ring.
Qed.

Lemma vadd_axpy_r (u v : vec) k y :
  length u = length v -> vadd (axpy 1 u v) k y = axpy 1 u (vadd v k y).
Proof.
  intros H. rewrite <- (vadd_zero u k) at 2. rewrite <- vadd_axpy by done.
  f_equal. rewrite c0_zero. ring.
Qed.

Lemma axpy_zeros_r (u : vec) : axpy 1 u (zeros (length u)) = u.
Proof.
  apply (list_eq_lookup_total _ _ (length u)); [|done|].
  - rewrite axpy_length; [done|by rewrite length_zeros].
  - intros i Hi. rewrite axpy_lookup by (by rewrite length_zeros).
    rewrite zeros_lookup, c0_zero. ring.
Qed.

Lemma axpy_zeros (n : nat) : axpy 1 (zeros n) (zeros n) = zeros n.
Proof. rewrite <- (length_zeros n) at 2. apply axpy_zeros_r. Qed.

(** The element force vector. *)

Lemma length_distributed_fe x1 x2 load fe :
  length (distributed_fe x1 x2 load fe) = length fe.
Proof.
  unfold distributed_fe. destruct (overlap x1 x2 load) as [[q12 loadLen]|]; [|done].
  cbv zeta. by rewrite !length_vadd.
Qed.

Lemma length_fold_distributed_fe x1 x2 loads fe :
  length (fold_left (fun fe load => distributed_fe x1 x2 load fe) loads fe) = length fe.
Proof.
  revert fe. induction loads as [|l ls IH]; intros fe; [done|].
  cbn [fold_left]. by rewrite IH, length_distributed_fe.
Qed.

Lemma distributed_fe_axpy x1 x2 load u v :
  length u = length v ->
  distributed_fe x1 x2 load (axpy 1 u v) = axpy 1 u (distributed_fe x1 x2 load v).
Proof.
  intros H. unfold distributed_fe.
  destruct (overlap x1 x2 load) as [[q12 loadLen]|]; [|done]. cbv zeta.
  rewrite !vadd_axpy_r; rewrite ?length_vadd; done.
Qed.

Lemma fold_distributed_fe_axpy x1 x2 loads u v :
  length u = length v ->
  fold_left (fun fe load => distributed_fe x1 x2 load fe) loads (axpy 1 u v)
  = axpy 1 u (fold_left (fun fe load => distributed_fe x1 x2 load fe) loads v).
Proof.
  revert v. induction loads as [|l ls IH]; intros v H; [done|].
  cbn [fold_left]. rewrite distributed_fe_axpy by done.
  apply IH. by rewrite length_distributed_fe.
Qed.

Lemma fold_distributed_fe_app x1 x2 l1 l2 :
  fold_left (fun fe load => distributed_fe x1 x2 load fe) (l1 ++ l2) (zeros 4)
  = axpy 1 (fold_left (fun fe load => distributed_fe x1 x2 load fe) l1 (zeros 4))
      (fold_left (fun fe load => distributed_fe x1 x2 load fe) l2 (zeros 4)).
Proof.
  rewrite fold_left_app.
  set (u := fold_left _ l1 (zeros 4)).
  assert (length u = 4%nat) as Hu by (subst u; by rewrite length_fold_distributed_fe).
  rewrite <- (axpy_zeros_r u) at 1. rewrite Hu.
  apply fold_distributed_fe_axpy. by rewrite Hu.
Qed.

Lemma fold_distributed_fe_none x1 x2 loads fe :
  existsb (fun l => is_distributed (l_type l)) loads = false ->
  fold_left (fun fe load => distributed_fe x1 x2 load fe) loads fe = fe.
Proof.
  revert fe. induction loads as [|l ls IH]; intros fe H; [done|].
  cbn [existsb] in H. apply orb_false_iff in H as [Hl Hls].
  cbn [fold_left]. unfold distributed_fe at 2, overlap. rewrite Hl. by apply IH.
Qed.

(** The released force vector is linear in the force vector; the
    released stiffness does not depend on it. *)


Lemma release_step_rel k r st1 st2 st3 :
  release_rel k st1 st2 st3 ->
  release_rel k (release_step r st1) (release_step r st2) (release_step r st3).
Proof.
  destruct st1 as [k1 u], st2 as [k2 v], st3 as [ke w].
  intros (H1 & H2 & Hlen & Hw). cbn [fst snd] in *. subst k1 k2 w.
  unfold release_step. destruct (Num.ltb _ _); [done|].
  rewrite axpy_lookup by done.
  apply for_range_rel3; [done|].
  intros i [k1 f1] [k2 f2] [k3 f3] _ (H1 & H2 & Hl & H3). cbn [fst snd] in *.
  subst k1 k2 f3. split; [done|]. split; [done|]. cbn [fst snd].
  split; [by rewrite !length_insert|].
  rewrite axpy_lookup by done. unfold axpy. rewrite <- insert_zip_with. f_equal. ring.
Qed.

Lemma applyMomentRelease_rel k ke u v a b :
  length u = length v ->
  release_rel k (applyMomentRelease ke u a b) (applyMomentRelease ke v a b)
    (applyMomentRelease ke (axpy k u v) a b).
Proof.
  intros H. unfold applyMomentRelease.
  assert (forall rs st1 st2 st3, release_rel k st1 st2 st3 ->
            release_rel k (fold_left (fun st r => release_step r st) rs st1)
              (fold_left (fun st r => release_step r st) rs st2)
              (fold_left (fun st r => release_step r st) rs st3)) as Hfold.
  { induction rs as [|r rs IH]; intros st1 st2 st3 Hrel; [done|].
    cbn [fold_left]. apply IH. by apply release_step_rel. }
  apply Hfold. done.
Qed.

(** ** Vertical equilibrium *)

Lemma sum_range_bump lo hi a d f :
  (lo <= a < hi)%nat ->
  sum_range lo hi (fun i => f i + (if decide (i = a) then d else 0)) = sum_range lo hi f + d.
Proof.
  intros Ha. rewrite sum_range_plus. f_equal.
  induction hi as [|hi IH]; [lia|].
  rewrite sum_range_snoc by lia. destruct (decide (hi = a)) as [->|Hne].
  - rewrite (sum_range_ext lo a _ (fun _ => 0)).
    + rewrite sum_range_zero. ring.
    + intros j Hj. destruct (decide (j = a)); [lia|done].
  - rewrite IH by lia. ring.
Qed.

Lemma square_scatter n i ke K :
  square n K -> (i * 2 + 3 < n)%nat -> square n (scatter i ke K).
Proof.
  intros HK Hi. unfold scatter.
  apply (for_range_inv' (fun K' => square n K')); [done|].
  intros r K1 Hr H1. apply (for_range_inv' (fun K' => square n K')); [done|].
  intros cc K2 Hcc H2. by apply square_mset.
Qed.

Lemma square_zero_matrix n : square n (zero_matrix n).
Proof.
  unfold zero_matrix. split; [apply length_replicate|].
  intros i Hi. rewrite lookup_total_replicate_2 by done. apply length_zeros.
Qed.

Lemma square_assemble EI fnodes hs :
  square (length fnodes * 2) (assemble EI fnodes hs).
Proof.
  unfold assemble.
  apply (for_range_inv' (fun K' => square (length fnodes * 2) K'));
    [apply square_zero_matrix|].
  intros i K Hi HK. unfold assemble_element. destruct (Num.leb _ _); [done|].
  apply square_scatter; [done|lia].
Qed.

Lemma square_add_diag n K a v : square n K -> square n (add_diag K a v).
Proof. intros H. by apply square_mset. Qed.

Lemma square_apply_supports n penalty fnodes supports K :
  square n K -> square n (apply_supports penalty fnodes supports K).
Proof.
  unfold apply_supports. revert K. induction supports as [|s ss IH]; intros K HK; [done|].
  cbn [fold_left]. apply IH. destruct (s_type s); repeat apply square_add_diag; done.
Qed.

Lemma square_stiffness L EI probeX supports loads :
  square (length (finalNodes L probeX supports loads) * 2)
    (stiffness L EI probeX supports loads).
Proof. unfold stiffness. apply square_apply_supports, square_assemble. Qed.

Lemma findClosestNodeIndex_bound (nodes : vec) (x : Qc) :
  nodes <> [] -> (findClosestNodeIndex nodes x < length nodes)%nat.
Proof.
  intros Hne.
  pose proof (findClosestNodeIndex_loop nodes x (length nodes) (le_n _)) as H.
  cbv zeta in H. unfold findClosestNodeIndex.
  destruct (for_range _ _ _ _) as [[md|] idx]; cbn [fst snd] in *.
  - by destruct H as (H1 & _).
  - destruct H as [H _]. by destruct nodes.
Qed.

Lemma qsum_from (l : vec) a : fold_left Qcplus l a = a + qsum l.
Proof.
  unfold qsum. revert a. induction l as [|x l IH]; intros a; cbn [fold_left].
  - rewrite c0_zero. ring.
  - rewrite IH, (IH (c 0 + x)). rewrite c0_zero. ring.
Qed.

Lemma qsum_nil : qsum [] = 0.
Proof. reflexivity. Qed.

Lemma qsum_cons x (l : vec) : qsum (x :: l) = x + qsum l.
Proof. unfold qsum at 1. cbn [fold_left]. rewrite qsum_from, c0_zero. ring. Qed.

Lemma qsum_snoc (l : vec) x : qsum (l ++ [x]) = qsum l + x.
Proof. unfold qsum at 1. rewrite fold_left_app. cbn [fold_left]. done. Qed.

Lemma qsum_sum_range (l : vec) : qsum l = sum_range 0 (length l) (fun i => l !!! i).
Proof.
  induction l as [|x l IH] using rev_ind; [done|].
  rewrite qsum_snoc, length_app. cbn [length].
  replace (length l + 1)%nat with (Datatypes.S (length l)) by lia.
  rewrite sum_range_snoc by lia. rewrite IH. f_equal.
  - apply sum_range_ext. intros i Hi. by rewrite lookup_total_app_l by lia.
  - by rewrite list_lookup_total_middle.
Qed.

Lemma qsum_scale {A} a (f : A -> Qc) (l : list A) :
  qsum ((fun x => a * f x) <$> l) = a * qsum (f <$> l).
Proof.
  induction l as [|x l IH]; cbn [fmap list_fmap]; [rewrite qsum_nil; ring|].
  rewrite !qsum_cons, IH. ring.
Qed.

Lemma qsum_filter {A} (p : A -> bool) (f : A -> Qc) (l : list A) :
  qsum (f <$> List.filter p l) = qsum ((fun x => if p x then f x else 0) <$> l).
Proof.
  induction l as [|x l IH]; [done|]. cbn [List.filter fmap list_fmap].
  rewrite qsum_cons, <- IH. destruct (p x); cbn [fmap list_fmap].
  - by rewrite qsum_cons.
  - ring.
Qed.

Section Balance.
Variables (D : nat) (U : vec).

(** The weight of a row: [1] for a deflection, [0] for a rotation. *)
Let tw (a : nat) : Qc := if Nat.even a then 1 else 0.
(** The sum of the deflection rows of column [j], and its product with
    [U] summed over the columns. *)
Let wsum (K : matrix) (j : nat) : Qc := sum_range 0 D (fun a => tw a * mget K a j).
Let W (K : matrix) : Qc := sum_range 0 D (fun j => U !!! j * wsum K j).

Lemma tw_even k : tw (k * 2) = 1.
Proof. unfold tw. by rewrite Nat.even_mul, orb_true_r. Qed.

Lemma tw_odd k : tw (k * 2 + 1) = 0.
Proof.
  unfold tw. replace (k * 2 + 1)%nat with (Datatypes.S (2 * k)) by lia.
  by rewrite Nat.even_succ, Nat.odd_mul, andb_false_l.
Qed.

Lemma wsum_bump K a b v j :
  square D K -> (a < D)%nat -> (b < D)%nat ->
  wsum (mset K a b (mget K a b + v)) j
  = wsum K j + (if decide (j = b) then tw a * v else 0).
Proof.
  intros HK Ha Hb. unfold wsum.
  rewrite (sum_range_ext 0 D _
    (fun a' => tw a' * mget K a' j
               + (if decide (a' = a) then (if decide (j = b) then tw a * v else 0) else 0))).
  - apply sum_range_bump. lia.
  - intros a' Ha'. rewrite mget_mset.
    2:{ by rewrite (square_length D K HK). }
    2:{ by rewrite (square_row D K a HK Ha). }
    destruct (decide (a' = a)) as [->|Hne].
    + destruct (decide (j = b)) as [->|Hjb].
      * rewrite decide_True by done. ring.
      * rewrite decide_False by (intros [_ ?]; done). ring.
    + rewrite decide_False by (intros [? _]; done). ring.
Qed.

Lemma W_bump K a b v :
  square D K -> (a < D)%nat -> (b < D)%nat ->
  W (mset K a b (mget K a b + v)) = W K + U !!! b * (tw a * v).
Proof.
  intros HK Ha Hb. unfold W.
  rewrite (sum_range_ext 0 D _
    (fun j => U !!! j * wsum K j
              + (if decide (j = b) then U !!! b * (tw a * v) else 0))).
  - apply sum_range_bump. lia.
  - intros j Hj. rewrite wsum_bump by done.
    destruct (decide (j = b)) as [->|Hne]; ring.
Qed.

Lemma W_zero_matrix : W (zero_matrix D) = 0.
Proof.
  unfold W. apply sum_range_zero_terms. intros j Hj.
  unfold wsum. rewrite sum_range_zero_terms; [ring|].
  intros a Ha. unfold mget, zero_matrix.
  rewrite lookup_total_replicate_2 by lia. rewrite zeros_lookup, c0_zero. ring.
Qed.

(** The scatter of an element matrix adds, for every entry, the entry
    times the weight of its row and the displacement of its column. *)
Lemma W_scatter i ke K :
  square D K -> (i * 2 + 3 < D)%nat ->
  W (scatter i ke K)
  = W K + sum_range 0 4 (fun r =>
            sum_range 0 4 (fun cc =>
              U !!! (idxs i !!! cc) * (tw (idxs i !!! r) * mget ke r cc))).
Proof.
  intros HK Hi. unfold scatter.
  assert (forall r, (r < 4)%nat -> (idxs i !!! r < D)%nat) as Hidx.
  { intros r Hr. unfold idxs. do 4 (destruct r as [|r]; [cbn; lia|]). lia. }
  set (term := fun r cc => U !!! (idxs i !!! cc) * (tw (idxs i !!! r) * mget ke r cc)).
  apply (for_range_inv
    (fun r K' => square D K'
       /\ W K' = W K + sum_range 0 r (fun r => sum_range 0 4 (term r)))); [lia| |].
  - split; [done|]. rewrite sum_range_nil by lia. ring.
  - intros r K1 Hr [Hsq HW]. rewrite sum_range_snoc by lia.
    assert (square D (for_range 0 4
              (fun cc K0 => mset K0 (idxs i !!! r) (idxs i !!! cc)
                 (mget K0 (idxs i !!! r) (idxs i !!! cc) + mget ke r cc)) K1)
            /\ W (for_range 0 4
              (fun cc K0 => mset K0 (idxs i !!! r) (idxs i !!! cc)
                 (mget K0 (idxs i !!! r) (idxs i !!! cc) + mget ke r cc)) K1)
               = W K1 + sum_range 0 4 (term r)) as [Hsq' HW'].
    { apply (for_range_inv
        (fun cc K' => square D K' /\ W K' = W K1 + sum_range 0 cc (term r))); [lia| |].
      - split; [done|]. rewrite sum_range_nil by lia. ring.
      - intros cc K2 Hcc [Hsq2 HW2]. split; [by apply square_mset|].
        rewrite W_bump by (done || apply Hidx; lia).
        rewrite sum_range_snoc by lia. rewrite HW2. unfold term. ring. }
    split; [done|]. rewrite HW', HW. ring.
Qed.

Lemma sum_range_4 (f : nat -> Qc) :
  sum_range 0 4 f = f 0%nat + f 1%nat + f 2%nat + f 3%nat.
Proof. unfold sum_range, for_range. cbn [seq fold_left Nat.sub]. rewrite c0_zero. ring. Qed.

(** Without hinges an element adds nothing: the two deflection rows of
    the element stiffness cancel in every column. *)
Lemma W_assemble_element EI fnodes i K :
  square D K -> (i * 2 + 3 < D)%nat ->
  W (assemble_element EI fnodes [] i K) = W K.
Proof.
  intros HK Hi. unfold assemble_element. cbv zeta.
  destruct (Num.leb _ _); [done|].
  assert (has [] i || has [] (i + 1) = false) as -> by done.
  rewrite W_scatter by done. rewrite sum_range_4, !sum_range_4.
  unfold elementStiffness, mget, idxs.
  cbn [lookup_total list_lookup_total].
  rewrite !tw_even, !tw_odd. unfold Qcdiv. ring.
Qed.

Lemma W_assemble EI fnodes :
  D = (length fnodes * 2)%nat -> W (assemble EI fnodes []) = 0.
Proof.
  intros HD. unfold assemble. rewrite <- HD.
  apply (for_range_inv' (fun K => square D K /\ W K = 0)).
  - split; [apply square_zero_matrix|apply W_zero_matrix].
  - intros i K Hi [HK HW]. split.
    + unfold assemble_element. destruct (Num.leb _ _); [done|].
      apply square_scatter; [done|lia].
    + rewrite W_assemble_element by (done || lia). done.
Qed.

Lemma W_add_diag K a v :
  square D K -> (a < D)%nat -> W (add_diag K a v) = W K + U !!! a * (tw a * v).
Proof. intros HK Ha. unfold add_diag. by apply W_bump. Qed.

(** What a support adds: its penalty times the deflection of its node,
    unless it is a HINGE. *)
Lemma W_apply_supports penalty fnodes supports K :
  D = (length fnodes * 2)%nat -> fnodes <> [] -> square D K ->
  W (apply_supports penalty fnodes supports K)
  = W K
    + fold_left Qcplus
        ((fun s => if non_hinge s
                   then penalty * U !!! (findClosestNodeIndex fnodes (s_position s) * 2)%nat
                   else 0) <$> supports) 0.
Proof.
  intros HD Hne. unfold apply_supports.
  assert (forall (l : vec) a, fold_left Qcplus l a = a + fold_left Qcplus l 0) as Hfold.
  { induction l as [|x l IH]; intros a; cbn [fold_left]; [ring|].
    rewrite IH. rewrite (IH (0 + x)). ring. }
  revert K. induction supports as [|s ss IH]; intros K HK.
  - cbn. ring.
  - cbn [fold_left fmap list_fmap].
    pose proof (findClosestNodeIndex_bound fnodes (s_position s) Hne) as Hidx.
    set (idx := findClosestNodeIndex fnodes (s_position s)) in *.
    rewrite Hfold. unfold non_hinge at 1.
    destruct (s_type s).
    + rewrite IH by (by apply square_add_diag).
      rewrite W_add_diag by (done || lia). rewrite tw_even. ring.
    + rewrite IH by (by apply square_add_diag).
      rewrite W_add_diag by (done || lia). rewrite tw_even. ring.
    + rewrite IH by (by do 2 apply square_add_diag).
      rewrite W_add_diag by ((by apply square_add_diag) || lia).
      rewrite W_add_diag by (done || lia). rewrite tw_even, tw_odd. ring.
    + rewrite IH by done. ring.
Qed.

(** If [K U = F] row by row, the weighted rows of [F] add up to [W K]. *)
Lemma W_rows (K : matrix) (F : vec) :
  (forall q, (q < D)%nat -> sum_range 0 D (fun j => mget K q j * U !!! j) = F !!! q) ->
  sum_range 0 D (fun q => tw q * F !!! q) = W K.
Proof.
  intros Hrows. unfold W, wsum.
  rewrite (sum_range_ext 0 D _
    (fun q => sum_range 0 D (fun j => U !!! j * (tw q * mget K q j)))).
  2:{ intros q Hq. rewrite <- Hrows by lia. rewrite <- sum_range_scale.
      apply sum_range_ext. intros j _. ring. }
  rewrite sum_range_exchange. apply sum_range_ext. intros j _.
  by rewrite sum_range_scale.
Qed.

Lemma weighted_rows_vadd F k d :
  (k < D)%nat -> length F = D ->
  sum_range 0 D (fun q => tw q * vadd F k d !!! q)
  = sum_range 0 D (fun q => tw q * F !!! q) + tw k * d.
Proof.
  intros Hk HF.
  rewrite (sum_range_ext 0 D _
    (fun q => tw q * F !!! q + (if decide (q = k) then tw k * d else 0))).
  - apply sum_range_bump. lia.
  - intros q Hq. unfold vadd. destruct (decide (q = k)) as [->|Hne].
    + rewrite list_lookup_total_insert_eq by lia. ring.
    + rewrite list_lookup_total_insert_ne by done. ring.
Qed.

Lemma weighted_pairs (f : nat -> Qc) n :
  sum_range 0 (n * 2) (fun q => tw q * f q) = sum_range 0 n (fun i => f (2 * i)%nat).
Proof.
  induction n as [|n IH]; [by rewrite !sum_range_nil by lia|].
  replace (Datatypes.S n * 2)%nat with (Datatypes.S (Datatypes.S (n * 2))) by lia.
  rewrite !sum_range_snoc by lia. rewrite IH.
  replace (Datatypes.S (n * 2)) with (n * 2 + 1)%nat by lia.
  rewrite tw_even, tw_odd. replace (2 * n)%nat with (n * 2)%nat by lia. ring.
Qed.

Lemma weighted_vertical (F : vec) n :
  length F = (n * 2)%nat ->
  sum_range 0 (n * 2) (fun q => tw q * F !!! q) = vertical F.
Proof.
  intros HF. rewrite weighted_pairs. unfold vertical.
  rewrite qsum_sum_range, (length_even_entries F n) by lia.
  apply sum_range_ext. intros i Hi. rewrite (even_entries_lookup F n) by lia. done.
Qed.

Lemma vertical_vadd (F : vec) n k d :
  D = (n * 2)%nat -> length F = D -> (k < D)%nat ->
  vertical (vadd F k d) = vertical F + (if Nat.even k then d else 0).
Proof.
  intros HD HF Hk. rewrite <- !(weighted_vertical _ n) by (rewrite ?length_vadd; lia).
  rewrite <- HD. rewrite weighted_rows_vadd by done. unfold tw.
  destruct (Nat.even k); ring.
Qed.

(** The balance: if [U] solves the penalized system of a beam without
    hinges for the right-hand side [F], the deflection entries of [F] add
    up to the penalties times the deflections at the supports. *)
Lemma vertical_balance EI penalty fnodes supports (F : vec) :
  D = (length fnodes * 2)%nat -> fnodes <> [] -> length F = D ->
  (forall q, (q < D)%nat ->
     sum_range 0 D
       (fun j => mget (apply_supports penalty fnodes supports (assemble EI fnodes [])) q j
                 * U !!! j) = F !!! q) ->
  vertical F
  = qsum ((fun s => if non_hinge s
                    then penalty * U !!! (findClosestNodeIndex fnodes (s_position s) * 2)%nat
                    else 0) <$> supports).
Proof.
  intros HD Hne HF Hrows.
  rewrite <- (weighted_vertical F (length fnodes)) by lia. rewrite <- HD.
  rewrite (W_rows _ F Hrows).
  rewrite (W_apply_supports penalty fnodes supports _ HD Hne).
  2:{ rewrite HD. apply square_assemble. }
  rewrite (W_assemble EI fnodes HD). unfold qsum. rewrite c0_zero. ring.
Qed.
End Balance.

Lemma vertical_zeros n : vertical (zeros (n * 2)) = 0.
Proof.
  unfold vertical. rewrite qsum_sum_range. apply sum_range_zero_terms.
  intros i Hi. rewrite (even_entries_lookup _ n).
  - by rewrite zeros_lookup.
  - rewrite length_zeros. lia.
  - rewrite (length_even_entries _ n) in Hi; [lia|rewrite length_zeros; lia].
Qed.


(** ** Scaling the loads *)

Lemma for_range_rel2 {S} (R : S -> S -> Prop) lo hi (f1 f2 : nat -> S -> S) s1 s2 :
  R s1 s2 ->
  (forall i a b, (lo <= i < hi)%nat -> R a b -> R (f1 i a) (f2 i b)) ->
  R (for_range lo hi f1 s1) (for_range lo hi f2 s2).
Proof.
  intros H0 Hstep.
  apply (for_range_rel3 (fun a b _ => R a b) lo hi f1 f2 f1 s1 s2 s1); [done|].
  intros i a b d Hi. by apply Hstep.
Qed.

Lemma fold_left_fmap_l {A B S} (f : S -> B -> S) (g : A -> B) (l : list A) s :
  fold_left f (g <$> l) s = fold_left (fun s x => f s (g x)) l s.
Proof. revert s. induction l as [|x l IH]; intros s; [done|]. cbn. apply IH. Qed.

Lemma vscale_length k (v : vec) : length (vscale k v) = length v.
Proof. unfold vscale. apply length_fmap. Qed.

Lemma vscale_lookup k (v : vec) i : vscale k v !!! i = k * v !!! i.
Proof.
  unfold vscale. rewrite !list_lookup_total_alt, list_lookup_fmap.
  destruct (v !! i); [done|]. cbn. change (inhabitant : Qc) with (c 0).
  rewrite c0_zero. ring.
Qed.

Lemma vscale_zeros k n : vscale k (zeros n) = zeros n.
Proof.
  unfold vscale, zeros. rewrite fmap_replicate. f_equal. rewrite c0_zero. ring.
Qed.

Lemma axpy_zeros_vscale k (u : vec) : axpy k u (zeros (length u)) = vscale k u.
Proof.
  apply (list_eq_lookup_total _ _ (length u)).
  - rewrite axpy_length; [done|by rewrite length_zeros].
  - apply vscale_length.
  - intros i Hi. rewrite axpy_lookup by (by rewrite length_zeros).
    rewrite vscale_lookup, zeros_lookup, c0_zero. ring.
Qed.

Lemma vadd_vscale k (F : vec) i d : vadd (vscale k F) i (k * d) = vscale k (vadd F i d).
Proof.
  unfold vadd. rewrite vscale_lookup. unfold vscale. rewrite list_fmap_insert.
  f_equal. ring.
Qed.

Lemma vadd_eq (F G : vec) i d e : F = G -> d = e -> vadd F i d = vadd G i e.
Proof. by intros -> ->. Qed.

Lemma overlap_scale k x1 x2 l :
  overlap x1 x2 (scale_load k l) = (fun p => (k * p.1, p.2)) <$> overlap x1 x2 l.
Proof.
  unfold overlap, scale_load. cbn [l_type l_endPosition l_position l_magnitude l_endMagnitude].
  destruct (is_distributed (l_type l)); [|done].
  destruct (l_endPosition l) as [e|]; [|done]. cbv zeta.
  destruct (Num.ltb _ _); [|done]. cbn [fmap option_fmap option_map fst snd]. f_equal. f_equal.
  unfold Qcdiv. destruct (l_type l); try ring.
  destruct (l_endMagnitude l) as [w|]; cbn [fmap option_fmap option_map default from_option]; unfold id; ring.
Qed.

Lemma distributed_fe_scale k x1 x2 l fe :
  distributed_fe x1 x2 (scale_load k l) (vscale k fe)
  = vscale k (distributed_fe x1 x2 l fe).
Proof.
  unfold distributed_fe. rewrite overlap_scale.
  destruct (overlap x1 x2 l) as [[q12 loadLen]|]; [|done].
  cbn [fmap option_fmap option_map fst snd]. cbv zeta.
  rewrite <- !vadd_vscale. repeat (apply vadd_eq; [|unfold Qcdiv; ring]). done.
Qed.

Lemma distributed_fe_internal_scale k x1 x2 l fe :
  distributed_fe_internal x1 x2 (scale_load k l) (vscale k fe)
  = vscale k (distributed_fe_internal x1 x2 l fe).
Proof.
  unfold distributed_fe_internal. rewrite overlap_scale.
  destruct (overlap x1 x2 l) as [[q12 loadLen]|]; [|done].
  cbn [fmap option_fmap option_map fst snd]. cbv zeta.
  rewrite <- !vadd_vscale. repeat (apply vadd_eq; [|unfold Qcdiv; ring]). done.
Qed.

Lemma fold_distributed_fe_scale k x1 x2 loads fe :
  fold_left (fun fe load => distributed_fe x1 x2 load fe) (scale_load k <$> loads)
    (vscale k fe)
  = vscale k (fold_left (fun fe load => distributed_fe x1 x2 load fe) loads fe).
Proof.
  rewrite fold_left_fmap_l. revert fe.
  induction loads as [|l ls IH]; intros fe; [done|].
  cbn [fold_left]. rewrite distributed_fe_scale. apply IH.
Qed.

Lemma fold_distributed_fe_internal_scale k x1 x2 loads fe :
  fold_left (fun fe load => distributed_fe_internal x1 x2 load fe) (scale_load k <$> loads)
    (vscale k fe)
  = vscale k (fold_left (fun fe load => distributed_fe_internal x1 x2 load fe) loads fe).
Proof.
  rewrite fold_left_fmap_l. revert fe.
  induction loads as [|l ls IH]; intros fe; [done|].
  cbn [fold_left]. rewrite distributed_fe_internal_scale. apply IH.
Qed.

(** A release of a scaled force vector: the same stiffness, the scaled
    force vector. *)
Lemma applyMomentRelease_scale k ke (u : vec) a b :
  length u = 4%nat ->
  applyMomentRelease ke (vscale k u) a b
  = ((applyMomentRelease ke u a b).1, vscale k (applyMomentRelease ke u a b).2).
Proof.
  intros Hu.
  pose proof (applyMomentRelease_rel k ke u (zeros (length u)) a b) as (H1 & H2 & H3 & H4).
  { by rewrite length_zeros. }
  rewrite axpy_zeros_vscale in H1, H4. rewrite Hu in H3, H4.
  rewrite applyMomentRelease_zero_force in H3, H4.
  rewrite length_zeros in H3. rewrite <- H3 in H4. rewrite axpy_zeros_vscale in H4.
  destruct (applyMomentRelease ke (vscale k u) a b) as [ke3 fe3].
  cbn [fst snd] in *. by subst.
Qed.

Lemma existsb_scale k loads :
  existsb (fun l => is_distributed (l_type l)) (scale_load k <$> loads)
  = existsb (fun l => is_distributed (l_type l)) loads.
Proof. induction loads as [|l ls IH]; [done|]. cbn. by rewrite IH. Qed.

Lemma solve_scale s k (b : vec) :
  LUSolver_solve s (vscale k b) = vscale k (LUSolver_solve s b).
Proof.
  rewrite <- (axpy_zeros_vscale k b).
  apply (list_eq_lookup_total _ _ (lu_n s)).
  - apply length_solve.
  - by rewrite vscale_length, length_solve.
  - intros i Hi. rewrite vscale_lookup. unfold LUSolver_solve.
    assert (backward s (forward s (axpy k b (zeros (length b)))) !!! i
            = k * backward s (forward s b) !!! i
              + backward s (forward s (zeros (length b))) !!! i) as ->.
    { apply (backward_linear s k _ _ _) with (k := lu_n s); [|lia|done].
      intros j Hj. apply forward_linear; [by rewrite length_zeros|done]. }
    rewrite forward_zeros, backward_zeros, zeros_lookup, c0_zero. ring.
Qed.

Section LoadVector.
Variables (EI : Qc) (fnodes : vec) (hs : list nat).

Let numNodes := length fnodes.
Let totalDof := (numNodes * 2)%nat.

(** [fe] of element [i] at line 204, and the body of the loop of lines
    170-206. *)
Let fe_of (loads : list Load) (i : nat) : vec :=
  let x1 := fnodes !!! i in
  let x2 := fnodes !!! (i + 1)%nat in
  let fe := fold_left (fun fe load => distributed_fe x1 x2 load fe) loads (zeros 4) in
  if has hs i || has hs (i + 1)
  then snd (applyMomentRelease (elementStiffness EI (x2 - x1)) fe (has hs i) (has hs (i + 1)))
  else fe.

Let element_step (loads : list Load) (i : nat) (F : vec) : vec :=
  if Num.leb (fnodes !!! (i + 1)%nat - fnodes !!! i) (c 0) then F
  else for_range 0 4 (fun r F => vadd F (idxs i !!! r) (fe_of loads i !!! r)) F.

Let point_step (F : vec) (load : Load) : vec :=
  match l_type load with
  | POINT => vadd F (findClosestNodeIndex fnodes (l_position load) * 2)
               (- (l_magnitude load * Num.k1000))
  | MOMENT => vadd F (findClosestNodeIndex fnodes (l_position load) * 2 + 1)
                (l_magnitude load * Num.k1000)
  | _ => F
  end.

Lemma buildLoadVector_eq loads :
  buildLoadVector EI fnodes hs loads
  = fold_left point_step loads
      (if existsb (fun l => is_distributed (l_type l)) loads
       then for_range 0 (numNodes - 1) (element_step loads) (zeros totalDof)
       else zeros totalDof).
Proof. reflexivity. Qed.

Lemma fe_of_length loads i : length (fe_of loads i) = 4%nat.
Proof.
  unfold fe_of. cbv zeta.
  set (fe := fold_left _ loads (zeros 4)).
  assert (length fe = 4%nat) as Hfe by (subst fe; by rewrite length_fold_distributed_fe).
  destruct (has hs i || has hs (i + 1)); [|done].
  pose proof (applyMomentRelease_rel 1
                (elementStiffness EI (fnodes !!! (i + 1)%nat - fnodes !!! i))
                fe (zeros 4) (has hs i) (has hs (i + 1)) Hfe) as (_ & _ & Hl & _).
  rewrite Hl, applyMomentRelease_zero_force. done.
Qed.

Lemma fe_of_app l1 l2 i : fe_of (l1 ++ l2) i = axpy 1 (fe_of l1 i) (fe_of l2 i).
Proof.
  unfold fe_of. cbv zeta. rewrite fold_distributed_fe_app.
  destruct (has hs i || has hs (i + 1)); [|done].
  by apply (applyMomentRelease_rel 1); rewrite !length_fold_distributed_fe.
Qed.

Lemma fe_of_none loads i :
  existsb (fun l => is_distributed (l_type l)) loads = false -> fe_of loads i = zeros 4.
Proof.
  intros H. unfold fe_of. cbv zeta. rewrite fold_distributed_fe_none by done.
  destruct (has hs i || has hs (i + 1)); [|done]. apply applyMomentRelease_zero_force.
Qed.

Lemma length_element_step loads i F : length (element_step loads i F) = length F.
Proof.
  unfold element_step. destruct (Num.leb _ _); [done|].
  apply (for_range_inv' (fun F' => length F' = length F)); [done|].
  intros r F' _ H. by rewrite length_vadd.
Qed.

Lemma element_step_app l1 l2 i F1 F2 :
  length F1 = length F2 ->
  element_step (l1 ++ l2) i (axpy 1 F1 F2)
  = axpy 1 (element_step l1 i F1) (element_step l2 i F2).
Proof.
  intros H. unfold element_step. destruct (Num.leb _ _); [done|].
  apply (for_range_rel3 (fun a b d => length a = length b /\ d = axpy 1 a b) 0 4
           (fun r F => vadd F (idxs i !!! r) (fe_of l1 i !!! r))
           (fun r F => vadd F (idxs i !!! r) (fe_of l2 i !!! r))
           (fun r F => vadd F (idxs i !!! r) (fe_of (l1 ++ l2) i !!! r))); [done|].
  intros r a b d _ [Hl ->]. split; [by rewrite !length_vadd|].
  rewrite fe_of_app, axpy_lookup by (by rewrite !fe_of_length).
  rewrite <- vadd_axpy by done. f_equal. ring.
Qed.

Lemma element_step_none loads i F :
  existsb (fun l => is_distributed (l_type l)) loads = false ->
  element_step loads i F = F.
Proof.
  intros H. unfold element_step. destruct (Num.leb _ _); [done|].
  apply (for_range_inv' (fun F' => F' = F)); [done|].
  intros r F' _ ->. rewrite fe_of_none by done. rewrite zeros_lookup. apply vadd_zero.
Qed.

(** The element loop may as well run when no load is distributed. *)
Lemma element_loop_always loads :
  (if existsb (fun l => is_distributed (l_type l)) loads
   then for_range 0 (numNodes - 1) (element_step loads) (zeros totalDof)
   else zeros totalDof)
  = for_range 0 (numNodes - 1) (element_step loads) (zeros totalDof).
Proof.
  destruct (existsb _ loads) eqn:H; [done|]. symmetry.
  apply (for_range_inv' (fun F => F = zeros totalDof)); [done|].
  intros i F _ ->. by apply element_step_none.
Qed.

Lemma length_point_step F load : length (point_step F load) = length F.
Proof. unfold point_step. destruct (l_type load); by rewrite ?length_vadd. Qed.

Lemma length_fold_point_step loads F : length (fold_left point_step loads F) = length F.
Proof.
  revert F. induction loads as [|l ls IH]; intros F; [done|].
  cbn [fold_left]. by rewrite IH, length_point_step.
Qed.

Lemma fold_point_step_axpy_l loads u v :
  length u = length v ->
  fold_left point_step loads (axpy 1 u v) = axpy 1 (fold_left point_step loads u) v.
Proof.
  revert u. induction loads as [|l ls IH]; intros u H; [done|]. cbn [fold_left].
  assert (point_step (axpy 1 u v) l = axpy 1 (point_step u l) v) as ->.
  { unfold point_step. destruct (l_type l); by rewrite ?vadd_axpy_l. }
  apply IH. by rewrite length_point_step.
Qed.

Lemma fold_point_step_axpy_r loads u v :
  length u = length v ->
  fold_left point_step loads (axpy 1 u v) = axpy 1 u (fold_left point_step loads v).
Proof.
  revert v. induction loads as [|l ls IH]; intros v H; [done|]. cbn [fold_left].
  assert (point_step (axpy 1 u v) l = axpy 1 u (point_step v l)) as ->.
  { unfold point_step. destruct (l_type l); by rewrite ?vadd_axpy_r. }
  apply IH. by rewrite length_point_step.
Qed.

Lemma length_buildLoadVector loads :
  length (buildLoadVector EI fnodes hs loads) = totalDof.
Proof.
  rewrite buildLoadVector_eq, element_loop_always, length_fold_point_step.
  apply (for_range_inv' (fun F => length F = totalDof)); [apply length_zeros|].
  intros i F _ H. by rewrite length_element_step.
Qed.

Lemma buildLoadVector_app l1 l2 :
  buildLoadVector EI fnodes hs (l1 ++ l2)
  = axpy 1 (buildLoadVector EI fnodes hs l1) (buildLoadVector EI fnodes hs l2).
Proof.
  rewrite !buildLoadVector_eq, !element_loop_always.
  set (E1 := for_range 0 (numNodes - 1) (element_step l1) (zeros totalDof)).
  set (E2 := for_range 0 (numNodes - 1) (element_step l2) (zeros totalDof)).
  assert (length E1 = totalDof /\ length E2 = totalDof
          /\ for_range 0 (numNodes - 1) (element_step (l1 ++ l2)) (zeros totalDof)
             = axpy 1 E1 E2) as (H1 & H2 & ->).
  { apply (for_range_rel3
             (fun a b d => length a = totalDof /\ length b = totalDof /\ d = axpy 1 a b)).
    - rewrite length_zeros. by rewrite axpy_zeros.
    - intros i a b d _ (Ha & Hb & ->). rewrite !length_element_step.
      split; [done|]. split; [done|]. apply element_step_app. congruence. }
  rewrite fold_left_app.
  rewrite fold_point_step_axpy_l by congruence.
  rewrite fold_point_step_axpy_r by (rewrite length_fold_point_step; congruence).
  done.
Qed.

Lemma vertical_fold_point_step loads F :
  fnodes <> [] -> length F = totalDof ->
  vertical (fold_left point_step loads F) = vertical F - point_total loads * Num.k1000.
Proof.
  intros Hne. revert F. induction loads as [|l ls IH]; intros F HF.
  - cbn [fold_left]. unfold point_total. cbn [fmap list_fmap]. rewrite qsum_nil. ring.
  - cbn [fold_left]. rewrite IH by (by rewrite length_point_step).
    unfold point_total. cbn [fmap list_fmap]. rewrite qsum_cons.
    pose proof (findClosestNodeIndex_bound fnodes (l_position l) Hne) as Hidx.
    unfold point_step. destruct (l_type l).
    + rewrite (vertical_vadd totalDof F numNodes) by (done || subst totalDof numNodes; lia).
      rewrite Nat.even_mul, orb_true_r. ring.
    + rewrite c0_zero. ring.
    + rewrite c0_zero. ring.
    + rewrite (vertical_vadd totalDof F numNodes) by (done || subst totalDof numNodes; lia).
      replace (findClosestNodeIndex fnodes (l_position l) * 2 + 1)%nat
        with (Datatypes.S (2 * findClosestNodeIndex fnodes (l_position l))) by lia.
      rewrite Nat.even_succ, Nat.odd_mul, andb_false_l. rewrite c0_zero. ring.
Qed.

(** Without distributed loads the deflection entries of the load vector
    add up to the POINT loads, in newtons and pointing down. *)
Lemma vertical_point_loads loads :
  fnodes <> [] ->
  existsb (fun l => is_distributed (l_type l)) loads = false ->
  vertical (buildLoadVector EI fnodes hs loads) = - (point_total loads * Num.k1000).
Proof.
  intros Hne Hnd. rewrite buildLoadVector_eq, Hnd.
  rewrite vertical_fold_point_step by (done || apply length_zeros).
  subst totalDof. rewrite vertical_zeros. ring.
Qed.

Lemma fe_of_scale k loads i : fe_of (scale_load k <$> loads) i = vscale k (fe_of loads i).
Proof.
  unfold fe_of. cbv zeta.
  assert (fold_left (fun fe load =>
              distributed_fe (fnodes !!! i) (fnodes !!! (i + 1)%nat) load fe)
            (scale_load k <$> loads) (zeros 4)
          = vscale k (fold_left (fun fe load =>
              distributed_fe (fnodes !!! i) (fnodes !!! (i + 1)%nat) load fe)
            loads (zeros 4))) as ->.
  { rewrite <- (vscale_zeros k 4) at 1. apply fold_distributed_fe_scale. }
  destruct (has hs i || has hs (i + 1)); [|done].
  rewrite applyMomentRelease_scale
    by (rewrite length_fold_distributed_fe; apply length_zeros).
  done.
Qed.

Lemma element_step_scale k loads i F :
  element_step (scale_load k <$> loads) i (vscale k F) = vscale k (element_step loads i F).
Proof.
  unfold element_step. destruct (Num.leb _ _); [done|].
  apply (for_range_rel2 (fun a b => a = vscale k b)); [done|].
  intros r a b _ ->. by rewrite fe_of_scale, vscale_lookup, vadd_vscale.
Qed.

Lemma point_step_scale k F l :
  point_step (vscale k F) (scale_load k l) = vscale k (point_step F l).
Proof.
  unfold point_step, scale_load. cbn [l_type l_position l_magnitude].
  destruct (l_type l); try done.
  - rewrite <- vadd_vscale. apply vadd_eq; [done|ring].
  - rewrite <- vadd_vscale. apply vadd_eq; [done|ring].
Qed.

(** The load vector of the scaled loads is the scaled load vector. *)
Lemma buildLoadVector_scale k loads :
  buildLoadVector EI fnodes hs (scale_load k <$> loads)
  = vscale k (buildLoadVector EI fnodes hs loads).
Proof.
  rewrite !buildLoadVector_eq, !element_loop_always.
  assert (for_range 0 (numNodes - 1) (element_step (scale_load k <$> loads)) (zeros totalDof)
          = vscale k (for_range 0 (numNodes - 1) (element_step loads) (zeros totalDof)))
    as ->.
  { apply (for_range_rel2 (fun a b => a = vscale k b)); [by rewrite vscale_zeros|].
    intros i a b _ ->. apply element_step_scale. }
  rewrite fold_left_fmap_l.
  generalize (for_range 0 (numNodes - 1) (element_step loads) (zeros totalDof)).
  induction loads as [|l ls IH]; intros F; [done|].
  cbn [fold_left]. rewrite point_step_scale. apply IH.
Qed.
End LoadVector.

(** X8: load vectors superpose.  On a fixed mesh, with any hinges, the
    vector built for two lists of loads taken together is the sum of the
    vectors built for each list, and every load vector has one entry per
    degree of freedom. *)
Theorem buildLoadVector_superposition (EI : Qc) (fnodes : vec) (hs : list nat)
    (loads1 loads2 : list Load) :
  buildLoadVector EI fnodes hs (loads1 ++ loads2)
  = axpy 1 (buildLoadVector EI fnodes hs loads1) (buildLoadVector EI fnodes hs loads2)
  /\ length (buildLoadVector EI fnodes hs (loads1 ++ loads2)) = (length fnodes * 2)%nat.
Proof. split; [apply buildLoadVector_app|apply length_buildLoadVector]. Qed.

(** ** The reactions balance the loads *)

(** Every row of [K x = b] holds for the computed [x] when no guard of
    the solver fires. *)
Lemma solve_rows n (K : matrix) (b : vec) q :
  square n K -> factorization_unguarded K -> solve_unguarded (LUSolver_new K) ->
  (q < n)%nat ->
  sum_range 0 n (fun j => mget K q j * LUSolver_solve (LUSolver_new K) b !!! j) = b !!! q.
Proof.
  intros Hsq Hfac Hsol Hq.
  destruct (LUSolver_new_inv n K Hsq Hfac) as [Hn Hinv].
  pose proof Hinv as (_ & _ & _ & Hsurj & _). cbn [fst snd] in Hsurj.
  destruct (Hsurj q Hq) as (r & Hr & <-).
  by apply (lu_product_solve n K (LUSolver_new K) b r).
Qed.

Lemma no_hinge_nodes fnodes supports :
  count_type HINGE supports = 0%nat -> hingeNodes fnodes supports = [].
Proof.
  intros H. destruct (hingeNodes_spec fnodes supports) as (_ & _ & Hlen).
  rewrite H in Hlen. destruct (hingeNodes fnodes supports); [done|simpl in Hlen; lia].
Qed.

Lemma reaction_forces penalty fnodes (U : vec) supports :
  rx_force <$> reactions_of penalty fnodes U supports
  = (fun s => penalty * U !!! (findClosestNodeIndex fnodes (s_position s) * 2)%nat
              / - Num.k1000) <$> List.filter non_hinge supports.
Proof. unfold reactions_of. rewrite fmap_imap. by rewrite <- imap_const. Qed.

Lemma total_reaction_supports L EI probeX supports loads :
  total_reaction (analyze L EI probeX supports loads) * Num.k1000
  = - qsum ((fun s =>
       if non_hinge s
       then Num.e18 * EI
            * displacements L EI probeX supports loads
                !!! (findClosestNodeIndex (finalNodes L probeX supports loads)
                       (s_position s) * 2)%nat
       else 0) <$> supports).
Proof.
  unfold total_reaction. rewrite analyze_reactions, analyze_nodes, reaction_forces.
  change (fold_left Qcplus ?l (c 0)) with (qsum l).
  rewrite qsum_filter.
  rewrite (list_fmap_ext _
    (fun s => (- / Num.k1000) *
       (if non_hinge s
        then Num.e18 * EI
             * displacements L EI probeX supports loads
                 !!! (findClosestNodeIndex (finalNodes L probeX supports loads)
                        (s_position s) * 2)%nat
        else 0)) supports).
  2:{ intros i s _. destruct (non_hinge s); [|ring]. unfold Qcdiv.
      assert (Num.k1000 <> 0) as Hk by done. field. done. }
  rewrite qsum_scale.
  assert (Num.k1000 <> 0) as Hk by done. field. done.
Qed.


Lemma clamped_returns :
  analyzeBeam Examples.section_long Examples.clamped Examples.point_load Num.tenth
  = Return (analyze (Num.qfrac 1 5) (flexural_rigidity Examples.section_long) Num.tenth
              Examples.clamped Examples.point_load).
Proof. apply analyzeBeam_Return. vm_compute. reflexivity. Defined.

Lemma clamped_unguarded :
  let K := stiffness (Num.qfrac 1 5) (flexural_rigidity Examples.section_long) Num.tenth
             Examples.clamped Examples.point_load in
  factorization_unguarded K /\ solve_unguarded (LUSolver_new K).
Proof.
  cbv zeta. split.
  - intros i Hi.
    assert (length (stiffness (Num.qfrac 1 5) (flexural_rigidity Examples.section_long)
                      Num.tenth Examples.clamped Examples.point_load) = 8%nat) as Hlen
      by (vm_compute; reflexivity).
    rewrite Hlen in Hi.
    do 8 (destruct i as [|i]; [qc_closed|]). lia.
  - intros i Hi. rewrite lu_n_new in Hi.
    assert (length (stiffness (Num.qfrac 1 5) (flexural_rigidity Examples.section_long)
                      Num.tenth Examples.clamped Examples.point_load) = 8%nat) as Hlen
      by (vm_compute; reflexivity).
    rewrite Hlen in Hi.
    do 8 (destruct i as [|i]; [qc_closed|]). lia.
Defined.



(** ** The reaction influence lines add up to one *)

Lemma no_hinge_supports supports s :
  count_type HINGE supports = 0%nat -> s ∈ supports -> non_hinge s = true.
Proof.
  unfold count_type. intros H Hs. unfold non_hinge.
  destruct (s_type s) eqn:Et; try done. exfalso.
  assert (s ∈ List.filter (fun s => bool_decide (s_type s = HINGE)) supports) as Hin.
  { apply list_elem_of_In, filter_In. split; [by apply list_elem_of_In|].
    by apply bool_decide_eq_true_2. }
  destruct (List.filter _ supports); [by apply elem_of_nil in Hin|done].
Qed.

Lemma qsum_ext {A} (f g : A -> Qc) (l : list A) :
  (forall x, x ∈ l -> f x = g x) -> qsum (f <$> l) = qsum (g <$> l).
Proof.
  intros H. f_equal. apply list_fmap_ext. intros i x Hx. apply H.
  by apply list_elem_of_lookup_2 in Hx.
Qed.



(** ** The reactions array: lines 281-286 *)

Lemma label_inj i j : label i = label j -> i = j.
Proof.
  unfold label. intros H. apply (inj (String.append "R")) in H.
  apply (inj pretty) in H. lia.
Qed.

(** X11: the reactions array has one entry per non-HINGE support, in the
    order of the supports.  Entry [k] carries the id and the position of
    the [k]-th non-HINGE support and the label [R(k+1)], its moment is [0]
    unless the support is FIXED, and no two entries share a label. *)
Theorem reactions_per_support config supports loads probeX r :
  analyzeBeam config supports loads probeX = Return r ->
  let bearing := List.filter non_hinge supports in
  length (reactions r) = length bearing
  /\ (forall k s, bearing !! k = Some s ->
        exists rx, reactions r !! k = Some rx
          /\ rx_id rx = s_id s /\ rx_position rx = s_position s
          /\ rx_label rx = "R" +:+ pretty (k + 1)%nat
          /\ (s_type s <> FIXED -> rx_moment rx = c 0))
  /\ NoDup (rx_label <$> reactions r).
Proof.
  intros Hret bearing. apply analyzeBeam_inv in Hret as [_ ->].
  rewrite analyze_reactions. unfold reactions_of. fold bearing.
  split; [by rewrite length_imap|]. split.
  - intros k s Hk. eexists. rewrite list_lookup_imap, Hk. cbn [fmap option_fmap option_map].
    split; [reflexivity|]. cbn [rx_id rx_position rx_label rx_moment].
    split; [done|]. split; [done|]. split; [done|].
    intros Ht. by destruct (s_type s).
  - rewrite fmap_imap. apply NoDup_alt. intros i j lbl Hi Hj.
    rewrite list_lookup_imap in Hi, Hj.
    destruct (bearing !! i) as [si|]; [|done]. destruct (bearing !! j) as [sj|]; [|done].
    cbn [fmap option_fmap option_map compose rx_label] in Hi, Hj.
    assert (label i = label j) as H by congruence. by apply label_inj.
Qed.

Lemma reactions_per_support_witness :
  analyzeBeam Examples.section_ok Examples.two_hinges Examples.udl Examples.mid
  = Return (analyze Num.tenth (flexural_rigidity Examples.section_ok) Examples.mid
              Examples.two_hinges Examples.udl)
  /\ length (reactions (analyze Num.tenth (flexural_rigidity Examples.section_ok)
                          Examples.mid Examples.two_hinges Examples.udl)) = 2%nat.
Proof.
  assert (analyzeBeam Examples.section_ok Examples.two_hinges Examples.udl Examples.mid
          = Return (analyze Num.tenth (flexural_rigidity Examples.section_ok) Examples.mid
                      Examples.two_hinges Examples.udl)) as Hret
    by (apply analyzeBeam_Return; by vm_compute).
  split; [exact Hret|].
  destruct (reactions_per_support _ _ _ _ _ Hret) as [H _]. exact H.
Defined.

(** ** The keys and the sizes of the reaction influence lines *)

Lemma ild_init_keys supports (m : gmap string (list ILDPoint)) k :
  is_Some (fold_left ild_init_step supports m !! k)
  <-> is_Some (m !! k) \/ with_id k supports <> [].
Proof.
  revert m. induction supports as [|s ss IH]; intros m.
  - cbn. split; [by left|]. by intros [?|?].
  - cbn [fold_left]. rewrite IH. unfold ild_init_step, with_id. cbn [List.filter].
    destruct (non_hinge s); cbn [andb].
    + destruct (decide (s_id s = k)) as [->|Hne].
      * rewrite lookup_insert_eq, bool_decide_eq_true_2 by done.
        split; [intros _; by right|intros _; left; by eexists].
      * rewrite lookup_insert_ne, bool_decide_eq_false_2 by done. done.
    + done.
Qed.

Lemma ild_init_values supports (m : gmap string (list ILDPoint)) k ps :
  (forall ps', m !! k = Some ps' -> ps' = []) ->
  fold_left ild_init_step supports m !! k = Some ps -> ps = [].
Proof.
  revert m. induction supports as [|s ss IH]; intros m Hm; [apply Hm|].
  cbn [fold_left]. apply IH. intros ps'. unfold ild_init_step.
  destruct (non_hinge s); [|apply Hm].
  destruct (decide (s_id s = k)) as [->|Hne].
  - rewrite lookup_insert_eq. by intros [= <-].
  - rewrite lookup_insert_ne by done. apply Hm.
Qed.

(** X12: the keys and the sizes of [ildReactions].  The keys of the object
    are the ids of the non-HINGE supports, but for the id [__proto__],
    which never becomes a key; and [ildReactions[s.id]] of every non-HINGE
    support [s] is a series of [31 * m] points on a beam classified
    stable, [m] being the number of non-HINGE supports that carry the id,
    and of no point otherwise. *)
Theorem ildReactions_keys config supports loads probeX r :
  analyzeBeam config supports loads probeX = Return r ->
  (forall k, k ∈ own_keys (ildReactions r)
             <-> k <> "__proto__"
                 /\ exists s, s ∈ supports /\ non_hinge s = true /\ s_id s = k)
  /\ (forall s, s ∈ supports -> non_hinge s = true ->
        exists ps, ildReactions r !! s_id s = Some ps
          /\ length ps = ((if isStable r then 31 else 0)
                          * length (with_id (s_id s) supports))%nat).
Proof.
  intros Hret. apply analyzeBeam_inv in Hret as [_ ->].
  set (L := cfg_length config). set (EI := flexural_rigidity config).
  destruct (analyze_ild L EI probeX supports loads) as (HR & _ & _). cbv zeta in HR.
  assert (forall k, with_id k supports <> []
          <-> exists s, s ∈ supports /\ non_hinge s = true /\ s_id s = k) as Hwith.
  { intros k. unfold with_id. split.
    - intros Hne. destruct (List.filter _ supports) as [|s l] eqn:E; [done|].
      assert (In s (List.filter (fun s => non_hinge s && bool_decide (s_id s = k)) supports))
        as Hin by (rewrite E; by left).
      apply filter_In in Hin as [Hin Hp]. apply andb_true_iff in Hp as [Hnh Hid].
      apply bool_decide_eq_true_1 in Hid. exists s.
      split; [by apply list_elem_of_In|done].
    - intros (s & Hs & Hnh & Hid) Hnil.
      assert (In s (List.filter (fun s => non_hinge s && bool_decide (s_id s = k)) supports))
        as Hin.
      { apply filter_In. split; [by apply list_elem_of_In|].
        rewrite Hnh. by rewrite bool_decide_eq_true_2. }
      by rewrite Hnil in Hin. }
  assert (forall k, is_Some (ild_init supports !! k) <-> with_id k supports <> []) as Hinit.
  { intros k. unfold ild_init. rewrite ild_init_keys. rewrite lookup_empty.
    split; [intros [[? [=]]|?]; done|by right]. }
  assert (forall k,
            (is_Some (ildReactions (analyze L EI probeX supports loads) !! k)
             <-> exists s, s ∈ supports /\ non_hinge s = true /\ s_id s = k)
            /\ (forall ps, ildReactions (analyze L EI probeX supports loads) !! k = Some ps ->
                  length ps
                  = ((if isStable (analyze L EI probeX supports loads) then 31 else 0)
                     * length (with_id k supports))%nat)) as Hall.
  { intros k. rewrite HR. destruct (isStable (analyze L EI probeX supports loads)).
    - unfold for_range.
      destruct (ild_sweep_fold L EI probeX (nodes (analyze L EI probeX supports loads))
                  (hingeNodes (nodes (analyze L EI probeX supports loads)) supports)
                  (Num.e18 * EI) (factorization L EI probeX supports loads) supports
                  (seq 0 (31 - 0)) (mkIld (ild_init supports) [] [])) as (_ & _ & Hk).
      cbv zeta in Hk. rewrite Hk. cbn [st_reactions]. split.
      + rewrite <- Hwith, <- Hinit. rewrite fmap_is_Some. done.
      + intros ps Hps. apply fmap_Some in Hps as (ps0 & E & ->).
        cbn [st_reactions] in E.
        assert (ps0 = []) as ->.
        { apply (ild_init_values supports ∅ k); [|exact E]. intros ps'.
          by rewrite lookup_empty. }
        cbv beta. rewrite app_nil_l, length_concat.
        rewrite <- list_fmap_compose.
        rewrite (const_fmap _ _ (length (with_id k supports))).
        2:{ intros i x _. cbn. by rewrite length_fmap. }
        rewrite sum_list_replicate, length_seq. lia.
    - cbn [st_reactions]. split.
      + by rewrite <- Hwith, <- Hinit.
      + intros ps Hps. apply (ild_init_values supports ∅ k) in Hps as ->; [done|].
        intros ps'. by rewrite lookup_empty. }
  split.
  - intros k. destruct (Hall k) as [Hkey _]. unfold own_keys.
    rewrite elem_of_difference, elem_of_dom, Hkey, not_elem_of_singleton. tauto.
  - intros s Hs Hnh. destruct (Hall (s_id s)) as [Hkey Hlen].
    destruct (proj2 Hkey) as [ps Hps]; [by exists s|].
    exists ps. split; [done|]. by apply Hlen.
Qed.

Lemma ildReactions_keys_witness :
  analyzeBeam Examples.section_ok Examples.twin_ids Examples.udl Examples.mid
  = Return (analyze Num.tenth (flexural_rigidity Examples.section_ok) Examples.mid
              Examples.twin_ids Examples.udl)
  /\ "a" ∈ own_keys (ildReactions (analyze Num.tenth (flexural_rigidity Examples.section_ok)
                                     Examples.mid Examples.twin_ids Examples.udl)).
Proof.
  assert (analyzeBeam Examples.section_ok Examples.twin_ids Examples.udl Examples.mid
          = Return (analyze Num.tenth (flexural_rigidity Examples.section_ok) Examples.mid
                      Examples.twin_ids Examples.udl)) as Hret
    by (apply analyzeBeam_Return; by vm_compute).
  split; [exact Hret|].
  destruct (ildReactions_keys _ _ _ _ _ Hret) as [H _]. apply H. clear H.
  split; [discriminate|].
  exists (mkSupport "a" FIXED (c 0)).
  split; [apply list_elem_of_here|split; reflexivity].
Defined.

(** ** The deflection at a support *)

(** X13: a support is a stiff spring, not a fixed point.  For inputs on
    the beam, the node of a non-HINGE support is at the position of the
    support, and the deflection reported there (mm) times the penalty
    [1e18 * EI] is minus the reaction force (kN) times [1e6]. *)
Theorem support_deflection config supports loads probeX r :
  analyzeBeam config supports loads probeX = Return r ->
  in_span (cfg_length config) probeX supports loads ->
  forall k s, List.filter non_hinge supports !! k = Some s ->
    exists rx idx,
      reactions r !! k = Some rx
      /\ nodes r !! idx = Some (s_position s)
      /\ deflection r !!! idx * (Num.e18 * flexural_rigidity config)
         = - (rx_force rx * Num.e6).
Proof.
  intros Hret Hspan k s Hk. apply analyzeBeam_inv in Hret as [_ ->].
  set (L := cfg_length config). set (EI := flexural_rigidity config).
  assert (s ∈ supports) as Hs.
  { apply list_elem_of_lookup_2 in Hk. apply list_elem_of_In, filter_In in Hk as [Hk _].
    by apply list_elem_of_In. }
  rewrite analyze_reactions, analyze_nodes, analyze_deflection.
  set (fnodes := finalNodes L probeX supports loads).
  set (U := displacements L EI probeX supports loads).
  pose proof (finalNodes_nonempty L probeX supports loads) as Hne. fold fnodes in Hne.
  pose proof (findClosestNodeIndex_bound fnodes (s_position s) Hne) as Hidx.
  destruct (finalNodes_contract L probeX supports loads
              (in_span_critical _ _ _ _ Hspan)) as (_ & _ & _ & Hin).
  fold fnodes in Hin.
  assert (s_position s ∈ fnodes) as Hpos.
  { apply Hin. do 3 right. left. by exists s. }
  eexists. exists (findClosestNodeIndex fnodes (s_position s)).
  unfold reactions_of. rewrite list_lookup_imap, Hk. cbn [fmap option_fmap option_map].
  split; [reflexivity|]. split.
  - rewrite list_lookup_lookup_total_lt by done. f_equal.
    by apply findClosestNodeIndex_hit.
  - cbn [rx_force].
    assert (length U = (2 * length fnodes)%nat) as HU by apply length_displacements.
    rewrite (list_lookup_total_fmap (fun v => v * Num.k1000) (even_entries U))
      by (rewrite (length_even_entries U (length fnodes)); done).
    rewrite (even_entries_lookup U (length fnodes)) by done.
    replace (2 * findClosestNodeIndex fnodes (s_position s))%nat
      with (findClosestNodeIndex fnodes (s_position s) * 2)%nat by lia.
    assert (Num.k1000 <> 0) as Hk1 by done.
    replace Num.e6 with (Num.k1000 * Num.k1000) by (apply Qc_is_canon; by vm_compute).
    unfold Qcdiv. field. done.
Qed.

Lemma support_deflection_witness :
  analyzeBeam Examples.section_ok Examples.fixed_roller Examples.udl Examples.mid
  = Return Examples.result_propped
  /\ in_span Num.tenth Examples.mid Examples.fixed_roller Examples.udl
  /\ exists rx idx,
       reactions Examples.result_propped !! 1%nat = Some rx
       /\ nodes Examples.result_propped !! idx = Some Num.tenth
       /\ deflection Examples.result_propped !!! idx
          * (Num.e18 * flexural_rigidity Examples.section_ok)
          = - (rx_force rx * Num.e6).
Proof.
  split; [exact propped_returns|]. split; [exact in_span_example|].
  exact (support_deflection _ _ _ _ _ propped_returns in_span_example 1%nat
           (mkSupport "2" ROLLER Num.tenth) eq_refl).
Defined.

(** ** The in-place moment release, entry by entry *)

Lemma release_step_entries (r : nat) (ke : matrix) (fe : vec) i j :
  (r < 4)%nat -> length ke = 4%nat -> Forall (fun row => length row = 4%nat) ke ->
  Num.eps12 <= Qcabs (mget ke r r) ->
  (i < 4)%nat -> (j < 4)%nat ->
  mget (fst (release_step r (ke, fe))) i j = released_entry ke r i j.
Proof.
  intros Hr Hke Hrows Hkrr Hi Hj.
  assert (mget ke r r <> 0) as Hnz.
  { apply (Qcabs_ge_nonzero _ Num.eps12); [|done]. apply NumFacts.ltb_lt. by vm_compute. }
  destruct ke as [|r0 [|r1 [|r2 [|r3 [|]]]]]; try done.
  repeat match goal with H : Forall _ (_ :: _) |- _ => apply Forall_cons in H as [? H] end.
  destruct r0 as [|a0 [|a1 [|a2 [|a3 [|]]]]]; try done.
  destruct r1 as [|b0 [|b1 [|b2 [|b3 [|]]]]]; try done.
  destruct r2 as [|c0 [|c1 [|c2 [|c3 [|]]]]]; try done.
  destruct r3 as [|d0 [|d1 [|d2 [|d3 [|]]]]]; try done.
  unfold release_step.
  apply NumFacts.ltb_ge in Hkrr. rewrite Hkrr.
  do 4 (destruct r as [|r]; [
    do 4 (destruct i as [|i]; [
      do 4 (destruct j as [|j]; [
        cbn [mget lookup_total list_lookup_total] in Hnz;
        cbv [released_entry for_range seq fold_left Nat.sub fst snd mset mget
             lookup_total list_lookup_total insert list_insert decide decide_rel
             Nat.lt_dec Nat.le_dec Nat.eq_dec];
        cbn;
        try (rewrite c0_zero); try (field; exact Hnz)|]); lia|]); lia|]). lia.
Qed.

Lemma square_release_step r ke fe :
  square 4 ke -> square 4 (fst (release_step r (ke, fe))).
Proof.
  intros H. unfold release_step. destruct (Num.ltb _ _); [done|].
  apply (for_range_inv' (fun st : matrix * vec => square 4 (fst st))); [done|].
  intros i [k f] _ Hk. cbn [fst] in *.
  apply (for_range_inv' (fun k' => square 4 k')); [done|].
  intros j k' _ Hk'. by apply square_mset.
Qed.

Lemma square_rows_Forall n (m : matrix) :
  square n m -> Forall (fun row => length row = n) m.
Proof.
  intros [Hl Hr]. apply Forall_lookup. intros i row Hi.
  pose proof (lookup_lt_Some _ _ _ Hi) as Hlt.
  rewrite <- (Hr i) by lia. by rewrite (list_lookup_total_correct _ _ _ Hi).
Qed.

Lemma mget_outside n (m : matrix) i j :
  square n m -> (n <= i)%nat \/ (n <= j)%nat -> mget m i j = c 0.
Proof.
  intros [Hl Hr] Hij. unfold mget.
  destruct (decide (i < n)%nat) as [Hi|Hi].
  - destruct Hij as [?|Hj]; [lia|].
    rewrite list_lookup_total_alt, (proj2 (lookup_ge_None _ _)); [done|].
    rewrite Hr by done. lia.
  - rewrite (list_lookup_total_alt m), (proj2 (lookup_ge_None _ _)) by lia. done.
Qed.

Lemma symmetric_inside n (m : matrix) :
  square n m -> (forall i j, (i < n)%nat -> (j < n)%nat -> mget m i j = mget m j i) ->
  symmetric m.
Proof.
  intros Hsq H i j.
  destruct (decide (i < n)%nat) as [Hi|Hi]; [destruct (decide (j < n)%nat) as [Hj|Hj]|].
  - by apply H.
  - rewrite !(mget_outside n) by (done || lia). done.
  - rewrite !(mget_outside n) by (done || lia). done.
Qed.

Lemma released_entry_symmetric ke r i j :
  mget ke r r <> 0 -> symmetric ke -> released_entry ke r i j = released_entry ke r j i.
Proof.
  intros Hnz Hsym. unfold released_entry. cbv zeta.
  rewrite (Hsym j i), (Hsym j r), (Hsym r i).
  repeat case_decide; try lia; subst; try done; try (rewrite c0_zero; field; done);
    try (rewrite (Hsym r _); done); try (rewrite (Hsym _ r); done); try (field; done).
Qed.

Lemma release_step_symmetric r ke fe :
  (r < 4)%nat -> square 4 ke -> symmetric ke ->
  symmetric (fst (release_step r (ke, fe))).
Proof.
  intros Hr Hsq Hsym.
  destruct (Num.ltb (Qcabs (mget ke r r)) Num.eps12) eqn:E.
  { unfold release_step. by rewrite E. }
  apply NumFacts.ltb_ge in E.
  assert (mget ke r r <> 0) as Hnz.
  { apply (Qcabs_ge_nonzero _ Num.eps12); [|done]. apply NumFacts.ltb_lt. by vm_compute. }
  apply (symmetric_inside 4); [by apply square_release_step|].
  intros i j Hi Hj.
  rewrite !release_step_entries
    by (done || apply (square_length 4), Hsq || by apply square_rows_Forall).
  by apply released_entry_symmetric.
Qed.

Lemma applyMomentRelease_symmetric ke fe a b :
  square 4 ke -> symmetric ke ->
  square 4 (fst (applyMomentRelease ke fe a b))
  /\ symmetric (fst (applyMomentRelease ke fe a b)).
Proof.
  intros Hsq Hsym. unfold applyMomentRelease.
  assert (forall rs st, Forall (fun r => r < 4)%nat rs ->
            square 4 (fst st) -> symmetric (fst st) ->
            square 4 (fst (fold_left (fun st r => release_step r st) rs st))
            /\ symmetric (fst (fold_left (fun st r => release_step r st) rs st))) as H.
  { induction rs as [|r rs IH]; intros [k f] Hrs Hk1 Hk2; [done|].
    apply Forall_cons in Hrs as [Hr Hrs]. cbn [fold_left fst] in *.
    apply IH; [done| |].
    - by apply square_release_step.
    - by apply release_step_symmetric. }
  apply H; [|done|done].
  destruct a, b; cbn [app]; repeat (apply Forall_cons; split; [lia|]); apply Forall_nil_2.
Qed.

(** X14: what the release loop leaves in [ke].  For a 4x4 matrix and a
    released DOF [r] whose diagonal entry passes the [1e-12] guard, the
    in-place loop yields: above row [r] the condensed entry up to column
    [r] and the old entry beyond it; in row [r], [0] up to the diagonal
    and the old entry beyond it; below row [r] the old entry up to column
    [r] and the condensed entry beyond it.  Whatever the flags and the
    guards, a symmetric [ke] stays symmetric. *)
Theorem applyMomentRelease_in_place (ke : matrix) (fe : vec) :
  square 4 ke ->
  (Num.eps12 <= Qcabs (mget ke 1 1) ->
   forall i j, (i < 4)%nat -> (j < 4)%nat ->
     mget (fst (applyMomentRelease ke fe true false)) i j = released_entry ke 1 i j)
  /\ (Num.eps12 <= Qcabs (mget ke 3 3) ->
      forall i j, (i < 4)%nat -> (j < 4)%nat ->
        mget (fst (applyMomentRelease ke fe false true)) i j = released_entry ke 3 i j)
  /\ (symmetric ke ->
      forall releaseStart releaseEnd,
        symmetric (fst (applyMomentRelease ke fe releaseStart releaseEnd))).
Proof.
  intros Hsq. split; [|split].
  - intros Hk i j Hi Hj. unfold applyMomentRelease. cbn [app fold_left].
    apply release_step_entries;
      (done || lia || apply (square_length 4), Hsq || by apply square_rows_Forall).
  - intros Hk i j Hi Hj. unfold applyMomentRelease. cbn [app fold_left].
    apply release_step_entries;
      (done || lia || apply (square_length 4), Hsq || by apply square_rows_Forall).
  - intros Hsym a b. by apply applyMomentRelease_symmetric.
Qed.

Lemma square_unit_element : square 4 Examples.unit_element.
Proof.
  split; [reflexivity|]. intros i Hi. do 4 (destruct i as [|i]; [reflexivity|]). lia.
Defined.

Lemma applyMomentRelease_in_place_witness :
  square 4 Examples.unit_element
  /\ Num.eps12 <= Qcabs (mget Examples.unit_element 1 1)
  /\ mget Examples.released_in_place 0 2 = released_entry Examples.unit_element 1 0 2.
Proof.
  assert (Num.eps12 <= Qcabs (mget Examples.unit_element 1 1)) as Hk by qc_closed.
  split; [exact square_unit_element|]. split; [exact Hk|].
  destruct (applyMomentRelease_in_place Examples.unit_element (zeros 4) square_unit_element)
    as [H _].
  apply (H Hk); lia.
Defined.

(** ** The global stiffness matrix is symmetric *)

Lemma entry_bump n (K : matrix) a b v i j :
  square n K -> (a < n)%nat -> (b < n)%nat ->
  mget (mset K a b (mget K a b + v)) i j
  = mget K i j + (if decide (i = a /\ j = b) then v else 0).
Proof.
  intros HK Ha Hb. rewrite mget_mset.
  2:{ by rewrite (square_length n K HK). }
  2:{ by rewrite (square_row n K a HK Ha). }
  destruct (decide (i = a /\ j = b)) as [[-> ->]|Hne]; ring.
Qed.

Lemma entry_scatter n i ke (K : matrix) i0 j0 :
  square n K -> (i * 2 + 3 < n)%nat ->
  mget (scatter i ke K) i0 j0
  = mget K i0 j0
    + sum_range 0 4 (fun r =>
        sum_range 0 4 (fun cc =>
          if decide (i0 = idxs i !!! r /\ j0 = idxs i !!! cc) then mget ke r cc else 0)).
Proof.
  intros HK Hi. unfold scatter.
  assert (forall r, (r < 4)%nat -> (idxs i !!! r < n)%nat) as Hidx.
  { intros r Hr. unfold idxs. do 4 (destruct r as [|r]; [cbn; lia|]). lia. }
  set (term := fun r cc =>
    if decide (i0 = idxs i !!! r /\ j0 = idxs i !!! cc) then mget ke r cc else 0).
  apply (for_range_inv
    (fun r K' => square n K'
       /\ mget K' i0 j0
          = mget K i0 j0 + sum_range 0 r (fun r => sum_range 0 4 (term r)))); [lia| |].
  - split; [done|]. rewrite sum_range_nil by lia. ring.
  - intros r K1 Hr [Hsq HW]. rewrite sum_range_snoc by lia.
    assert (square n (for_range 0 4
              (fun cc K0 => mset K0 (idxs i !!! r) (idxs i !!! cc)
                 (mget K0 (idxs i !!! r) (idxs i !!! cc) + mget ke r cc)) K1)
            /\ mget (for_range 0 4
              (fun cc K0 => mset K0 (idxs i !!! r) (idxs i !!! cc)
                 (mget K0 (idxs i !!! r) (idxs i !!! cc) + mget ke r cc)) K1) i0 j0
               = mget K1 i0 j0 + sum_range 0 4 (term r)) as [Hsq' HW'].
    { apply (for_range_inv
        (fun cc K' => square n K'
           /\ mget K' i0 j0 = mget K1 i0 j0 + sum_range 0 cc (term r))); [lia| |].
      - split; [done|]. rewrite sum_range_nil by lia. ring.
      - intros cc K2 Hcc [Hsq2 HW2]. split; [by apply square_mset|].
        rewrite (entry_bump n) by (done || apply Hidx; lia).
        rewrite sum_range_snoc by lia. rewrite HW2. unfold term. ring. }
    split; [done|]. rewrite HW', HW. ring.
Qed.

Lemma scatter_symmetric n i ke (K : matrix) :
  square n K -> (i * 2 + 3 < n)%nat -> symmetric K -> symmetric ke ->
  symmetric (scatter i ke K).
Proof.
  intros HK Hi HsK Hske i0 j0. rewrite !(entry_scatter n) by done.
  rewrite (HsK i0 j0). f_equal.
  rewrite (sum_range_exchange 4 4
    (fun r cc => if decide (j0 = idxs i !!! r /\ i0 = idxs i !!! cc)
                 then mget ke r cc else 0)).
  apply sum_range_ext. intros r _. apply sum_range_ext. intros cc _.
  rewrite (Hske cc r).
  destruct (decide (i0 = idxs i !!! r /\ j0 = idxs i !!! cc)) as [[H1 H2]|H1].
  - by rewrite decide_True.
  - rewrite decide_False; [done|]. intros [? ?]. by apply H1.
Qed.

Lemma elementStiffness_shape EI Le :
  square 4 (elementStiffness EI Le) /\ symmetric (elementStiffness EI Le).
Proof.
  assert (square 4 (elementStiffness EI Le)) as Hsq.
  { split; [reflexivity|]. intros i Hi. do 4 (destruct i as [|i]; [reflexivity|]). lia. }
  split; [done|]. apply (symmetric_inside 4); [done|].
  intros i j Hi Hj.
  do 4 (destruct i as [|i]; [do 4 (destruct j as [|j]; [reflexivity|]); lia|]). lia.
Qed.

Lemma assemble_element_symmetric n EI fnodes hs i (K : matrix) :
  square n K -> (i * 2 + 3 < n)%nat -> symmetric K ->
  symmetric (assemble_element EI fnodes hs i K).
Proof.
  intros HK Hi Hsym. unfold assemble_element. cbv zeta.
  destruct (Num.leb _ _); [done|].
  destruct (elementStiffness_shape EI (fnodes !!! (i + 1)%nat - fnodes !!! i)) as [H4 Hs4].
  apply (scatter_symmetric n); [done|done|done|].
  destruct (has hs i || has hs (i + 1)); [|done].
  by apply applyMomentRelease_symmetric.
Qed.

Lemma zero_matrix_symmetric n : symmetric (zero_matrix n).
Proof.
  apply (symmetric_inside n); [apply square_zero_matrix|].
  intros i j Hi Hj. unfold mget, zero_matrix.
  rewrite !lookup_total_replicate_2 by done. by rewrite !zeros_lookup.
Qed.

Lemma add_diag_symmetric n (K : matrix) a v :
  square n K -> symmetric K -> symmetric (add_diag K a v).
Proof.
  intros HK Hsym. unfold add_diag.
  destruct (decide (a < n)%nat) as [Ha|Ha].
  - intros i j. rewrite !(entry_bump n) by done. rewrite (Hsym i j).
    destruct (decide (i = a /\ j = a)) as [[H1 H2]|H1].
    + by rewrite decide_True.
    + rewrite decide_False; [done|]. intros [? ?]. by apply H1.
  - unfold mset. rewrite list_insert_ge; [done|]. rewrite (square_length n K HK). lia.
Qed.

Lemma apply_supports_symmetric n penalty fnodes supports (K : matrix) :
  square n K -> symmetric K -> symmetric (apply_supports penalty fnodes supports K).
Proof.
  unfold apply_supports. revert K.
  induction supports as [|s ss IH]; intros K HK Hs; [done|].
  cbn [fold_left]. apply IH.
  - destruct (s_type s); repeat apply square_add_diag; done.
  - destruct (s_type s); try done.
    + by apply (add_diag_symmetric n).
    + by apply (add_diag_symmetric n).
    + apply (add_diag_symmetric n); [by apply square_add_diag|].
      by apply (add_diag_symmetric n).
Qed.

(** X15: the matrix handed to the solver is square, of order twice the
    number of nodes, and symmetric, with any supports; with hinges too,
    for the in-place release keeps an element matrix symmetric. *)
Theorem stiffness_symmetric L EI probeX supports loads :
  let K := stiffness L EI probeX supports loads in
  square (length (finalNodes L probeX supports loads) * 2) K /\ symmetric K.
Proof.
  cbv zeta. split; [apply square_stiffness|].
  unfold stiffness.
  set (fnodes := finalNodes L probeX supports loads).
  set (hs := hingeNodes fnodes supports).
  set (n := (length fnodes * 2)%nat).
  assert (square n (assemble EI fnodes hs) /\ symmetric (assemble EI fnodes hs)) as [H1 H2].
  { unfold assemble. fold n.
    apply (for_range_inv' (fun K => square n K /\ symmetric K)).
    - split; [apply square_zero_matrix|apply zero_matrix_symmetric].
    - intros i K Hi [HK Hs]. split.
      + unfold assemble_element. destruct (Num.leb _ _); [done|].
        apply square_scatter; [done|lia].
      + apply (assemble_element_symmetric n); [done|lia|done]. }
  by apply (apply_supports_symmetric n).
Qed.

(** ** The size of the mesh *)

Lemma Qcmult_nonneg (a b : Qc) : 0 <= a -> 0 <= b -> 0 <= a * b.
Proof.
  intros Ha Hb. replace 0 with (0 * b) by ring. by apply Qcmult_le_compat_r.
Qed.

Lemma numSub_upper L a b :
  a <= b -> c (numSub L a b) <= (b - a) / minInterval L + 1.
Proof.
  intros Hab. pose proof (minInterval_pos L) as Hmi.
  assert (0 <= (b - a) / minInterval L) as Hx.
  { unfold Qcdiv. apply Qcmult_nonneg.
    - apply -> Qcle_minus_iff. exact Hab.
    - apply Qclt_le_weak. by apply Qcinv_pos. }
  unfold numSub, Num.ceil.
  set (x := (b - a) / minInterval L) in *.
  destruct (Z.max_spec 1 (Qceiling (this x))) as [[_ ->]|[_ ->]].
  - pose proof (Qceiling_lt (this x)) as Hc.
    unfold Num.qz, Qcle. rewrite NumFacts.this_plus, NumFacts.this_Q2Qc.
    apply Qlt_le_weak.
    unfold Z.sub in Hc. rewrite inject_Z_plus in Hc.
    change (inject_Z (- (1))) with (-1 # 1)%Q in Hc.
    change (this 1) with 1%Q. lra.
  - change (c 1) with 1. rewrite <- (Qcplus_0_l 1) at 1.
    apply Qcplus_le_compat; [done|apply Qcle_refl].
Qed.

Lemma length_subdivide L a b : length (subdivide L a b []) = Z.to_nat (numSub L a b).
Proof. by rewrite subdivide_points, app_nil_l, length_fmap, length_seq. Qed.

Lemma qz_of_nat_add n m : c (Z.of_nat (n + m)) = c (Z.of_nat n) + c (Z.of_nat m).
Proof.
  rewrite Nat2Z.inj_add. unfold Num.qz. apply Qc_is_canon.
  rewrite NumFacts.this_plus, !NumFacts.this_Q2Qc. by rewrite inject_Z_plus.
Qed.

Lemma length_segments L a tl z :
  chain Qclt (a :: tl) -> last (a :: tl) = Some z ->
  c (Z.of_nat (length (segments L (a :: tl))))
  <= (z - a) / minInterval L + c (Z.of_nat (length tl)).
Proof.
  pose proof (minInterval_pos L) as Hmi.
  assert (minInterval L <> 0) as Hmi0
    by (intros E; rewrite E in Hmi; by apply Qclt_not_eq in Hmi).
  revert a. induction tl as [|b tl IH]; intros a Hc Hz.
  - simpl in Hz. injection Hz as <-. cbn [segments length].
    replace ((a - a) / minInterval L + c (Z.of_nat 0)) with (c 0)
      by (change (c (Z.of_nat 0)) with 0; rewrite c0_zero; field; done).
    apply Qcle_refl.
  - destruct Hc as [Hab Hc]. rewrite last_cons_cons in Hz.
    specialize (IH b Hc Hz). rewrite segments_cons, length_app, length_subdivide.
    rewrite qz_of_nat_add. cbn [length].
    replace (Datatypes.S (length tl)) with (1 + length tl)%nat by lia.
    rewrite qz_of_nat_add.
    pose proof (numSub_ge_1 L a b) as HN. rewrite Z2Nat.id by lia.
    pose proof (numSub_upper L a b (Qclt_le_weak _ _ Hab)) as Hup.
    replace ((z - a) / minInterval L + (c (Z.of_nat 1) + c (Z.of_nat (length tl))))
      with (((b - a) / minInterval L + 1)
            + ((z - b) / minInterval L + c (Z.of_nat (length tl))))
      by (change (c (Z.of_nat 1)) with 1; field; done).
    by apply Qcplus_le_compat.
Qed.

Lemma span_over_minInterval L : 0 < L -> L / minInterval L <= c 100.
Proof.
  intros HL. pose proof (minInterval_pos L) as Hmi.
  assert (L / c 100 <= minInterval L) as Hle.
  { unfold minInterval, Num.max. destruct (Num.ltb _ _) eqn:E.
    - apply Qcle_refl.
    - by apply NumFacts.ltb_ge in E. }
  assert (minInterval L <> 0) as Hmi0
    by (intros E; rewrite E in Hmi; by apply Qclt_not_eq in Hmi).
  assert (L / minInterval L = (L / c 100) * (c 100 / minInterval L)) as ->
    by (field; split; done).
  assert (c 100 = minInterval L * (c 100 / minInterval L)) as Heq by (field; done).
  rewrite Heq at 3. apply Qcmult_le_compat_r; [done|].
  unfold Qcdiv. apply Qcmult_nonneg; [done|].
  apply Qclt_le_weak. by apply Qcinv_pos.
Qed.

Lemma qz_le_inv z1 z2 : c z1 <= c z2 -> (z1 <= z2)%Z.
Proof.
  unfold Num.qz, Qcle. rewrite !NumFacts.this_Q2Qc. by rewrite <- Zle_Qle.
Qed.

Lemma length_fold_set_add {A B} `{EqDecision A} (f : B -> A) (l : list B) (s : list A) :
  (length (fold_left (fun s x => set_add s (f x)) l s) <= length s + length l)%nat.
Proof.
  revert s. induction l as [|x l IH]; intros s; cbn [fold_left length]; [lia|].
  specialize (IH (set_add s (f x))). pose proof (set_add_length s (f x)). lia.
Qed.

Lemma length_criticalX L probeX supports loads :
  (length (criticalX L probeX supports loads) <= 3 + length supports + 2 * length loads)%nat.
Proof.
  unfold criticalX. cbv zeta.
  set (s0 := fold_left set_add [c 0; L; probeX] []).
  assert (length s0 <= 3)%nat as H0.
  { pose proof (length_fold_set_add (fun x : Qc => x) [c 0; L; probeX] []) as H.
    cbn [length] in H. exact H. }
  set (s1 := fold_left add_support_position supports s0).
  assert (length s1 <= 3 + length supports)%nat as H1.
  { pose proof (length_fold_set_add s_position supports s0) as H.
    unfold s1, add_support_position. lia. }
  assert (forall ls s, length (fold_left add_load_positions ls s)
                       <= length s + 2 * length ls)%nat as H2.
  { induction ls as [|l ls IH]; intros s; cbn [fold_left length]; [lia|].
    specialize (IH (add_load_positions s l)).
    assert (length (add_load_positions s l) <= 2 + length s)%nat.
    { unfold add_load_positions. cbv zeta.
      pose proof (set_add_length s (l_position l)).
      destruct (l_endPosition l) as [e|]; [|lia].
      destruct (is_distributed (l_type l)); [|lia].
      pose proof (set_add_length (set_add s (l_position l)) e). lia. }
    lia. }
  specialize (H2 loads s1). lia.
Qed.

(** X16: the mesh stays small.  For inputs on the beam the number of
    nodes is at most [103 + #supports + 2 * #loads], whatever the length
    of the beam: at most [100] subdivisions, plus one node per distinct
    critical position. *)
Theorem mesh_size_bound config supports loads probeX r :
  analyzeBeam config supports loads probeX = Return r ->
  in_span (cfg_length config) probeX supports loads ->
  (2 <= length (nodes r) <= 103 + length supports + 2 * length loads)%nat.
Proof.
  intros Hret Hspan. apply analyzeBeam_inv in Hret as [Hgeom ->].
  rewrite analyze_nodes. set (L := cfg_length config) in *.
  assert (0 < L) as HL.
  { unfold invalid_geometry in Hgeom. apply orb_false_iff in Hgeom as [HL _].
    by apply NumFacts.leb_gt in HL. }
  unfold finalNodes.
  destruct (criticalX_spec L probeX supports loads) as [Hnd Hin].
  pose proof (length_criticalX L probeX supports loads) as Hlen.
  set (X := criticalX L probeX supports loads) in *.
  destruct (sortedX_shape L X) as (tl & Hsort & Hchain & Hlast & Hmem).
  { done. }
  { apply Hin. by left. }
  { apply Hin. right. by left. }
  { intros x Hx. by apply (in_span_critical _ _ _ _ Hspan), Hin. }
  rewrite Hsort, mesh_segments, length_app. cbn [length].
  assert (length X = Datatypes.S (length tl)) as HX.
  { rewrite <- (Permutation_length (sort_asc_perm X)), Hsort. done. }
  pose proof (length_segments L (c 0) tl L Hchain Hlast) as Hseg.
  assert (c (Z.of_nat (length (segments L (c 0 :: tl))))
          <= c (100 + Z.of_nat (length tl))) as Hle.
  { eapply Qcle_trans; [exact Hseg|].
    assert (c (100 + Z.of_nat (length tl)) = c 100 + c (Z.of_nat (length tl))) as ->.
    { unfold Num.qz. apply Qc_is_canon.
      rewrite NumFacts.this_plus, !NumFacts.this_Q2Qc. by rewrite inject_Z_plus. }
    apply Qcplus_le_compat; [|apply Qcle_refl].
    replace (L - c 0) with L by (rewrite c0_zero; ring).
    by apply span_over_minInterval. }
  apply qz_le_inv in Hle. split; [|lia].
  destruct tl as [|b tl'].
  - simpl in Hlast. injection Hlast as Hlast. rewrite <- Hlast in HL.
    by apply Qclt_not_eq in HL.
  - rewrite segments_cons, length_app, length_subdivide.
    pose proof (numSub_ge_1 L (c 0) b). lia.
Qed.

Lemma mesh_size_bound_witness :
  analyzeBeam Examples.section_ok Examples.fixed_roller Examples.udl Examples.mid
  = Return Examples.result_propped
  /\ in_span Num.tenth Examples.mid Examples.fixed_roller Examples.udl
  /\ (2 <= length (nodes Examples.result_propped) <= 103 + 2 + 2 * 1)%nat.
Proof.
  split; [exact propped_returns|]. split; [exact in_span_example|].
  exact (mesh_size_bound _ _ _ _ _ propped_returns in_span_example).
Defined.

(** ** The response is linear in the loads *)

Lemma criticalX_scale k L probeX supports loads :
  criticalX L probeX supports (scale_load k <$> loads) = criticalX L probeX supports loads.
Proof. unfold criticalX. cbv zeta. by rewrite fold_left_fmap_l. Qed.

Lemma finalNodes_scale k L probeX supports loads :
  finalNodes L probeX supports (scale_load k <$> loads) = finalNodes L probeX supports loads.
Proof. unfold finalNodes. by rewrite criticalX_scale. Qed.

Lemma stiffness_scale k L EI probeX supports loads :
  stiffness L EI probeX supports (scale_load k <$> loads)
  = stiffness L EI probeX supports loads.
Proof. unfold stiffness. by rewrite finalNodes_scale. Qed.

Lemma displacements_scale k L EI probeX supports loads :
  displacements L EI probeX supports (scale_load k <$> loads)
  = vscale k (displacements L EI probeX supports loads).
Proof.
  unfold displacements, factorization.
  rewrite stiffness_scale, finalNodes_scale, buildLoadVector_scale. apply solve_scale.
Qed.

Lemma getInternalAt_scale k EI fnodes hs (U : vec) x loads sd :
  getInternalAt EI fnodes hs (vscale k U) x (scale_load k <$> loads) sd
  = (k * (getInternalAt EI fnodes hs U x loads sd).1,
     k * (getInternalAt EI fnodes hs U x loads sd).2).
Proof.
  unfold getInternalAt. cbv zeta.
  set (e := Z.to_nat _).
  destruct (Num.leb _ _); [cbn [fst snd]; rewrite c0_zero; f_equal; ring|].
  change [c 0; c 0; c 0; c 0] with (zeros 4).
  set (x1 := fnodes !!! e). set (x2 := fnodes !!! (e + 1)%nat).
  assert (fold_left (fun fe load => distributed_fe_internal x1 x2 load fe)
            (scale_load k <$> loads) (zeros 4)
          = vscale k (fold_left (fun fe load => distributed_fe_internal x1 x2 load fe)
                        loads (zeros 4))) as ->.
  { rewrite <- (vscale_zeros k 4) at 1. apply fold_distributed_fe_internal_scale. }
  set (fe := fold_left _ loads (zeros 4)).
  assert (length fe = 4%nat) as Hfe.
  { subst fe. generalize (zeros 4) (length_zeros 4).
    induction loads as [|l ls IH]; intros z Hz; [done|]. cbn [fold_left]. apply IH.
    unfold distributed_fe_internal. destruct (overlap _ _ l) as [[q12 loadLen]|]; [|done].
    cbv zeta. by rewrite !length_vadd. }
  set (ke := elementStiffness EI _).
  assert ((if has hs e || has hs (e + 1)
           then applyMomentRelease ke (vscale k fe) (has hs e) (has hs (e + 1))
           else (ke, vscale k fe))
          = ((if has hs e || has hs (e + 1)
              then applyMomentRelease ke fe (has hs e) (has hs (e + 1))
              else (ke, fe)).1,
             vscale k (if has hs e || has hs (e + 1)
                       then applyMomentRelease ke fe (has hs e) (has hs (e + 1))
                       else (ke, fe)).2)) as ->.
  { destruct (has hs e || has hs (e + 1)); [|done]. by apply applyMomentRelease_scale. }
  destruct (if has hs e || has hs (e + 1)
            then applyMomentRelease ke fe (has hs e) (has hs (e + 1))
            else (ke, fe)) as [ke' fe'].
  cbn [fst snd]. rewrite !vscale_lookup.
  set (ue := [U !!! (e * 2)%nat; U !!! (e * 2 + 1)%nat; U !!! ((e + 1) * 2)%nat;
              U !!! ((e + 1) * 2 + 1)%nat]).
  change [k * U !!! (e * 2)%nat; k * U !!! (e * 2 + 1)%nat; k * U !!! ((e + 1) * 2)%nat;
          k * U !!! ((e + 1) * 2 + 1)%nat] with (vscale k ue).
  assert (for_range 0 4
            (fun r f => for_range 0 4
               (fun cc f => vadd f r (mget ke' r cc * (vscale k ue !!! cc))) f)
            (vscale k fe')
          = vscale k (for_range 0 4
               (fun r f => for_range 0 4
                  (fun cc f => vadd f r (mget ke' r cc * (ue !!! cc))) f)
               fe')) as ->.
  { apply (for_range_rel2 (fun a b => a = vscale k b)); [done|].
    intros r f1 f2 _ ->. apply (for_range_rel2 (fun a b => a = vscale k b)); [done|].
    intros cc g1 g2 _ ->. rewrite vscale_lookup, <- vadd_vscale. apply vadd_eq; [done|ring]. }
  rewrite !vscale_lookup. destruct (_ =? _)%Z; cbn [fst snd]; unfold Qcdiv; f_equal; ring.
Qed.

Lemma even_entries_scale k (U : vec) n :
  length U = (2 * n)%nat -> even_entries (vscale k U) = vscale k (even_entries U).
Proof.
  intros HU. apply (list_eq_lookup_total _ _ n).
  - apply length_even_entries. by rewrite vscale_length.
  - rewrite vscale_length. by apply length_even_entries.
  - intros i Hi. rewrite vscale_lookup.
    rewrite !(even_entries_lookup _ n) by (rewrite ?vscale_length; done).
    apply vscale_lookup.
Qed.

Lemma reaction_moments penalty fnodes (U : vec) supports :
  rx_moment <$> reactions_of penalty fnodes U supports
  = (fun s => match s_type s with
              | FIXED => penalty * U !!! (findClosestNodeIndex fnodes (s_position s) * 2 + 1)%nat
                         / Num.k1000
              | _ => c 0
              end) <$> List.filter non_hinge supports.
Proof. unfold reactions_of. rewrite fmap_imap. by rewrite <- imap_const. Qed.


